(** * FlexGet feed core: entries, classification, purging, dispatch

    A shallow embedding of [feed.py] (classes [Entry] and [Feed]) and the
    properties its specification states about them.

    Conventions of the embedding:
    - a Python [dict] with string keys is a [gmap string _]; dictionary
      equality ([==], used by [in] and [list.remove]) is equality of maps;
    - a Python [list] is a [list];
    - a method of [Feed] is a function on the feed state that returns the
      new state together with either a value or the exception it raised
      (the mutations done before the [raise] stay in the state);
    - methods that dispatch modules can re-enter themselves through
      [abort()], so they take a recursion budget and return [None] when it
      is exhausted;
    - the plugin manager and the plugins are not part of [feed.py]: they
      are a parameter ([Manager]) of every definition that uses them. *)

From stdpp Require Import gmap strings list fin_maps pretty sorting.

Open Scope Z_scope.

(** ** Values and exceptions *)

(** The scalar values that entries and configurations hold. *)
Inductive value :=
| VNone
| VBool (b : bool)
| VInt (n : Z)
| VStr (s : string).

#[global] Instance value_eq_dec : EqDecision value.
Proof. solve_decision. Defined.

(** [str(v)], as the [%s] conversion applies it. *)
Definition str (v : value) : string :=
  match v with
  | VNone => "None"
  | VBool true => "True"
  | VBool false => "False"
  | VInt n => pretty n
  | VStr s => s
  end.

(** The exceptions that occur in [feed.py]. [ModuleWarning] is the
    plugin's recoverable warning with its [log_once] flag; [OtherException]
    is any other exception raised by plugin code. *)
Inductive exn :=
| KeyError (key : string)
| ValueError
| AttributeError (attr : string)
| ModuleWarning (log_once : bool)
| OtherException.

#[global] Instance exn_eq_dec : EqDecision exn.
Proof. solve_decision. Defined.

Inductive result (A : Type) :=
| Ok (a : A)
| Raise (e : exn).
Arguments Ok {A} a.
Arguments Raise {A} e.

Definition is_ok {A} (r : result A) : bool :=
  match r with Ok _ => true | Raise _ => false end.

(** ** Entry *)

Module Entry.

(** [class Entry(dict)] *)
Abbreviation t := (gmap string value).

(** [key in self] *)
Definition contains (key : string) (self : t) : bool :=
  bool_decide (is_Some (self !! key)).

(** [self[key]] *)
Definition getitem (self : t) (key : string) : result value :=
  match self !! key with
  | Some v => Ok v
  | None => Raise (KeyError key)
  end.

(** [Entry.__setitem__]. The inner [self['original_url'] = value] is a
    call of [__setitem__] with a key other than ['url'], which goes
    straight to [dict.__setitem__]. *)
Definition setitem (key : string) (v : value) (self : t) : t :=
  let self1 :=
    if bool_decide (key = "url") then
      if negb (contains "original_url" self)
      then <["original_url" := v]> self
      else self
    else self in
  <[key := v]> self1.

(** [Entry.__init__], called with the list of its positional arguments *)
Definition init (args : list value) : t :=
  match args with
  | [title; url] => setitem "url" url (setitem "title" title ∅)
  | _ => ∅
  end.

(** [Entry.safe_str] *)
Definition safe_str (self : t) : result string :=
  match getitem self "title" with
  | Raise ex => Raise ex
  | Ok title =>
      match getitem self "url" with
      | Raise ex => Raise ex
      | Ok url => Ok (str title +:+ " | " +:+ str url)
      end
  end.

(** [Entry.isvalid] *)
Definition isvalid (self : t) : bool :=
  if negb (contains "title" self) then false
  else if negb (contains "url" self) then true
  else true.

(** A sequence of item assignments [self[k] = v], oldest first. *)
Definition assign (ops : list (string * value)) (self : t) : t :=
  foldl (λ e kv, setitem kv.1 kv.2 e) self ops.

(** The value of the first assignment to ['url'] in a sequence. *)
Fixpoint first_url (ops : list (string * value)) : option value :=
  match ops with
  | [] => None
  | (k, v) :: ops' => if bool_decide (k = "url") then Some v else first_url ops'
  end.

(** The entries the documentation of the class asks for:
    "Must have url and title fields". *)
Definition well_formed (self : t) : Prop :=
  is_Some (self !! "title") ∧ is_Some (self !! "url").

#[global] Instance well_formed_dec self : Decision (well_formed self).
Proof. unfold well_formed. apply _. Defined.

End Entry.

(** ** Feed: state and classification *)

Module Feed.

(** The value configured for a keyword: a scalar, or a mapping. The
    ['priority'] field of a mapping, a number when it is present, is kept
    apart from its other fields. *)
Inductive config_value :=
| CScalar (v : value)
| CDict (priority : option Z) (fields : gmap string value).

Inductive purge_kind := Filtered | Rejected | Failed.

(** What a run did, in order. This history is not a field of the Python
    class: it records the module calls, the purge passes and the two log
    records of the control flow, so that properties about when they
    happen can be stated. *)
Inductive obs :=
| Called (event keyword : string)   (* a module's event method is entered *)
| Purged (kind : purge_kind)        (* a purge pass starts *)
| Unhandled (keyword : string)      (* log.exception('Unhandled error in module ...') *)
| Aborting.                         (* log.info('Aborting feed ...') *)

#[global] Instance purge_kind_eq_dec : EqDecision purge_kind.
Proof. solve_decision. Defined.
#[global] Instance obs_eq_dec : EqDecision obs.
Proof. solve_decision. Defined.

(** [class Feed]: the fields set by [__init__], the entries handed to
    [manager.add_failed], and the history. *)
Record t := mk {
  name : string;
  config : gmap string config_value;
  entries : list Entry.t;
  accepted : list Entry.t;
  filtered : list Entry.t;
  rejected : list Entry.t;
  failed : list Entry.t;
  __abort : bool;
  __purged : Z;
  current_event : option string;
  current_module : option string;
  manager_failed : list Entry.t;
  history : list obs
}.

(** [Feed.__init__(manager, name, config)] *)
Definition init (name : string) (config : gmap string config_value) : t :=
  mk name config [] [] [] [] [] false 0 None None [] [].

Definition set_entries (l : list Entry.t) (s : t) : t :=
  mk (name s) (config s) l (accepted s) (filtered s) (rejected s) (failed s)
     (__abort s) (__purged s) (current_event s) (current_module s)
     (manager_failed s) (history s).
Definition set_accepted (l : list Entry.t) (s : t) : t :=
  mk (name s) (config s) (entries s) l (filtered s) (rejected s) (failed s)
     (__abort s) (__purged s) (current_event s) (current_module s)
     (manager_failed s) (history s).
Definition set_filtered (l : list Entry.t) (s : t) : t :=
  mk (name s) (config s) (entries s) (accepted s) l (rejected s) (failed s)
     (__abort s) (__purged s) (current_event s) (current_module s)
     (manager_failed s) (history s).
Definition set_rejected (l : list Entry.t) (s : t) : t :=
  mk (name s) (config s) (entries s) (accepted s) (filtered s) l (failed s)
     (__abort s) (__purged s) (current_event s) (current_module s)
     (manager_failed s) (history s).
Definition set_failed (l : list Entry.t) (s : t) : t :=
  mk (name s) (config s) (entries s) (accepted s) (filtered s) (rejected s) l
     (__abort s) (__purged s) (current_event s) (current_module s)
     (manager_failed s) (history s).
Definition set_abort (b : bool) (s : t) : t :=
  mk (name s) (config s) (entries s) (accepted s) (filtered s) (rejected s)
     (failed s) b (__purged s) (current_event s) (current_module s)
     (manager_failed s) (history s).
Definition set_purged (n : Z) (s : t) : t :=
  mk (name s) (config s) (entries s) (accepted s) (filtered s) (rejected s)
     (failed s) (__abort s) n (current_event s) (current_module s)
     (manager_failed s) (history s).
Definition set_current (event keyword : string) (s : t) : t :=
  mk (name s) (config s) (entries s) (accepted s) (filtered s) (rejected s)
     (failed s) (__abort s) (__purged s) (Some event) (Some keyword)
     (manager_failed s) (history s).
Definition set_manager_failed (l : list Entry.t) (s : t) : t :=
  mk (name s) (config s) (entries s) (accepted s) (filtered s) (rejected s)
     (failed s) (__abort s) (__purged s) (current_event s) (current_module s)
     l (history s).
Definition record (o : obs) (s : t) : t :=
  mk (name s) (config s) (entries s) (accepted s) (filtered s) (rejected s)
     (failed s) (__abort s) (__purged s) (current_event s) (current_module s)
     (manager_failed s) (history s ++ [o]).

(** A method body: the state after it, and its value or its exception. *)
Definition op (A : Type) : Type := t → result A * t.

Definition ret {A} (a : A) : op A := λ s, (Ok a, s).
Definition raise {A} (ex : exn) : op A := λ s, (Raise ex, s).
Definition bind {A B} (m : op A) (k : A → op B) : op B :=
  λ s, match m s with
       | (Ok a, s') => k a s'
       | (Raise ex, s') => (Raise ex, s')
       end.
Definition lift {A} (r : result A) : op A := λ s, (r, s).
Definition modify (f : t → t) : op unit := λ s, (Ok tt, f s).

Notation "x <-- m ;; k" := (bind m (λ x, k))
  (at level 100, m at next level, right associativity).
Notation "m ;;; k" := (bind m (λ _, k))
  (at level 100, right associativity).

(** [l.remove(x)]: drops the first element equal to [x]. *)
Fixpoint list_remove (x : Entry.t) (l : list Entry.t) : result (list Entry.t) :=
  match l with
  | [] => Raise ValueError
  | y :: l' =>
      if bool_decide (y = x) then Ok l'
      else match list_remove x l' with
           | Ok r => Ok (y :: r)
           | Raise ex => Raise ex
           end
  end.

(** The ['... %s' % entry['title']] that the classification methods
    build for [verbose_details]; the text goes to the console and is not
    kept, the lookup can raise. *)
Definition title_message (entry : Entry.t) : op unit :=
  lift (Entry.getitem entry "title") ;;; ret tt.

(** [Feed.__purge(entries, not_in_list, count)]: [sel] and [notin] read
    the two lists from the feed, as the Python arguments alias them. The
    loop runs over a copy ([snapshot]) of the working set. *)
Fixpoint purge_loop (sel notin : t → list Entry.t) (count : bool)
    (snapshot : list Entry.t) : op unit :=
  match snapshot with
  | [] => ret tt
  | entry :: rest =>
      λ s,
        if bool_decide (entry ∈ sel s) && negb (bool_decide (entry ∈ notin s))
        then
          (lift (Entry.safe_str entry) ;;;
           l <-- (λ s, lift (list_remove entry (entries s)) s) ;;
           modify (set_entries l) ;;;
           (if count then modify (λ s, set_purged (__purged s + 1) s)
            else ret tt) ;;;
           purge_loop sel notin count rest) s
        else purge_loop sel notin count rest s
  end.

Definition __purge (sel notin : t → list Entry.t) (count : bool) : op unit :=
  λ s, purge_loop sel notin count (entries s) s.

(** [Feed._purge]: the filtered-purge. *)
Definition _purge : op unit :=
  modify (record (Purged Filtered)) ;;; __purge filtered accepted true.

(** [Feed.__purge_failed] *)
Definition __purge_failed : op unit :=
  modify (record (Purged Failed)) ;;; __purge failed (λ _, []) false.

(** [Feed.__purge_rejected] *)
Definition __purge_rejected : op unit :=
  modify (record (Purged Rejected)) ;;; __purge rejected (λ _, []) true.

(** [Feed.accept] *)
Definition accept (entry : Entry.t) : op unit :=
  λ s,
    if negb (bool_decide (entry ∈ accepted s)) then
      (modify (λ s, set_accepted (accepted s ++ [entry]) s) ;;;
       λ s, if bool_decide (entry ∈ filtered s) then
              (l <-- lift (list_remove entry (filtered s)) ;;
               modify (set_filtered l) ;;;
               title_message entry) s
            else title_message entry s) s
    else ret tt s.

(** [Feed.filter] *)
Definition filter (entry : Entry.t) : op unit :=
  λ s,
    if negb (bool_decide (entry ∈ filtered s))
       && negb (bool_decide (entry ∈ accepted s)) then
      (modify (λ s, set_filtered (filtered s ++ [entry]) s) ;;;
       title_message entry) s
    else ret tt s.

(** [Feed.reject] *)
Definition reject (entry : Entry.t) : op unit :=
  λ s,
    if negb (bool_decide (entry ∈ rejected s)) then
      (modify (λ s, set_rejected (rejected s ++ [entry]) s) ;;;
       title_message entry) s
    else ret tt s.

(** [Feed.fail] *)
Definition fail (entry : Entry.t) : op unit :=
  title_message entry ;;;
  λ s,
    if negb (bool_decide (entry ∈ failed s)) then
      (modify (λ s, set_failed (failed s ++ [entry]) s) ;;;
       modify (λ s, set_manager_failed (manager_failed s ++ [entry]) s) ;;;
       title_message entry) s
    else ret tt s.

(** *** The plugin manager and the plugins

    [manager.py] and the plugins are outside [feed.py]. What [Feed] uses
    of them is described here and taken as a parameter below. *)

(** What plugin code does with the feed it is handed: the calls of the
    classification methods, of [abort] and of [_purge], and the production
    of an entry. Writing into an entry that is already in one of the lists
    is not among them: the lists hold entries by value here. *)
Inductive action :=
| AAccept (entry : Entry.t)     (* feed.accept(entry) *)
| AFilter (entry : Entry.t)     (* feed.filter(entry) *)
| AReject (entry : Entry.t)     (* feed.reject(entry) *)
| AFail (entry : Entry.t)       (* feed.fail(entry) *)
| AAbort (silent : bool)        (* feed.abort(silent=...) *)
| APurge                        (* feed._purge() *)
| AProduce (entry : Entry.t).   (* feed.entries.append(entry) *)

(** The body of an event method of a plugin: it returns, raises, or
    makes a call on the feed and goes on according to how the call ended
    and to the state of the feed it then sees. *)
Inductive prog :=
| PReturn
| PRaise (ex : exn)
| PAct (a : action) (k : result unit → t → prog).

Module Manager.

(** The validator a plugin instance builds: [validator()] raises
    [TypeError], or gives an object whose [validate(config)] returns
    a truth value and leaves its messages in [errors.messages]. *)
Inductive validator_ctor :=
| ValidatorTypeError
| Validator (validate : config_value → bool * list string).

(** [module['instance']]: its methods by attribute name, and its
    [validator] attribute if it has one. *)
Record instance_t := mk_instance {
  methods : gmap string prog;
  validator : option validator_ctor
}.

(** A module (plugin) description, the dictionary [module]. *)
Record module := mk_module {
  name : string;
  builtin : bool;
  priorities : option (gmap string Z);
  instance : instance_t
}.

(** [manager.options] *)
Record options_t := mk_options {
  quiet : bool;
  details : bool;
  validate : bool;
  learn : bool
}.

(** [manager]: [get_modules_by_event] gives a new list at every call. *)
Record t := mk {
  modules : gmap string module;
  get_modules_by_event : string → list module;
  events : list string;
  event_methods : gmap string string;
  options : options_t;
  unit_test : bool
}.

End Manager.

(** *** Priorities and the order of dispatch *)

(** [Feed.__get_priority] *)
Definition __get_priority (module : Manager.module) (event : string) (s : t) : Z :=
  let priority :=
    default 0 (default ∅ (Manager.priorities module) !! event) in
  let keyword := Manager.name module in
  match config s !! keyword with
  | Some (CDict (Some p) _) => p
  | Some (CDict None _) => priority
  | Some (CScalar _) => priority
  | None => priority
  end.

(** [cmp(a, b)] on integers *)
Definition cmp (a b : Z) : comparison := a ?= b.

(** [Feed.__sort_modules] *)
Definition __sort_modules (a b : Manager.module) (event : string) (s : t)
    : comparison :=
  cmp (__get_priority a event s) (__get_priority b event s).

(** [list.sort(cmpfunc)] is a stable sort into ascending order. It is
    modelled by insertion sort; [stable_sort_unique] below shows that
    a stable sort has only one possible result. *)
Fixpoint sort_insert {A} (cmpfunc : A → A → comparison) (x : A) (l : list A)
    : list A :=
  match l with
  | [] => [x]
  | y :: l' =>
      match cmpfunc x y with
      | Gt => y :: sort_insert cmpfunc x l'
      | _ => x :: l
      end
  end.

Definition list_sort {A} (cmpfunc : A → A → comparison) (l : list A) : list A :=
  foldr (sort_insert cmpfunc) [] l.

(** The first four lines of [Feed.__run_event]: the modules of the event
    in the order in which the loop visits them. *)
Definition sorted_modules (manager : Manager.t) (event : string) (s : t)
    : list Manager.module :=
  let modules := Manager.get_modules_by_event manager event in
  let modules := list_sort (λ x y, __sort_modules x y event s) modules in
  reverse modules.

(** [keyword in self.config or module['builtin']] *)
Definition applicable (module : Manager.module) (s : t) : bool :=
  bool_decide (is_Some (config s !! Manager.name module))
  || Manager.builtin module.

(** *** Dispatch *)

(** A method that can re-enter [abort()]: [None] when the recursion
    budget is exhausted. *)
Definition fop (A : Type) : Type := t → option (result A * t).

Definition total {A} (m : op A) : fop A := λ s, Some (m s).
Definition fbind {A B} (m : fop A) (k : A → fop B) : fop B :=
  λ s, match m s with
       | None => None
       | Some (Ok a, s') => k a s'
       | Some (Raise ex, s') => Some (Raise ex, s')
       end.
(** [try: m except Exception-or-subclass: handler] *)
Definition try_except {A} (m : fop A) (handler : exn → fop A) : fop A :=
  λ s, match m s with
       | None => None
       | Some (Ok a, s') => Some (Ok a, s')
       | Some (Raise ex, s') => handler ex s'
       end.

Notation "x <~~ m ;; k" := (fbind m (λ x, k))
  (at level 100, m at next level, right associativity).
Notation "m ;;~ k" := (fbind m (λ _, k))
  (at level 100, right associativity).

Section Dispatch.
Variable manager : Manager.t.

Section Body.
(** [self.abort(silent=...)], as plugin code and the fault handler
    reach it. *)
Variable abort : bool → fop unit.

Definition do_action (a : action) : fop unit :=
  match a with
  | AAccept entry => total (accept entry)
  | AFilter entry => total (filter entry)
  | AReject entry => total (reject entry)
  | AFail entry => total (fail entry)
  | AAbort silent => abort silent
  | APurge => total _purge
  | AProduce entry => total (modify (λ s, set_entries (entries s ++ [entry]) s))
  end.

(** Running the body of an event method. *)
Fixpoint call (p : prog) : fop unit :=
  match p with
  | PReturn => total (ret tt)
  | PRaise ex => total (raise ex)
  | PAct a k =>
      λ s, match do_action a s with
           | None => None
           | Some (r, s') => call (k r s') s'
           end
  end.

(** The two statements under [try:]. *)
Definition invoke (module : Manager.module) (event : string) : fop unit :=
  match Manager.event_methods manager !! event with
  | None => total (raise (KeyError event))
  | Some method =>
      match Manager.methods (Manager.instance module) !! method with
      | None => total (raise (AttributeError method))
      | Some p =>
          total (modify (record (Called event (Manager.name module)))) ;;~
          call p
      end
  end.

(** The [except] clauses. *)
Definition handler (keyword : string) (ex : exn) : fop unit :=
  match ex with
  | ModuleWarning _ => total (ret tt)
  | _ => total (modify (record (Unhandled keyword))) ;;~ abort false
  end.

(** The loop of [Feed.__run_event]. *)
Fixpoint dispatch (event : string) (modules : list Manager.module)
    : fop unit :=
  match modules with
  | [] => total (ret tt)
  | module :: rest =>
      λ s,
        let keyword := Manager.name module in
        if applicable module s then
          (total (modify (set_current event keyword)) ;;~
           try_except (invoke module event) (handler keyword) ;;~
           total __purge_rejected ;;~
           total __purge_failed ;;~
           λ s, if __abort s then total (ret tt) s
                else dispatch event rest s) s
        else dispatch event rest s
  end.

End Body.

(** The first statements of [Feed.abort]: the log record, unless the
    feed is already aborted or the call is silent, and the flag. *)
Definition abort_enter (silent : bool) (s : t) : t :=
  let s1 := if negb (__abort s) && negb silent then record Aborting s
            else s in
  set_abort true s1.

(** [Feed.abort], given the [__run_event] it calls. *)
Definition abort_with (run_event : string → fop unit) (silent : bool)
    : fop unit :=
  λ s, run_event "abort" (abort_enter silent s).

(** [Feed.__run_event] *)
Fixpoint __run_event (fuel : nat) (event : string) : fop unit :=
  match fuel with
  | O => λ _, None
  | S fuel' =>
      λ s, dispatch (abort_with (__run_event fuel')) event
                    (sorted_modules manager event s) s
  end.

(** [Feed.abort] *)
Definition abort (fuel : nat) (silent : bool) : fop unit :=
  abort_with (__run_event fuel) silent.

(** [Feed.terminate] *)
Definition terminate (fuel : nat) : fop unit :=
  λ s, if __abort s then total (ret tt) s
       else __run_event fuel "terminate" s.

(** The messages that one configured keyword adds in [Feed.validate]. *)
Definition keyword_errors (keyword : string) (c : config_value) : list string :=
  match Manager.modules manager !! keyword with
  | None => ["Unknown keyword '" +:+ keyword +:+ "'"]
  | Some module =>
      match Manager.validator (Manager.instance module) with
      | Some Manager.ValidatorTypeError => []
      | Some (Manager.Validator validate) =>
          let '(errors, messages) := validate c in
          if errors then (λ msg, keyword +:+ " " +:+ msg) <$> messages
          else []
      | None => []
      end
  end.

(** The loop of [Feed.validate]: the keywords come in the order in
    which the dictionary yields them. *)
Definition collect_errors (s : t) : list string :=
  foldl (λ validate_errors kc, validate_errors ++ keyword_errors kc.1 kc.2)
        [] (map_to_list (config s)).

(** [Feed.validate] *)
Definition validate (fuel : nat) : fop (list string) :=
  λ s,
    let validate_errors := collect_errors s in
    ((match validate_errors with
      | [] => total (ret tt)
      | _ :: _ => abort fuel false
      end) ;;~
     total (ret validate_errors)) s.

(** [Feed.verbose_details_entries]: the titles are looked up only when
    the [details] option is set. *)
Definition verbose_details_entries : op unit :=
  λ s,
    if Manager.details (Manager.options manager) then
      foldr (λ entry k, bind (title_message entry) (λ _, k)) (ret tt)
            (entries s) s
    else ret tt s.

(** The test [learn and event in ['download', 'output']] of
    [Feed.execute]; a skipped event only logs the configured keywords
    that do not run. *)
Definition skipped (event : string) : bool :=
  Manager.learn (Manager.options manager)
  && bool_decide (event ∈ ["download"; "output"]).

(** What [Feed.execute] does for an event that is not skipped, up to
    the test of the abort flag. *)
Definition run_phase (fuel : nat) (event : string) : fop unit :=
  __run_event fuel event ;;~
  total _purge ;;~
  total (if bool_decide (event = "input") then verbose_details_entries
         else ret tt).

(** The loop over [manager.events] in [Feed.execute]. *)
Fixpoint run_events (fuel : nat) (events : list string) : fop unit :=
  match events with
  | [] => total (ret tt)
  | event :: rest =>
      if skipped event then run_events fuel rest
      else
        run_phase fuel event ;;~
        λ s, if __abort s then total (ret tt) s
             else run_events fuel rest s
  end.

(** [Feed.execute] *)
Definition execute (fuel : nat) : fop unit :=
  errors <~~ validate fuel ;;
  λ s,
    if __abort s then total (ret tt) s
    else if Manager.validate (Manager.options manager)
            && bool_decide (errors = [])
    then total (ret tt) s
    else run_events fuel (Manager.events manager) s.

End Dispatch.

(** *** Lookups on the feed *)

(** [a == b] on values: [True] and [False] are the numbers 1 and 0. *)
Definition value_eq (a b : value) : bool :=
  match a, b with
  | VNone, VNone => true
  | VStr s, VStr t => bool_decide (s = t)
  | VBool x, VBool y => bool_decide (x = y)
  | VInt x, VInt y => bool_decide (x = y)
  | VBool x, VInt y => bool_decide ((if x then 1 else 0) = y)
  | VInt x, VBool y => bool_decide (x = (if y then 1 else 0))
  | _, _ => false
  end.

(** [getattr(self, category)] when it is a list: the five lists that
    [Feed.__init__] creates. *)
Definition category_list (s : t) (category : string) : option (list Entry.t) :=
  if bool_decide (category = "entries") then Some (entries s)
  else if bool_decide (category = "accepted") then Some (accepted s)
  else if bool_decide (category = "filtered") then Some (filtered s)
  else if bool_decide (category = "rejected") then Some (rejected s)
  else if bool_decide (category = "failed") then Some (failed s)
  else None.

(** The inner loop of [Feed.find_entry]: the number of the given
    attributes that the entry has with an equal value. *)
Definition match_count (values : gmap string value) (entry : Entry.t) : nat :=
  foldl (λ matched kv,
           match entry !! kv.1 with
           | Some v => if value_eq v kv.2 then S matched else matched
           | None => matched
           end)
        O (map_to_list values).

(** The outer loop of [Feed.find_entry]. *)
Fixpoint find_in (cat : list Entry.t) (values : gmap string value)
    : option Entry.t :=
  match cat with
  | [] => None
  | entry :: rest =>
      if bool_decide (match_count values entry = size values) then Some entry
      else find_in rest values
  end.

(** The parameters of [find_entry(self, category='entries', **values)]:
    a keyword argument with one of these names is not an attribute to
    look for, the call gives the parameter a second value. *)
Definition reserved (values : gmap string value) : Prop :=
  is_Some (values !! "category") ∨ is_Some (values !! "self").

#[global] Instance reserved_dec values : Decision (reserved values).
Proof. unfold reserved. apply _. Defined.

(** [Feed.find_entry(category, **values)]. The outer [None] stands for the
    exception: [TypeError] when [values] names a parameter of the method
    or when the attribute is not a list, [AttributeError] when the feed
    has no such attribute. *)
Definition find_entry (category : string) (values : gmap string value) (s : t)
    : option (option Entry.t) :=
  if bool_decide (reserved values) then None
  else
    match category_list s category with
    | Some cat => Some (find_in cat values)
    | None => None
    end.

(** [Feed.get_input_url]; its plain [Exception] is [OtherException]. *)
Definition get_input_url (keyword : string) (s : t) : result value :=
  match config s !! keyword with
  | None => Raise (KeyError keyword)
  | Some (CDict _ fields) =>
      match fields !! "url" with
      | None => Raise OtherException
      | Some url => Ok url
      end
  | Some (CScalar v) => Ok v
  end.

End Feed.

(** ** Entries as shared objects

    The lists of a feed hold references to the entry objects, and plugin
    code that keeps such a reference can write into an entry while it is
    listed. [Feed] above holds the entries by value, which is what the
    code does as long as no listed entry is written to
    ([shared_classification_by_value] below). Here the objects are kept
    in a heap and the lists hold their addresses; [accept] and [filter]
    are the same methods of [feed.py], read with the [in] and the
    [remove] of Python lists. *)

Module Shared.

Record t := mk {
  heap : gmap nat Entry.t;
  accepted : list nat;
  filtered : list nat
}.

(** The content of an object. *)
Definition deref (h : gmap nat Entry.t) (r : nat) : Entry.t :=
  default ∅ (h !! r).

(** The test of [in] and of [remove] on an element: [x is y or x == y],
    where [==] on dictionaries compares the contents. *)
Definition same (h : gmap nat Entry.t) (x y : nat) : Prop :=
  x = y ∨ deref h x = deref h y.

#[global] Instance same_dec h x y : Decision (same h x y).
Proof. unfold same. apply _. Defined.

(** [entry in l] *)
Definition contains (h : gmap nat Entry.t) (l : list nat) (r : nat) : bool :=
  bool_decide (Exists (λ x, same h x r) l).

(** [l.remove(entry)] *)
Fixpoint remove (h : gmap nat Entry.t) (r : nat) (l : list nat)
    : result (list nat) :=
  match l with
  | [] => Raise ValueError
  | x :: l' =>
      if bool_decide (same h x r) then Ok l'
      else match remove h r l' with
           | Ok k => Ok (x :: k)
           | Raise ex => Raise ex
           end
  end.

(** The ['... %s' % entry['title']] of the two methods. *)
Definition title_message (h : gmap nat Entry.t) (r : nat) : result unit :=
  match Entry.getitem (deref h r) "title" with
  | Ok _ => Ok tt
  | Raise ex => Raise ex
  end.

(** [Feed.accept] *)
Definition accept (r : nat) (s : t) : result unit * t :=
  let h := heap s in
  if negb (contains h (accepted s) r) then
    let accepted1 := accepted s ++ [r] in
    if contains h (filtered s) r then
      match remove h r (filtered s) with
      | Ok l => (title_message h r, mk h accepted1 l)
      | Raise ex => (Raise ex, mk h accepted1 (filtered s))
      end
    else (title_message h r, mk h accepted1 (filtered s))
  else (Ok tt, s).

(** [Feed.filter] *)
Definition filter (r : nat) (s : t) : result unit * t :=
  let h := heap s in
  if negb (contains h (filtered s) r) && negb (contains h (accepted s) r)
  then (title_message h r, mk h (accepted s) (filtered s ++ [r]))
  else (Ok tt, s).

(** [entry[key] = value] in plugin code, on the object [r]. *)
Definition setitem (r : nat) (key : string) (v : value) (s : t) : t :=
  mk (<[r := Entry.setitem key v (deref (heap s) r)]> (heap s))
     (accepted s) (filtered s).

(** The feed by value: the contents of the listed objects. *)
Definition by_value (s : t) : Feed.t :=
  Feed.set_filtered (deref (heap s) <$> filtered s)
    (Feed.set_accepted (deref (heap s) <$> accepted s) (Feed.init "" ∅)).

End Shared.

(** ** Vocabulary of the properties *)

(** The four classification calls, and a sequence of them on a feed; the
    sequence goes on after a call that raised, as plugin code can. *)
Inductive classification :=
| Accepting (entry : Entry.t)
| Filtering (entry : Entry.t)
| Rejecting (entry : Entry.t)
| Failing (entry : Entry.t).

Definition classify (c : classification) : Feed.op unit :=
  match c with
  | Accepting entry => Feed.accept entry
  | Filtering entry => Feed.filter entry
  | Rejecting entry => Feed.reject entry
  | Failing entry => Feed.fail entry
  end.

Definition classify_all (cs : list classification) (s : Feed.t) : Feed.t :=
  foldl (λ s c, (classify c s).2) s cs.

(** No entry is both accepted and filtered. *)
Definition exclusive (s : Feed.t) : Prop :=
  ∀ entry, ¬ (entry ∈ Feed.accepted s ∧ entry ∈ Feed.filtered s).

(** What a purge pass over [sel], with exemptions [notin], removes. *)
Definition purgeable (sel notin : Feed.t → list Entry.t) (s : Feed.t)
    (entry : Entry.t) : Prop :=
  entry ∈ sel s ∧ entry ∉ notin s.

#[global] Instance purgeable_dec sel notin s entry :
  Decision (purgeable sel notin s entry).
Proof. unfold purgeable. apply _. Defined.

(** A pass only touches the working set and the counter. *)
Definition pass_frame (sel : Feed.t → list Entry.t) : Prop :=
  ∀ s l n, sel (Feed.set_purged n (Feed.set_entries l s)) = sel s.

(** The part of the state that steers a run. *)
Definition same_control (s s' : Feed.t) : Prop :=
  Feed.config s' = Feed.config s
  ∧ Feed.__abort s' = Feed.__abort s
  ∧ Feed.history s' = Feed.history s.

(** The effective priority in the words of the specification: the
    ['priority'] of the configured mapping when there is one, else the
    default that the module declares for the event, else 0. *)
Definition effective_priority (module : Feed.Manager.module) (event : string)
    (s : Feed.t) : Z :=
  match Feed.config s !! Feed.Manager.name module with
  | Some (Feed.CDict (Some p) _) => p
  | _ =>
      match Feed.Manager.priorities module with
      | Some declared =>
          match declared !! event with
          | Some p => p
          | None => 0
          end
      | None => 0
      end
  end.

(** The module calls of a history, in order. *)
Definition calls (h : list Feed.obs) : list (string * string) :=
  omap (λ o, match o with
             | Feed.Called event keyword => Some (event, keyword)
             | _ => None
             end) h.

(** *** Sample data *)

(** A plugin whose [method] runs [p]. *)
Definition plugin (name : string) (builtin : bool)
    (priorities : list (string * Z)) (method : string) (p : Feed.prog)
    : Feed.Manager.module :=
  Feed.Manager.mk_module name builtin (Some (list_to_map priorities))
    (Feed.Manager.mk_instance {[method := p]} None).

Definition sample_event_methods : gmap string string :=
  list_to_map [("input", "feed_input"); ("filter", "feed_filter");
               ("output", "feed_output"); ("terminate", "feed_terminate");
               ("abort", "feed_abort")].

Definition sample_options : Feed.Manager.options_t :=
  Feed.Manager.mk_options true false false false.

(** Three filters: A with priority 5, B with priority 10, and C with
    priority 5, registered in this order. *)
Definition abc_modules : list Feed.Manager.module :=
  [plugin "A" true [("filter", 5)] "feed_filter" Feed.PReturn;
   plugin "B" true [("filter", 10)] "feed_filter" Feed.PReturn;
   plugin "C" true [("filter", 5)] "feed_filter" Feed.PReturn].

Definition abc_manager : Feed.Manager.t :=
  Feed.Manager.mk
    (list_to_map ((λ m, (Feed.Manager.name m, m)) <$> abc_modules))
    (λ event, if bool_decide (event = "filter") then abc_modules else [])
    ["input"; "filter"; "output"]
    sample_event_methods sample_options true.

(** Plugin code that only makes the calls that [allowed] permits. *)
Inductive prog_allowed (allowed : Feed.action → Prop) : Feed.prog → Prop :=
| allowed_return : prog_allowed allowed Feed.PReturn
| allowed_raise ex : prog_allowed allowed (Feed.PRaise ex)
| allowed_act a k :
    allowed a → (∀ r s, prog_allowed allowed (k r s)) →
    prog_allowed allowed (Feed.PAct a k).

Definition module_allowed (allowed : Feed.action → Prop)
    (module : Feed.Manager.module) : Prop :=
  ∀ method p,
    Feed.Manager.methods (Feed.Manager.instance module) !! method = Some p →
    prog_allowed allowed p.


(** Plugin code that neither calls [abort()] nor raises anything but a
    [ModuleWarning]. *)
Inductive calm : Feed.prog → Prop :=
| calm_return : calm Feed.PReturn
| calm_warning log_once : calm (Feed.PRaise (ModuleWarning log_once))
| calm_act a k :
    (∀ silent, a ≠ Feed.AAbort silent) → (∀ r s, calm (k r s)) →
    calm (Feed.PAct a k).

(** The modules registered for the ['abort'] event have a calm method
    for it. *)
Definition quiet_abort (manager : Feed.Manager.t) : Prop :=
  ∀ module, module ∈ Feed.Manager.get_modules_by_event manager "abort" →
    ∃ method p,
      Feed.Manager.event_methods manager !! "abort" = Some method
      ∧ Feed.Manager.methods (Feed.Manager.instance module) !! method = Some p
      ∧ calm p.

(** The module that a dispatch reaches first: the first of the visited
    list that is configured or builtin. *)
Definition first_applicable (modules : list Feed.Manager.module) (s : Feed.t)
    : option Feed.Manager.module :=
  head (filter (λ m, Feed.applicable m s = true) modules).

(** How a dispatch moves the control state: the configuration stays, the
    abort flag is never taken back, the history grows, and a fault that
    was logged leaves the flag set. *)
Definition advances (s s' : Feed.t) : Prop :=
  Feed.config s' = Feed.config s
  ∧ (Feed.__abort s = true → Feed.__abort s' = true)
  ∧ ∃ h, Feed.history s' = Feed.history s ++ h
         ∧ ((∃ keyword, Feed.Unhandled keyword ∈ h) → Feed.__abort s' = true).

(** A plugin that raises an exception in the ['filter'] event, next to an
    input plugin, an output plugin and a builtin plugin for the
    ['terminate'] event. *)
Definition sample_entry : Entry.t := Entry.init [VStr "title"; VStr "http://x"].

Definition faulty_modules : list Feed.Manager.module :=
  [plugin "src" false [] "feed_input"
     (Feed.PAct (Feed.AProduce sample_entry) (λ _ _, Feed.PReturn));
   plugin "boom" false [] "feed_filter" (Feed.PRaise OtherException);
   plugin "out" false [] "feed_output" Feed.PReturn;
   plugin "bye" true [] "feed_terminate" Feed.PReturn].

Definition faulty_manager : Feed.Manager.t :=
  Feed.Manager.mk
    (list_to_map ((λ m, (Feed.Manager.name m, m)) <$> faulty_modules))
    (λ event,
       filter (λ m, is_Some (sample_event_methods !! event
                             ≫= λ method,
                               Feed.Manager.methods (Feed.Manager.instance m)
                                 !! method))
              faulty_modules)
    ["input"; "filter"; "output"]
    sample_event_methods sample_options true.

Definition faulty_feed : Feed.t :=
  Feed.init "feed"
    (list_to_map [("src", Feed.CScalar (VStr "http://x"));
                  ("boom", Feed.CScalar VNone);
                  ("out", Feed.CScalar VNone)]).

(** The faulty feed when the ['filter'] event starts, with one entry in
    the working set, and when the dispatch of that event has returned. *)
Definition before_filter : Feed.t :=
  Feed.set_entries [sample_entry] faulty_feed.

Definition after_filter : Feed.t :=
  match Feed.__run_event faulty_manager 2 "filter" before_filter with
  | Some (_, s) => s
  | None => before_filter
  end.

(** A feed whose configuration names a keyword that [faulty_manager]
    does not know. *)
Definition alpha_feed : Feed.t :=
  Feed.init "feed" {["alpha" := Feed.CScalar VNone]}.

(** The one module call that an abort can make: the ['abort'] method of
    the first applicable module, if there is one. *)
Definition abort_target (manager : Feed.Manager.t) (s : Feed.t)
    : option (string * string) :=
  (λ m, ("abort", Feed.Manager.name m))
    <$> first_applicable (Feed.sorted_modules manager "abort" s) s.

(** [only_calls config0 target]: from an aborted feed configured by
    [config0], the flag and the configuration stay and every module call
    made is [target]. *)
Definition only_calls (config0 : gmap string Feed.config_value)
    (target : option (string * string)) (s s' : Feed.t) : Prop :=
  Feed.__abort s = true → Feed.config s = config0 →
  Feed.__abort s' = true
  ∧ Feed.config s' = config0
  ∧ ∃ h, Feed.history s' = Feed.history s ++ h
         ∧ ∀ c, c ∈ calls h → target = Some c.

(** Three builtin modules for the ['abort'] event; the middle one has the
    highest priority. *)
Definition cleanup_modules : list Feed.Manager.module :=
  [plugin "tidy" true [("abort", 1)] "feed_abort" Feed.PReturn;
   plugin "undo" true [("abort", 9)] "feed_abort"
     (Feed.PAct (Feed.AReject sample_entry) (λ _ _, Feed.PReturn));
   plugin "mail" true [] "feed_abort" Feed.PReturn].

Definition cleanup_manager : Feed.Manager.t :=
  Feed.Manager.mk
    (list_to_map ((λ m, (Feed.Manager.name m, m)) <$> cleanup_modules))
    (λ event, if bool_decide (event = "abort") then cleanup_modules else [])
    ["input"; "filter"; "output"]
    sample_event_methods sample_options true.


(** An input plugin that produces an entry and marks it filtered, and a
    second one that accepts it. *)
Definition rescue_modules : list Feed.Manager.module :=
  [plugin "make" true [("input", 2)] "feed_input"
     (Feed.PAct (Feed.AProduce sample_entry)
        (λ _ _, Feed.PAct (Feed.AFilter sample_entry) (λ _ _, Feed.PReturn)));
   plugin "keep" true [("input", 1)] "feed_input"
     (Feed.PAct (Feed.AAccept sample_entry) (λ _ _, Feed.PReturn))].

Definition rescue_manager : Feed.Manager.t :=
  Feed.Manager.mk
    (list_to_map ((λ m, (Feed.Manager.name m, m)) <$> rescue_modules))
    (λ event, if bool_decide (event = "input") then rescue_modules else [])
    ["input"; "filter"; "output"]
    sample_event_methods sample_options true.


(** A feed whose one entry is accepted and rejected. *)
Definition doomed_feed : Feed.t :=
  Feed.set_rejected [sample_entry]
    (Feed.set_accepted [sample_entry]
       (Feed.set_entries [sample_entry] (Feed.init "feed" ∅))).

(** ** Vocabulary of the further properties *)

(** The entry has every given attribute with an equal value. *)
Definition kwargs_match (values : gmap string value) (entry : Entry.t) : Prop :=
  ∀ k v, values !! k = Some v →
    ∃ v', entry !! k = Some v' ∧ Feed.value_eq v' v = true.


(** The modules registered for an event have a calm method for it. *)
Definition calm_event (manager : Feed.Manager.t) (event : string) : Prop :=
  ∀ module, module ∈ Feed.Manager.get_modules_by_event manager event →
    ∃ method p,
      Feed.Manager.event_methods manager !! event = Some method
      ∧ Feed.Manager.methods (Feed.Manager.instance module) !! method = Some p
      ∧ calm p.

(** A call that the run may make: the event is one of [evs] or
    ['abort'], the module is registered for it and is configured in
    [config0] or builtin. *)
Definition call_ok (manager : Feed.Manager.t)
    (config0 : gmap string Feed.config_value) (evs : list string)
    (event keyword : string) : Prop :=
  (event ∈ evs ∨ event = "abort")
  ∧ ∃ m, m ∈ Feed.Manager.get_modules_by_event manager event
         ∧ Feed.Manager.name m = keyword
         ∧ (is_Some (config0 !! keyword) ∨ Feed.Manager.builtin m = true).

Definition only_registered (manager : Feed.Manager.t)
    (config0 : gmap string Feed.config_value) (evs : list string)
    (s s' : Feed.t) : Prop :=
  Feed.config s = config0 →
  Feed.config s' = config0
  ∧ ∃ h, Feed.history s' = Feed.history s ++ h
         ∧ ∀ event keyword, Feed.Called event keyword ∈ h →
             call_ok manager config0 evs event keyword.

(** The events of the run that [execute] does not skip. *)
Definition run_list (manager : Feed.Manager.t) : list string :=
  filter (λ event, Feed.skipped manager event = false)
         (Feed.Manager.events manager).

(** The calls that the dispatch of an event makes when nothing stops
    it: the applicable modules, in the order of the loop. *)
Definition expected_calls (manager : Feed.Manager.t) (event : string)
    (s : Feed.t) : list (string * string) :=
  (λ m, (event, Feed.Manager.name m))
    <$> filter (λ m, Feed.applicable m s = true)
               (Feed.sorted_modules manager event s).

(** The call of the module for the event ends at once with an exception
    that is not a [ModuleWarning]: the event has no method name, the
    instance has no such method, or the method raises. *)
Definition faulty_method (manager : Feed.Manager.t) (event : string)
    (m : Feed.Manager.module) : Prop :=
  match Feed.Manager.event_methods manager !! event with
  | None => True
  | Some method =>
      match Feed.Manager.methods (Feed.Manager.instance m) !! method with
      | None => True
      | Some (Feed.PRaise ex) => ∀ log_once, ex ≠ ModuleWarning log_once
      | Some _ => False
      end
  end.

(** A builtin module whose ['abort'] method raises. *)
Definition stuck_manager : Feed.Manager.t :=
  Feed.Manager.mk
    {["oops" := plugin "oops" true [] "feed_abort" (Feed.PRaise OtherException)]}
    (λ event,
       if bool_decide (event = "abort")
       then [plugin "oops" true [] "feed_abort" (Feed.PRaise OtherException)]
       else [])
    ["input"; "filter"; "output"]
    sample_event_methods sample_options true.

(** The number of ['Aborting feed'] records. *)
Definition abort_logs (h : list Feed.obs) : nat :=
  length (filter (λ o, o = Feed.Aborting) h).

Definition logs_abort_once (s s' : Feed.t) : Prop :=
  ∃ h, Feed.history s' = Feed.history s ++ h
       ∧ (Feed.__abort s = true → Feed.__abort s' = true ∧ abort_logs h = O)
       ∧ (abort_logs h ≤ 1)%nat
       ∧ (abort_logs h = 1%nat → Feed.__abort s' = true).

(** [faulty_manager] run with [--validate], and with [--learn]. *)
Definition dry_manager : Feed.Manager.t :=
  Feed.Manager.mk (Feed.Manager.modules faulty_manager)
    (Feed.Manager.get_modules_by_event faulty_manager)
    (Feed.Manager.events faulty_manager)
    sample_event_methods (Feed.Manager.mk_options true false true false) true.

Definition learn_manager : Feed.Manager.t :=
  Feed.Manager.mk (Feed.Manager.modules faulty_manager)
    (Feed.Manager.get_modules_by_event faulty_manager)
    ["input"; "filter"; "download"; "output"]
    sample_event_methods (Feed.Manager.mk_options true false false true) true.

(** An entry without a title. *)
Definition untitled_entry : Entry.t := {["url" := VStr "http://y"]}.

(** The four lists hold no entry twice, and the manager has been told
    of exactly the failed entries. *)
Definition tidy (s : Feed.t) : Prop :=
  NoDup (Feed.accepted s) ∧ NoDup (Feed.filtered s)
  ∧ NoDup (Feed.rejected s) ∧ NoDup (Feed.failed s)
  ∧ Feed.manager_failed s = Feed.failed s.

(** The key whose lookup fails in [safe_str]: the title is looked up
    first. *)
Definition missing_key (entry : Entry.t) : string :=
  if Entry.contains "title" entry then "url" else "title".

(** An entry with a title and no url, and one with neither. *)
Definition no_url_entry : Entry.t := {["title" := VStr "a"]}.
Definition bare_entry : Entry.t := {["size" := VInt 1]}.





(** Two entry objects that differ in their title; both are marked
    filtered, the title of the second is then set to that of the first,
    and the first is accepted. *)
Definition shared_start : Shared.t :=
  Shared.mk
    (list_to_map [(0%nat, Entry.init [VStr "A"; VStr "u"]);
                  (1%nat, Entry.init [VStr "B"; VStr "u"])])
    [] [].

Definition shared_filtered : Shared.t :=
  (Shared.filter 0 (Shared.filter 1 shared_start).2).2.

Definition shared_written : Shared.t :=
  Shared.setitem 1 "title" (VStr "A") shared_filtered.

Definition shared_run : Shared.t := (Shared.accept 0 shared_written).2.

(** What an [abort()] called for a fault leaves: the flag set, and no
    module call but those of the ['abort'] event. *)
Definition after_fault (keyword : string) (s1 s' : Feed.t) : Prop :=
  Feed.__abort s' = true
  ∧ ∃ h, Feed.history s' = Feed.history s1 ++ Feed.Unhandled keyword :: h
         ∧ ∀ event k, Feed.Called event k ∈ h → event = "abort".

(** One given attribute against the entry, as [find_entry] tests it. *)
Definition kwarg_ok (entry : Entry.t) (kv : string * value) : bool :=
  match entry !! kv.1 with
  | Some v => Feed.value_eq v kv.2
  | None => false
  end.

(** A feed with a working set of two entries and one configured input. *)
Definition lookup_feed : Feed.t :=
  Feed.set_entries [untitled_entry; sample_entry]
    (Feed.init "feed"
       (list_to_map
          [("rss", Feed.CDict (Some 3) {["url" := VStr "http://feed"]});
           ("html", Feed.CScalar (VStr "http://page"));
           ("bare", Feed.CDict None ∅)])).

(** * Properties *)

(** ** Entry *)

Section EntryProperties.
Implicit Types (e : Entry.t) (v : value) (ops : list (string * value)).

Lemma contains_true key e : Entry.contains key e = true ↔ is_Some (e !! key).
Proof. unfold Entry.contains. apply bool_decide_eq_true. Qed.

Lemma contains_false key e : Entry.contains key e = false ↔ e !! key = None.
Proof.
  unfold Entry.contains. rewrite bool_decide_eq_false.
  by rewrite eq_None_not_Some.
Qed.

(** An assignment to a key other than ['original_url'] leaves
    ['original_url'] alone, except for the capture by the first ['url']. *)
Lemma setitem_original_url key v e :
  key ≠ "original_url" →
  Entry.setitem key v e !! "original_url" =
    match e !! "original_url" with
    | Some o => Some o
    | None => if bool_decide (key = "url") then Some v else None
    end.
Proof.
  intros Hkey. unfold Entry.setitem.
  rewrite lookup_insert_ne by done.
  case_bool_decide as Hurl.
  - destruct (Entry.contains "original_url" e) eqn:Hc; simpl.
    + apply contains_true in Hc as [o Ho]. by rewrite Ho.
    + apply contains_false in Hc. rewrite Hc. by rewrite lookup_insert_eq.
  - by destruct (e !! "original_url").
Qed.

Lemma assign_original_url ops e :
  Forall (λ kv, kv.1 ≠ "original_url") ops →
  Entry.assign ops e !! "original_url" =
    match e !! "original_url" with
    | Some o => Some o
    | None => Entry.first_url ops
    end.
Proof.
  intros Hops. revert e.
  induction Hops as [|[k v] ops Hk _ IH]; intros e; simpl in *.
  - by destruct (e !! "original_url").
  - unfold Entry.assign in *. simpl. rewrite IH.
    rewrite setitem_original_url by done.
    destruct (e !! "original_url"); [done|].
    by case_bool_decide.
Qed.

Lemma init_assign args :
  Entry.init args =
    match args with
    | [title; url] => Entry.assign [("title", title); ("url", url)] ∅
    | _ => ∅
    end.
Proof. by destruct args as [|? [|? [|? ?]]]. Qed.

(** C4. Whatever sequence of item assignments is applied to a newly
    constructed entry, as long as none of them writes the key
    ['original_url'] itself, ['original_url'] holds the value of the
    first assignment to ['url'] (the one made by the constructor when it
    is given a title and a url), and is absent when there was none: the
    first assignment stores its value there and no later one changes it.
    In particular after ['url'] is set to [v1] and then to [v2] it is
    [v1]. Step by step: an assignment to ['url'] on an entry without
    ['original_url'] stores the value there too, and on an entry with
    ['original_url'] it leaves that field as it is. *)
Theorem original_url_is_first_url args ops e v :
  (Forall (λ kv, kv.1 ≠ "original_url") ops →
   Entry.assign ops (Entry.init args) !! "original_url" =
     match args with
     | [_; url] => Some url
     | _ => Entry.first_url ops
     end)
  ∧ (e !! "original_url" = None →
     Entry.setitem "url" v e !! "original_url" = Some v)
  ∧ (∀ o, e !! "original_url" = Some o →
          Entry.setitem "url" v e !! "original_url" = Some o).
Proof.
  split; [|split].
  - intros Hops. rewrite assign_original_url by done.
    destruct args as [|t [|u [|? ?]]]; try done.
  - intros He. rewrite setitem_original_url by done. by rewrite He.
  - intros o He. rewrite setitem_original_url by done. by rewrite He.
Qed.

Lemma original_url_is_first_url_witness :
  Entry.assign [("title", VStr "a"); ("url", VStr "u1"); ("url", VStr "u2")]
    (Entry.init []) !! "original_url" = Some (VStr "u1")
  ∧ Entry.setitem "url" (VStr "u1") ∅ !! "original_url" = Some (VStr "u1")
  ∧ Entry.setitem "url" (VStr "u2") (Entry.init [VStr "a"; VStr "u1"])
      !! "original_url" = Some (VStr "u1").
Proof.
  destruct (original_url_is_first_url []
              [("title", VStr "a"); ("url", VStr "u1"); ("url", VStr "u2")]
              ∅ (VStr "u1")) as (H1 & H2 & _).
  destruct (original_url_is_first_url [] []
              (Entry.init [VStr "a"; VStr "u1"]) (VStr "u2")) as (_ & _ & H3).
  split; [|split].
  - apply H1. repeat constructor; simpl; discriminate.
  - apply H2. reflexivity.
  - apply H3. reflexivity.
Defined.

Lemma safe_str_ok e title url :
  e !! "title" = Some title → e !! "url" = Some url →
  Entry.safe_str e = Ok (str title +:+ " | " +:+ str url).
Proof. intros Ht Hu. unfold Entry.safe_str, Entry.getitem. by rewrite Ht, Hu. Qed.

Lemma safe_str_well_formed e :
  Entry.well_formed e → ∃ text, Entry.safe_str e = Ok text.
Proof. intros [[t Ht] [u Hu]]. eexists. by apply safe_str_ok. Qed.

(** C8, as the code has it. For an entry with a ['title'], [safe_str]
    returns the text "title | url" when the entry has a ['url'] and
    raises [KeyError('url')] when it has none. *)
Theorem safe_str_needs_url e title :
  e !! "title" = Some title →
  Entry.safe_str e =
    match e !! "url" with
    | Some url => Ok (str title +:+ " | " +:+ str url)
    | None => Raise (KeyError "url")
    end.
Proof.
  intros Ht. unfold Entry.safe_str, Entry.getitem. rewrite Ht.
  by destruct (e !! "url").
Qed.

Lemma safe_str_needs_url_witness :
  Entry.safe_str {["title" := VStr "a"]} = Raise (KeyError "url").
Proof.
  rewrite (safe_str_needs_url {["title" := VStr "a"]} (VStr "a"))
    by reflexivity.
  reflexivity.
Defined.

(** C8, as the specification states it, fails: an entry with a title and
    no url makes [safe_str] raise. *)
Lemma safe_str_without_url_raises :
  ¬ (∀ e, is_Some (e !! "title") → e !! "url" = None →
          ∃ text, Entry.safe_str e = Ok text).
Proof.
  intros H.
  destruct (H {["title" := VStr "a"]}) as [text Htext].
  - exists (VStr "a"). reflexivity.
  - reflexivity.
  - vm_compute in Htext. discriminate.
Qed.

End EntryProperties.

(** ** Purging *)

Section PurgeProperties.
Implicit Types (s : Feed.t) (entry : Entry.t) (l pre : list Entry.t).

Lemma list_remove_first entry pre l :
  entry ∉ pre →
  Feed.list_remove entry (pre ++ entry :: l) = Ok (pre ++ l).
Proof.
  induction pre as [|y pre IH]; intros Hnot; simpl.
  - by rewrite bool_decide_eq_true_2.
  - apply not_elem_of_cons in Hnot as [Hne Hnot].
    rewrite bool_decide_eq_false_2 by done. by rewrite IH.
Qed.

Lemma list_remove_elem entry l :
  entry ∈ l → ∃ l', Feed.list_remove entry l = Ok l' ∧
                    ∀ x, x ∈ l' → x ∈ l.
Proof.
  induction l as [|y l IH]; intros Hin.
  - by apply elem_of_nil in Hin.
  - simpl. case_bool_decide as Hy.
    + eexists. split; [done|]. intros x Hx. by right.
    + apply elem_of_cons in Hin as [->|Hin]; [done|].
      destruct (IH Hin) as (l' & -> & Hsub). eexists. split; [done|].
      intros x [->|Hx]%elem_of_cons; [left|right; auto].
Qed.

Lemma list_remove_NoDup entry l l' :
  NoDup l → Feed.list_remove entry l = Ok l' →
  (entry ∉ l') ∧ NoDup l' ∧ ∀ x, x ∈ l' ↔ (x ∈ l ∧ x ≠ entry).
Proof.
  intros Hnd. revert l'. induction Hnd as [|y l Hy Hnd IH]; intros l' Hrm.
  - discriminate.
  - simpl in Hrm. case_bool_decide as Heq.
    + inversion Hrm; subst. split; [done|]. split; [done|].
      intros x. rewrite elem_of_cons. split.
      * intros Hx. split; [by right|]. by intros ->.
      * by intros [[->|Hx] Hne].
    + destruct (Feed.list_remove entry l) as [r|] eqn:Hr; [|done].
      inversion Hrm; subst. destruct (IH r eq_refl) as (Hn & Hnd' & Hiff).
      split; [|split].
      * rewrite not_elem_of_cons. split; [congruence|done].
      * constructor; [|done]. rewrite Hiff. tauto.
      * intros x. rewrite !elem_of_cons, Hiff. split.
        -- intros [->|[Hx Hne]]; [split; [by left|done]|split; [by right|done]].
        -- intros [[->|Hx] Hne]; [by left|right; done].
Qed.

(** The loop of [__purge], from a point where [pre] has been visited. *)
Lemma purge_loop_spec sel notin count snapshot pre s :
  pass_frame sel → pass_frame notin →
  Feed.entries s = pre ++ snapshot →
  (∀ entry, entry ∈ pre → ¬ purgeable sel notin s entry) →
  (∀ entry, entry ∈ snapshot → purgeable sel notin s entry →
            Entry.well_formed entry) →
  Feed.purge_loop sel notin count snapshot s =
    (Ok tt,
     Feed.set_purged
       (Feed.__purged s +
        if count
        then Z.of_nat (length (filter (purgeable sel notin s) snapshot))
        else 0)
       (Feed.set_entries
          (pre ++ filter (λ entry, ¬ purgeable sel notin s entry) snapshot) s)).
Proof.
  intros Hsel Hnotin. revert pre s.
  induction snapshot as [|entry rest IH]; intros pre s Hentries Hpre Hwf.
  - simpl. rewrite app_nil_r in *. rewrite <- Hentries.
    destruct count; rewrite ?Z.add_0_r; by destruct s.
  - simpl.
    destruct (decide (purgeable sel notin s entry)) as [Hp|Hp].
    + pose proof Hp as [Hin Hout].
      rewrite (bool_decide_eq_true_2 _ Hin), (bool_decide_eq_false_2 _ Hout).
      simpl.
      destruct (safe_str_well_formed entry) as [text Htext].
      { apply Hwf; [by left|done]. }
      unfold Feed.bind at 1, Feed.lift at 1. rewrite Htext.
      unfold Feed.bind at 1, Feed.lift at 1. rewrite Hentries.
      rewrite list_remove_first by (intros Hin'; by apply (Hpre entry)).
      unfold Feed.bind at 1, Feed.modify at 1.
      rewrite filter_cons_True by done.
      rewrite filter_cons_False by (intros Hn; by apply Hn).
      destruct count.
      * unfold Feed.bind at 1, Feed.modify at 1.
        set (s1 := Feed.set_purged _ _).
        assert (Hs1 : ∀ x, purgeable sel notin s1 x ↔ purgeable sel notin s x).
        { intros x. unfold purgeable, s1.
          by rewrite (Hsel s), (Hnotin s). }
        rewrite (IH pre s1); [| done | |].
        -- f_equal. unfold s1. simpl.
           rewrite (list_filter_iff (purgeable sel notin s1)
                      (purgeable sel notin s)) by (intros; apply Hs1).
           rewrite (list_filter_iff (λ x, ¬ purgeable sel notin s1 x)
                      (λ x, ¬ purgeable sel notin s x))
             by (intros; by rewrite Hs1).
           unfold Feed.set_purged, Feed.set_entries; simpl.
           f_equal. lia.
        -- intros x Hx. rewrite Hs1. by apply Hpre.
        -- intros x Hx. rewrite Hs1. apply Hwf. by right.
      * unfold Feed.bind at 1, Feed.ret at 1.
        set (s1 := Feed.set_entries _ _).
        assert (Hs1 : ∀ x, purgeable sel notin s1 x ↔ purgeable sel notin s x).
        { intros x. unfold purgeable, s1.
          pose proof (Hsel s (pre ++ rest) (Feed.__purged s)) as H1.
          pose proof (Hnotin s (pre ++ rest) (Feed.__purged s)) as H2.
          assert (Heta : Feed.set_purged (Feed.__purged s)
                           (Feed.set_entries (pre ++ rest) s)
                         = Feed.set_entries (pre ++ rest) s) by by destruct s.
          rewrite Heta in H1, H2. by rewrite H1, H2. }
        rewrite (IH pre s1); [| done | |].
        -- f_equal. unfold s1. simpl.
           rewrite (list_filter_iff (λ x, ¬ purgeable sel notin s1 x)
                      (λ x, ¬ purgeable sel notin s x))
             by (intros; by rewrite Hs1).
           done.
        -- intros x Hx. rewrite Hs1. by apply Hpre.
        -- intros x Hx. rewrite Hs1. apply Hwf. by right.
    + assert (Hcond : bool_decide (entry ∈ sel s)
                        && negb (bool_decide (entry ∈ notin s)) = false).
      { apply andb_false_iff. unfold purgeable in Hp.
        destruct (decide (entry ∈ sel s)) as [Hin|Hin].
        - right. apply negb_false_iff, bool_decide_eq_true_2.
          destruct (decide (entry ∈ notin s)); [done|]. by destruct Hp.
        - left. by apply bool_decide_eq_false_2. }
      rewrite Hcond.
      rewrite filter_cons_False by done.
      rewrite filter_cons_True by done.
      rewrite (IH (pre ++ [entry]) s).
      * by rewrite <- app_assoc.
      * by rewrite <- app_assoc.
      * intros x [Hx| ->%list_elem_of_singleton]%elem_of_app; [by apply Hpre|done].
      * intros x Hx. apply Hwf. by right.
Qed.

Lemma pass_frame_accepted : pass_frame Feed.accepted.
Proof. by intros ???. Qed.
Lemma pass_frame_filtered : pass_frame Feed.filtered.
Proof. by intros ???. Qed.
Lemma pass_frame_rejected : pass_frame Feed.rejected.
Proof. by intros ???. Qed.
Lemma pass_frame_failed : pass_frame Feed.failed.
Proof. by intros ???. Qed.
Lemma pass_frame_nil : pass_frame (λ _, []).
Proof. by intros ???. Qed.

Lemma purge_spec sel notin count s :
  pass_frame sel → pass_frame notin →
  (∀ entry, entry ∈ Feed.entries s → purgeable sel notin s entry →
            Entry.well_formed entry) →
  Feed.__purge sel notin count s =
    (Ok tt,
     Feed.set_purged
       (Feed.__purged s +
        if count
        then Z.of_nat (length (filter (purgeable sel notin s) (Feed.entries s)))
        else 0)
       (Feed.set_entries
          (filter (λ entry, ¬ purgeable sel notin s entry) (Feed.entries s)) s)).
Proof.
  intros Hsel Hnotin Hwf. unfold Feed.__purge.
  rewrite (purge_loop_spec sel notin count (Feed.entries s) [] s); try done.
  intros entry Hin. by apply elem_of_nil in Hin.
Qed.

(** Whether it ends normally or raises, a pass changes nothing but the
    working set and the counter. *)
Lemma purge_loop_frame sel notin count snapshot s :
  ∃ n l, (Feed.purge_loop sel notin count snapshot s).2
         = Feed.set_purged n (Feed.set_entries l s).
Proof.
  revert s. induction snapshot as [|entry rest IH]; intros s; simpl.
  - exists (Feed.__purged s), (Feed.entries s). by destruct s.
  - destruct (bool_decide (entry ∈ sel s) && negb (bool_decide (entry ∈ notin s)));
      [|apply IH].
    unfold Feed.bind at 1, Feed.lift at 1.
    destruct (Entry.safe_str entry).
    2:{ exists (Feed.__purged s), (Feed.entries s). by destruct s. }
    unfold Feed.bind at 1, Feed.lift at 1.
    destruct (Feed.list_remove entry (Feed.entries s)) as [l|].
    2:{ exists (Feed.__purged s), (Feed.entries s). by destruct s. }
    unfold Feed.bind at 1, Feed.modify at 1.
    destruct count.
    + unfold Feed.bind at 1, Feed.modify at 1.
      destruct (IH (Feed.set_purged (Feed.__purged (Feed.set_entries l s) + 1)
                      (Feed.set_entries l s))) as (n & l' & ->).
      by exists n, l'.
    + unfold Feed.bind at 1, Feed.ret at 1.
      destruct (IH (Feed.set_entries l s)) as (n & l' & ->).
      by exists n, l'.
Qed.

Lemma purge_frame sel notin count s :
  ∃ n l, (Feed.__purge sel notin count s).2
         = Feed.set_purged n (Feed.set_entries l s).
Proof. apply purge_loop_frame. Qed.




End PurgeProperties.

Lemma sample_entry_well_formed : Entry.well_formed sample_entry.
Proof. split; eexists; reflexivity. Qed.




(** ** Classification *)

Section ClassificationProperties.
Implicit Types (s : Feed.t) (entry : Entry.t) (cs : list classification).

Lemma title_message_state entry s : (Feed.title_message entry s).2 = s.
Proof.
  unfold Feed.title_message, Feed.bind, Feed.lift, Feed.ret.
  by destruct (Entry.getitem entry "title").
Qed.

Lemma accept_state entry s :
  (Feed.accept entry s).2 =
    if bool_decide (entry ∈ Feed.accepted s) then s
    else
      let s1 := Feed.set_accepted (Feed.accepted s ++ [entry]) s in
      if bool_decide (entry ∈ Feed.filtered s) then
        match Feed.list_remove entry (Feed.filtered s) with
        | Ok l => Feed.set_filtered l s1
        | Raise _ => s1
        end
      else s1.
Proof.
  unfold Feed.accept. case_bool_decide; simpl; [done|].
  unfold Feed.bind at 1, Feed.modify at 1. simpl.
  case_bool_decide; simpl.
  - unfold Feed.bind at 1, Feed.lift at 1. simpl.
    destruct (Feed.list_remove entry (Feed.filtered s)); [|done].
    unfold Feed.bind at 1, Feed.modify at 1.
    by rewrite title_message_state.
  - by rewrite title_message_state.
Qed.

Lemma filter_state entry s :
  (Feed.filter entry s).2 =
    if bool_decide (entry ∈ Feed.filtered s)
       || bool_decide (entry ∈ Feed.accepted s)
    then s
    else Feed.set_filtered (Feed.filtered s ++ [entry]) s.
Proof.
  unfold Feed.filter.
  destruct (bool_decide (entry ∈ Feed.filtered s)),
           (bool_decide (entry ∈ Feed.accepted s)); simpl; try done.
  unfold Feed.bind at 1, Feed.modify at 1.
  by rewrite title_message_state.
Qed.

Lemma filter_noop entry s :
  entry ∈ Feed.accepted s ∨ entry ∈ Feed.filtered s →
  Feed.filter entry s = (Ok tt, s).
Proof.
  intros H. unfold Feed.filter.
  destruct (decide (entry ∈ Feed.filtered s)) as [Hf|Hf].
  - by rewrite (bool_decide_eq_true_2 _ Hf).
  - destruct H as [Ha|?]; [|done].
    rewrite (bool_decide_eq_true_2 _ Ha). simpl. by rewrite andb_false_r.
Qed.

Lemma reject_state entry s :
  (Feed.reject entry s).2 =
    if bool_decide (entry ∈ Feed.rejected s) then s
    else Feed.set_rejected (Feed.rejected s ++ [entry]) s.
Proof.
  unfold Feed.reject. case_bool_decide; simpl; [done|].
  unfold Feed.bind at 1, Feed.modify at 1.
  by rewrite title_message_state.
Qed.

Lemma fail_state entry s :
  (Feed.fail entry s).2 =
    if bool_decide (entry ∈ Feed.failed s) then s
    else if is_ok (Entry.getitem entry "title") then
      Feed.set_manager_failed (Feed.manager_failed s ++ [entry])
        (Feed.set_failed (Feed.failed s ++ [entry]) s)
    else s.
Proof.
  unfold Feed.fail, Feed.bind at 1.
  destruct (Feed.title_message entry s) as [r s0] eqn:Ht.
  pose proof (title_message_state entry s) as Hs. rewrite Ht in Hs.
  simpl in Hs. subst s0.
  unfold Feed.title_message, Feed.bind, Feed.lift, Feed.ret in Ht.
  destruct (Entry.getitem entry "title") eqn:Hg; simpl;
    inversion Ht; subst; clear Ht.
  - case_bool_decide; simpl; [done|].
    unfold Feed.bind at 1, Feed.modify at 1.
    unfold Feed.bind at 1, Feed.modify at 1.
    by rewrite title_message_state.
  - by case_bool_decide.
Qed.

(** What the classification calls and the passes leave alone. *)
Lemma classify_same_control c s : same_control s (classify c s).2.
Proof.
  destruct c as [entry|entry|entry|entry]; simpl.
  - rewrite accept_state. case_bool_decide; [done|]. simpl.
    case_bool_decide; [|done].
    by destruct (Feed.list_remove entry (Feed.filtered s)).
  - rewrite filter_state.
    by destruct (bool_decide _ || bool_decide _).
  - rewrite reject_state. by case_bool_decide.
  - rewrite fail_state. case_bool_decide; [done|].
    by destruct (is_ok _).
Qed.

(** The invariant that the classification calls keep: exclusivity,
    together with the absence of repetitions in [filtered] that makes
    the single [remove] of [accept] enough. *)
Lemma classify_invariant c s :
  exclusive s ∧ NoDup (Feed.filtered s) →
  exclusive (classify c s).2 ∧ NoDup (Feed.filtered (classify c s).2).
Proof.
  intros [Hex Hnd].
  destruct c as [entry|entry|entry|entry]; simpl.
  - rewrite accept_state. case_bool_decide as Hacc; [done|]. simpl.
    case_bool_decide as Hfil.
    + destruct (list_remove_elem entry _ Hfil) as (l & Hl & _).
      rewrite Hl.
      destruct (list_remove_NoDup _ _ _ Hnd Hl) as (Hnot & Hnd' & Hiff).
      split; [|done]. intros x [Hx1 Hx2]. simpl in *.
      apply Hiff in Hx2 as [Hx2 Hne].
      apply elem_of_app in Hx1 as [Hx1|Hx1%list_elem_of_singleton]; [|done].
      by apply (Hex x).
    + split; [|done]. intros x [Hx1 Hx2]. simpl in *.
      apply elem_of_app in Hx1 as [Hx1|Hx1%list_elem_of_singleton].
      * by apply (Hex x).
      * by subst.
  - rewrite filter_state.
    destruct (decide (entry ∈ Feed.filtered s)) as [Hf|Hf].
    { by rewrite (bool_decide_eq_true_2 _ Hf). }
    rewrite (bool_decide_eq_false_2 _ Hf). simpl.
    case_bool_decide as Ha; [done|]. simpl. split.
    + intros x [Hx1 Hx2]. simpl in *.
      apply elem_of_app in Hx2 as [Hx2|Hx2%list_elem_of_singleton].
      * by apply (Hex x).
      * by subst.
    + apply NoDup_app. split; [done|]. split; [|apply NoDup_singleton].
      intros x Hx ->%list_elem_of_singleton. done.
  - rewrite reject_state. by case_bool_decide.
  - rewrite fail_state. case_bool_decide; [done|]. by destruct (is_ok _).
Qed.

Lemma classify_all_invariant cs s :
  exclusive s ∧ NoDup (Feed.filtered s) →
  exclusive (classify_all cs s) ∧ NoDup (Feed.filtered (classify_all cs s)).
Proof.
  revert s. induction cs as [|c cs IH]; intros s Hinv; [done|].
  simpl. apply IH. by apply classify_invariant.
Qed.

Lemma init_invariant name config :
  exclusive (Feed.init name config)
  ∧ NoDup (Feed.filtered (Feed.init name config)).
Proof.
  split; [|constructor]. intros x [Hx _]. simpl in Hx.
  by apply elem_of_nil in Hx.
Qed.

(** C6, as the code has it. In every state that a feed reaches from its
    construction by classification calls alone (no listed entry is
    written to in between, so that the entries are what they were when
    they were listed), no entry is in both [accepted] and [filtered].
    In such a state [accept(entry)] leaves the entry accepted and not
    filtered, and [filter(entry)] on an entry that is accepted, or that
    is filtered, changes nothing. *)
Theorem accepted_filtered_exclusive name config cs entry :
  let s := classify_all cs (Feed.init name config) in
  exclusive s
  ∧ (entry ∈ Feed.accepted (Feed.accept entry s).2
     ∧ (entry ∉ Feed.filtered (Feed.accept entry s).2))
  ∧ Feed.filter entry (Feed.accept entry s).2
    = (Ok tt, (Feed.accept entry s).2)
  ∧ Feed.filter entry (Feed.filter entry s).2
    = (Ok tt, (Feed.filter entry s).2)
  ∧ exclusive (Feed.accept entry s).2
  ∧ exclusive (Feed.filter entry s).2
  ∧ exclusive (Feed.reject entry s).2
  ∧ exclusive (Feed.fail entry s).2.
Proof.
  intros s.
  pose proof (classify_all_invariant cs _ (init_invariant name config))
    as Hinv. fold s in Hinv.
  assert (Hacc : entry ∈ Feed.accepted (Feed.accept entry s).2).
  { rewrite accept_state. case_bool_decide as Ha; [done|]. simpl.
    case_bool_decide.
    - destruct (Feed.list_remove entry (Feed.filtered s)); simpl;
        apply elem_of_app; right; by left.
    - simpl. apply elem_of_app; right; by left. }
  pose proof (classify_invariant (Accepting entry) s Hinv) as [Hex1 _].
  pose proof (classify_invariant (Filtering entry) s Hinv) as [Hex2 _].
  pose proof (classify_invariant (Rejecting entry) s Hinv) as [Hex3 _].
  pose proof (classify_invariant (Failing entry) s Hinv) as [Hex4 _].
  simpl in *.
  split; [apply Hinv|]. split; [split; [done|]|].
  { intros Hf. by apply (Hex1 entry). }
  split; [by apply filter_noop; left|].
  split; [|done].
  apply filter_noop. rewrite filter_state.
  destruct (decide (entry ∈ Feed.filtered s)) as [Hf|Hf].
  { rewrite (bool_decide_eq_true_2 _ Hf). by right. }
  rewrite (bool_decide_eq_false_2 _ Hf). simpl.
  case_bool_decide; [by left|]. right. simpl.
  apply elem_of_app; right; by left.
Qed.


End ClassificationProperties.



(** *** Listed entries as objects *)

Section SharedEntries.
Implicit Types (s : Shared.t) (h : gmap nat Entry.t) (r : nat) (l : list nat).

Lemma shared_contains h l r :
  Shared.contains h l r
  = bool_decide (Shared.deref h r ∈ Shared.deref h <$> l).
Proof.
  unfold Shared.contains. apply bool_decide_ext.
  rewrite Exists_exists, list_elem_of_fmap. unfold Shared.same.
  split.
  - intros (x & Hx & Hs). exists x. split; [|done]. by destruct Hs as [->|?].
  - intros (x & Heq & Hx). exists x. split; [done|]. by right.
Qed.

Lemma shared_remove h r l :
  match Shared.remove h r l with
  | Ok k =>
      Feed.list_remove (Shared.deref h r) (Shared.deref h <$> l)
      = Ok (Shared.deref h <$> k)
  | Raise ex =>
      Feed.list_remove (Shared.deref h r) (Shared.deref h <$> l) = Raise ex
  end.
Proof.
  induction l as [|x l IH]; [done|].
  rewrite fmap_cons. cbn [Shared.remove Feed.list_remove].
  assert (bool_decide (Shared.same h x r)
          = bool_decide (Shared.deref h x = Shared.deref h r)) as ->.
  { apply bool_decide_ext. unfold Shared.same. split; [|by right].
    by intros [->|?]. }
  case_bool_decide; [done|].
  destruct (Shared.remove h r l) as [k|ex]; by rewrite IH.
Qed.

(** As long as the heap is not written to, [accept] and [filter] on the
    objects are [accept] and [filter] on their contents. *)
Lemma shared_classification_by_value s r :
  (Shared.heap (Shared.accept r s).2 = Shared.heap s
   ∧ Shared.by_value (Shared.accept r s).2
     = (Feed.accept (Shared.deref (Shared.heap s) r) (Shared.by_value s)).2)
  ∧ (Shared.heap (Shared.filter r s).2 = Shared.heap s
     ∧ Shared.by_value (Shared.filter r s).2
       = (Feed.filter (Shared.deref (Shared.heap s) r) (Shared.by_value s)).2).
Proof.
  split.
  - rewrite accept_state. unfold Shared.accept. rewrite !shared_contains.
    change (Feed.accepted (Shared.by_value s))
      with (Shared.deref (Shared.heap s) <$> Shared.accepted s).
    change (Feed.filtered (Shared.by_value s))
      with (Shared.deref (Shared.heap s) <$> Shared.filtered s).
    case_bool_decide as Ha; [done|]. cbn [negb].
    case_bool_decide as Hf.
    + pose proof (shared_remove (Shared.heap s) r (Shared.filtered s)) as Hrm.
      destruct (Shared.remove (Shared.heap s) r (Shared.filtered s))
        as [k|ex]; rewrite Hrm; (split; [done|]);
        unfold Shared.by_value; simpl; by rewrite fmap_app.
    + split; [done|]. unfold Shared.by_value. simpl. by rewrite fmap_app.
  - rewrite filter_state. unfold Shared.filter. rewrite !shared_contains.
    change (Feed.accepted (Shared.by_value s))
      with (Shared.deref (Shared.heap s) <$> Shared.accepted s).
    change (Feed.filtered (Shared.by_value s))
      with (Shared.deref (Shared.heap s) <$> Shared.filtered s).
    destruct (bool_decide (_ ∈ _ <$> Shared.filtered s)),
             (bool_decide (_ ∈ _ <$> Shared.accepted s)); simpl; try done.
    split; [done|]. unfold Shared.by_value. simpl. by rewrite fmap_app.
Qed.

End SharedEntries.

(** C6, as the specification states it, fails: the lists hold the entry
    objects themselves, and [accept] takes one element out of
    [filtered], the first that equals the entry. Two objects are marked
    filtered, the second one first; plugin code then sets the title of
    the second to that of the first, and the first is accepted: [accept]
    removes the second object from [filtered], and the first is in both
    lists. *)
Lemma write_breaks_exclusivity :
  Shared.accepted shared_written = []
  ∧ Shared.filtered shared_written = [1%nat; 0%nat]
  ∧ Shared.deref (Shared.heap shared_filtered) 1
    ≠ Shared.deref (Shared.heap shared_filtered) 0
  ∧ Shared.deref (Shared.heap shared_written) 1
    = Shared.deref (Shared.heap shared_written) 0
  ∧ Shared.accept 0 shared_written = (Ok tt, shared_run)
  ∧ Shared.accepted shared_run = [0%nat]
  ∧ Shared.filtered shared_run = [0%nat]
  ∧ ∃ r, r ∈ Shared.accepted shared_run ∧ r ∈ Shared.filtered shared_run.
Proof.
  split; [vm_compute; reflexivity|]. split; [vm_compute; reflexivity|].
  split; [vm_compute; discriminate|]. split; [vm_compute; reflexivity|].
  split; [vm_compute; reflexivity|].
  split; [vm_compute; reflexivity|]. split; [vm_compute; reflexivity|].
  exists 0%nat. split; vm_compute; left.
Qed.

(** ** The order of dispatch *)

Section SortProperties.
Context {A : Type} (key : A → Z).
Implicit Types (x y : A) (l : list A).

Let cmpfunc (x y : A) : comparison := Feed.cmp (key x) (key y).
Let le (x y : A) : Prop := key x ≤ key y.

Lemma sort_insert_Permutation x l : Feed.sort_insert cmpfunc x l ≡ₚ x :: l.
Proof.
  induction l as [|y l IH]; simpl; [done|].
  destruct (cmpfunc x y); try done.
  rewrite IH. apply Permutation_swap.
Qed.

Lemma list_sort_Permutation l : Feed.list_sort cmpfunc l ≡ₚ l.
Proof.
  induction l as [|x l IH]; simpl; [done|].
  by rewrite sort_insert_Permutation, IH.
Qed.

Lemma sort_insert_sorted x l :
  StronglySorted le l → StronglySorted le (Feed.sort_insert cmpfunc x l).
Proof.
  induction 1 as [|y l Hl IH Hy]; simpl.
  - repeat constructor.
  - unfold cmpfunc at 1, Feed.cmp.
    destruct (Z.compare_spec (key x) (key y)) as [Heq|Hlt|Hgt].
    + constructor; [by constructor|].
      constructor; [unfold le; lia|].
      eapply Forall_impl; [exact Hy|]. unfold le. intros; lia.
    + constructor; [by constructor|].
      constructor; [unfold le; lia|].
      eapply Forall_impl; [exact Hy|]. unfold le. intros; lia.
    + constructor; [done|].
      rewrite sort_insert_Permutation. constructor; [unfold le; lia|done].
Qed.

Lemma list_sort_sorted l : StronglySorted le (Feed.list_sort cmpfunc l).
Proof.
  induction l as [|x l IH]; simpl; [constructor|].
  by apply sort_insert_sorted.
Qed.

(** Insertion passes only elements with a strictly smaller key: the
    elements of one key keep their order. *)
Lemma sort_insert_stable p x l :
  filter (λ y, key y = p) (Feed.sort_insert cmpfunc x l)
  = filter (λ y, key y = p) (x :: l).
Proof.
  induction l as [|y l IH]; simpl; [done|].
  unfold cmpfunc at 1, Feed.cmp.
  destruct (Z.compare_spec (key x) (key y)) as [Heq|Hlt|Hgt]; try done.
  rewrite (filter_cons _ y), IH, !(filter_cons _ x), !(filter_cons _ y).
  repeat case_decide; try done; lia.
Qed.

Lemma list_sort_stable p l :
  filter (λ y, key y = p) (Feed.list_sort cmpfunc l)
  = filter (λ y, key y = p) l.
Proof.
  induction l as [|x l IH]; simpl; [done|].
  by rewrite sort_insert_stable, !(filter_cons _ x), IH.
Qed.

(** Two ascending lists in which the elements of every key come in the
    same order are equal: the result of a stable sort is determined. *)
Lemma stable_sort_unique l1 l2 :
  StronglySorted le l1 → StronglySorted le l2 →
  (∀ p, filter (λ y, key y = p) l1 = filter (λ y, key y = p) l2) →
  l1 = l2.
Proof.
  intros H1. revert l2.
  induction H1 as [|x l1 Hs1 IH Hx]; intros l2 H2 Hf.
  - destruct l2 as [|y l2]; [done|].
    specialize (Hf (key y)). rewrite filter_cons_True in Hf by done.
    done.
  - destruct H2 as [|y l2 Hs2 Hy].
    { specialize (Hf (key x)). rewrite filter_cons_True in Hf by done.
      done. }
    assert (Hxy : key x = key y).
    { assert (x ∈ y :: l2) as Hin1.
      { pose proof (Hf (key x)) as Hfx.
        rewrite filter_cons_True in Hfx by done.
        assert (x ∈ filter (λ z, key z = key x) (y :: l2)) as Hin
          by (rewrite <- Hfx; by left).
        by apply list_elem_of_filter in Hin as [_ ?]. }
      assert (y ∈ x :: l1) as Hin2.
      { pose proof (Hf (key y)) as Hfy.
        rewrite (filter_cons_True _ y) in Hfy by done.
        assert (y ∈ filter (λ z, key z = key y) (x :: l1)) as Hin
          by (rewrite Hfy; by left).
        by apply list_elem_of_filter in Hin as [_ ?]. }
      rewrite Forall_forall in Hx, Hy. unfold le in *.
      apply elem_of_cons in Hin1 as [->|Hin1]; [done|].
      apply elem_of_cons in Hin2 as [->|Hin2]; [done|].
      specialize (Hx _ Hin2). specialize (Hy _ Hin1). lia. }
    pose proof (Hf (key x)) as Hfx.
    rewrite filter_cons_True in Hfx by done.
    rewrite filter_cons_True in Hfx by done.
    inversion Hfx as [[Heq Htl]]. subst y. f_equal.
    apply IH; [done|]. intros p. specialize (Hf p).
    rewrite !(filter_cons _ x) in Hf. case_decide; [|done].
    by inversion Hf.
Qed.

Lemma reverse_descending l :
  StronglySorted le l → StronglySorted (λ x y, key y ≤ key x) (reverse l).
Proof.
  induction 1 as [|x l Hl IH Hx]; [constructor|].
  rewrite reverse_cons. apply StronglySorted_app.
  split; [|split; [done|repeat constructor]].
  intros a b Ha ->%list_elem_of_singleton.
  rewrite elem_of_reverse in Ha. rewrite Forall_forall in Hx.
  specialize (Hx _ Ha). unfold le in Hx. lia.
Qed.

End SortProperties.

Section DispatchOrder.
Variable manager : Feed.Manager.t.
Implicit Types (s : Feed.t) (event : string) (m : Feed.Manager.module).

Lemma get_priority_effective m event s :
  Feed.__get_priority m event s = effective_priority m event s.
Proof.
  unfold Feed.__get_priority, effective_priority.
  destruct (Feed.config s !! Feed.Manager.name m) as [[v|[p|] fields]|];
    destruct (Feed.Manager.priorities m) as [declared|]; simpl;
    try done; try by destruct (declared !! event).
Qed.

Lemma sorted_modules_eq event s :
  Feed.sorted_modules manager event s
  = reverse (Feed.list_sort
               (λ x y, Feed.cmp (Feed.__get_priority x event s)
                                (Feed.__get_priority y event s))
               (Feed.Manager.get_modules_by_event manager event)).
Proof. reflexivity. Qed.

Lemma sorted_modules_Permutation event s :
  Feed.sorted_modules manager event s
  ≡ₚ Feed.Manager.get_modules_by_event manager event.
Proof.
  rewrite sorted_modules_eq, reverse_Permutation.
  apply (list_sort_Permutation (λ m, Feed.__get_priority m event s)).
Qed.

(** C1, as the code has it. The loop of [__run_event] visits the modules
    of the event in descending order of effective priority (the
    ['priority'] of the configured mapping, else the default declared for
    the event, else 0); the visited list is a rearrangement of the
    registry's list, and the modules of one priority come in the reverse
    of their order in the registry's list. *)
Theorem dispatch_order_descending event s :
  let order := Feed.sorted_modules manager event s in
  let registry := Feed.Manager.get_modules_by_event manager event in
  let priority m := Feed.__get_priority m event s in
  (∀ m, priority m = effective_priority m event s)
  ∧ order ≡ₚ registry
  ∧ StronglySorted (λ a b, priority b ≤ priority a) order
  ∧ ∀ p, filter (λ m, priority m = p) order
         = reverse (filter (λ m, priority m = p) registry).
Proof.
  intros order registry priority. subst order.
  rewrite sorted_modules_eq. fold registry.
  split; [intros m; apply get_priority_effective|].
  split; [|split].
  - rewrite <- sorted_modules_eq. apply sorted_modules_Permutation.
  - apply (reverse_descending priority), (list_sort_sorted priority).
  - intros p. rewrite filter_reverse. f_equal.
    apply (list_sort_stable priority).
Qed.

End DispatchOrder.

(** C1, as the specification states it, fails on its own example: with A
    (priority 5), B (priority 10) and C (priority 5) registered in this
    order, the modules are visited, and called, in the order B, C, A. *)
Lemma dispatch_order_abc :
  let s := Feed.init "feed" ∅ in
  Feed.Manager.name <$> Feed.sorted_modules abc_manager "filter" s
    = ["B"; "C"; "A"]
  ∧ Feed.Manager.name <$> Feed.sorted_modules abc_manager "filter" s
    ≠ ["B"; "A"; "C"]
  ∧ (λ r, calls (Feed.history r.2)) <$> Feed.__run_event abc_manager 1 "filter" s
    = Some [("filter", "B"); ("filter", "C"); ("filter", "A")].
Proof. vm_compute. split; [done|]. split; [discriminate|done]. Qed.

(** ** Dispatch: a rely principle

    A relation between the state before and the state after that holds
    for every elementary step of a dispatch holds for the dispatch, with
    its re-entrant calls of [abort()]. *)

Section Monad.
Context {A B : Type}.
Implicit Types (s : Feed.t).

Lemma fbind_Some (m : Feed.fop A) (k : A → Feed.fop B) s r s' :
  Feed.fbind m k s = Some (r, s') →
  (∃ a s1, m s = Some (Ok a, s1) ∧ k a s1 = Some (r, s'))
  ∨ (∃ ex, m s = Some (Raise ex, s') ∧ r = Raise ex).
Proof.
  unfold Feed.fbind. destruct (m s) as [[[a|ex] s1]|]; intros H.
  - left. eauto.
  - right. inversion H; subst. eauto.
  - done.
Qed.

Lemma total_Some (m : Feed.op A) s r s' :
  Feed.total m s = Some (r, s') → m s = (r, s').
Proof. unfold Feed.total. by inversion 1. Qed.

Lemma try_except_Some (m : Feed.fop A) (h : exn → Feed.fop A) s r s' :
  Feed.try_except m h s = Some (r, s') →
  (∃ a, m s = Some (Ok a, s') ∧ r = Ok a)
  ∨ (∃ ex s1, m s = Some (Raise ex, s1) ∧ h ex s1 = Some (r, s')).
Proof.
  unfold Feed.try_except. destruct (m s) as [[[a|ex] s1]|]; intros H.
  - left. inversion H; subst. eauto.
  - right. eauto.
  - done.
Qed.

End Monad.

Section Rely.
Variable manager : Feed.Manager.t.
Variable R : Feed.t → Feed.t → Prop.
Variable allowed : Feed.action → Prop.
Variable okcall : string → Feed.Manager.module → bool → Prop.

Hypothesis R_refl : ∀ s, R s s.
Hypothesis R_trans : ∀ s1 s2 s3, R s1 s2 → R s2 s3 → R s1 s3.
Hypothesis R_classify : ∀ c s, R s (classify c s).2.
Hypothesis R_produce :
  ∀ entry s, R s (Feed.set_entries (Feed.entries s ++ [entry]) s).
Hypothesis R_purge : allowed Feed.APurge → ∀ s, R s (Feed._purge s).2.
Hypothesis R_purge_rejected : ∀ s, R s (Feed.__purge_rejected s).2.
Hypothesis R_purge_failed : ∀ s, R s (Feed.__purge_failed s).2.
Hypothesis R_current : ∀ event keyword s, R s (Feed.set_current event keyword s).
Hypothesis R_called :
  ∀ event module s,
    okcall event module (Feed.__abort s) →
    R s (Feed.record (Feed.Called event (Feed.Manager.name module)) s).
Hypothesis R_unhandled :
  ∀ keyword s s',
    R (Feed.abort_enter false (Feed.record (Feed.Unhandled keyword) s)) s' →
    R s s'.
Hypothesis R_abort : ∀ silent s s', R (Feed.abort_enter silent s) s' → R s s'.

Variable run : string → Feed.fop unit.
Hypothesis run_R :
  ∀ s r s', Feed.__abort s = true → run "abort" s = Some (r, s') → R s s'.

Let hook := Feed.abort_with run.

Lemma abort_enter_flag silent s : Feed.__abort (Feed.abort_enter silent s) = true.
Proof. reflexivity. Qed.

Lemma hook_R silent s r s' : hook silent s = Some (r, s') → R s s'.
Proof.
  unfold hook, Feed.abort_with. intros H.
  eapply R_abort, run_R; [|exact H]. apply abort_enter_flag.
Qed.

Lemma do_action_R a s r s' :
  allowed a → Feed.do_action hook a s = Some (r, s') → R s s'.
Proof.
  intros Ha H. destruct a as [e|e|e|e|silent| |e]; simpl in H.
  - apply total_Some in H.
    replace s' with (classify (Accepting e) s).2 by (simpl; by rewrite H). done.
  - apply total_Some in H.
    replace s' with (classify (Filtering e) s).2 by (simpl; by rewrite H). done.
  - apply total_Some in H.
    replace s' with (classify (Rejecting e) s).2 by (simpl; by rewrite H). done.
  - apply total_Some in H.
    replace s' with (classify (Failing e) s).2 by (simpl; by rewrite H). done.
  - by eapply hook_R.
  - apply total_Some in H.
    replace s' with (Feed._purge s).2 by (by rewrite H). by apply R_purge.
  - apply total_Some in H. unfold Feed.modify in H. inversion H; subst.
    apply R_produce.
Qed.

Lemma call_R p s r s' :
  prog_allowed allowed p → Feed.call hook p s = Some (r, s') → R s s'.
Proof.
  intros Hp. revert s. induction Hp as [|ex|a k Ha Hk IH]; intros s H; simpl in H.
  - apply total_Some in H. inversion H; subst. done.
  - apply total_Some in H. inversion H; subst. done.
  - destruct (Feed.do_action hook a s) as [[r1 s1]|] eqn:Hact; [|done].
    eapply R_trans; [by eapply do_action_R|]. by eapply IH.
Qed.

Lemma invoke_R module event s r s' :
  okcall event module (Feed.__abort s) → module_allowed allowed module →
  Feed.invoke manager hook module event s = Some (r, s') → R s s'.
Proof.
  intros Hok Hm H. unfold Feed.invoke in H.
  destruct (Feed.Manager.event_methods manager !! event) as [method|].
  2:{ apply total_Some in H. inversion H; subst. done. }
  destruct (Feed.Manager.methods (Feed.Manager.instance module) !! method)
    as [p|] eqn:Hmeth.
  2:{ apply total_Some in H. inversion H; subst. done. }
  apply fbind_Some in H as [(a & s1 & H1 & H2)|(ex & H1 & _)].
  - apply total_Some in H1. inversion H1; subst.
    eapply R_trans; [by apply R_called|]. eapply call_R; [|exact H2].
    by eapply Hm.
  - apply total_Some in H1. inversion H1.
Qed.

Lemma handler_R keyword ex s r s' :
  Feed.handler hook keyword ex s = Some (r, s') → R s s'.
Proof.
  intros H.
  assert (Hfault :
    Feed.fbind (Feed.total (Feed.modify (Feed.record (Feed.Unhandled keyword))))
               (λ _, hook false) s = Some (r, s') → R s s').
  { clear H. intros H.
    apply fbind_Some in H as [(a & s1 & H1 & H2)|(ex' & H1 & _)].
    - apply total_Some in H1. inversion H1; subst.
      eapply R_unhandled, run_R; [|exact H2]. apply abort_enter_flag.
    - apply total_Some in H1. inversion H1. }
  destruct ex; simpl in H; try by apply Hfault.
  apply total_Some in H. inversion H; subst. done.
Qed.

Lemma dispatch_R event modules s r s' :
  (∀ m, m ∈ modules → okcall event m (Feed.__abort s)) →
  (∀ m, m ∈ modules → okcall event m false) →
  (∀ m, m ∈ modules → module_allowed allowed m) →
  Feed.dispatch manager hook event modules s = Some (r, s') → R s s'.
Proof.
  revert s. induction modules as [|m rest IH]; intros s Hok1 Hok2 Hall H.
  { simpl in H. apply total_Some in H. inversion H; subst. done. }
  simpl in H. destruct (Feed.applicable m s).
  2:{ eapply IH; [| | |exact H].
      - intros m' Hm'. apply Hok1. by right.
      - intros m' Hm'. apply Hok2. by right.
      - intros m' Hm'. apply Hall. by right. }
  apply fbind_Some in H as [(a & s1 & H1 & H)|(ex & H1 & _)].
  2:{ apply total_Some in H1. inversion H1. }
  apply total_Some in H1. inversion H1; subst. clear H1.
  eapply R_trans; [apply R_current|].
  apply fbind_Some in H as [(a & s2 & H1 & H)|(ex & H1 & _)].
  2:{ apply try_except_Some in H1 as [(a & H1 & ?)|(ex' & s1 & H1 & H2)];
        [done|].
      eapply R_trans; [|by eapply handler_R].
      eapply invoke_R; [| |exact H1].
      - apply Hok1. by left.
      - apply Hall. by left. }
  assert (R (Feed.set_current event (Feed.Manager.name m) s) s2) as Hs2.
  { apply try_except_Some in H1 as [(a' & H1 & ?)|(ex' & s1 & H1 & H2)].
    - eapply invoke_R; [| |exact H1]; [apply Hok1|apply Hall]; by left.
    - eapply R_trans; [|by eapply handler_R].
      eapply invoke_R; [| |exact H1]; [apply Hok1|apply Hall]; by left. }
  eapply R_trans; [exact Hs2|]. clear Hs2 H1.
  apply fbind_Some in H as [(a' & s3 & H1 & H)|(ex & H1 & _)].
  2:{ apply total_Some in H1.
      replace s' with (Feed.__purge_rejected s2).2 by (by rewrite H1).
      apply R_purge_rejected. }
  apply total_Some in H1.
  apply (R_trans _ s3).
  { replace s3 with (Feed.__purge_rejected s2).2 by (by rewrite H1).
    apply R_purge_rejected. }
  clear H1.
  apply fbind_Some in H as [(a'' & s4 & H1 & H)|(ex & H1 & _)].
  2:{ apply total_Some in H1.
      replace s' with (Feed.__purge_failed s3).2 by (by rewrite H1).
      apply R_purge_failed. }
  apply total_Some in H1.
  apply (R_trans _ s4).
  { replace s4 with (Feed.__purge_failed s3).2 by (by rewrite H1).
    apply R_purge_failed. }
  clear H1.
  destruct (Feed.__abort s4) eqn:Hflag.
  - apply total_Some in H. inversion H; subst. done.
  - eapply IH; [| | |exact H].
    + rewrite Hflag. intros m' Hm'. apply Hok2. by right.
    + intros m' Hm'. apply Hok2. by right.
    + intros m' Hm'. apply Hall. by right.
Qed.

End Rely.

(** ** Abort, faults and the end of a run *)

Section Control.
Variable manager : Feed.Manager.t.
Implicit Types (s : Feed.t) (event : string).

Lemma purge_rejected_frame s :
  ∃ n l, (Feed.__purge_rejected s).2
         = Feed.set_purged n
             (Feed.set_entries l (Feed.record (Feed.Purged Feed.Rejected) s)).
Proof.
  unfold Feed.__purge_rejected, Feed.bind, Feed.modify. apply purge_frame.
Qed.

Lemma purge_failed_frame s :
  ∃ n l, (Feed.__purge_failed s).2
         = Feed.set_purged n
             (Feed.set_entries l (Feed.record (Feed.Purged Feed.Failed) s)).
Proof.
  unfold Feed.__purge_failed, Feed.bind, Feed.modify. apply purge_frame.
Qed.

Lemma purge_filtered_frame s :
  ∃ n l, (Feed._purge s).2
         = Feed.set_purged n
             (Feed.set_entries l (Feed.record (Feed.Purged Feed.Filtered) s)).
Proof. unfold Feed._purge, Feed.bind, Feed.modify. apply purge_frame. Qed.

Lemma prog_allowed_any p : prog_allowed (λ _, True) p.
Proof. induction p; by constructor. Qed.

Lemma advances_refl s : advances s s.
Proof.
  split; [done|]. split; [done|]. exists []. rewrite app_nil_r.
  split; [done|]. intros [k Hk]. by apply elem_of_nil in Hk.
Qed.

Lemma advances_trans s1 s2 s3 : advances s1 s2 → advances s2 s3 → advances s1 s3.
Proof.
  intros (Hc1 & Ha1 & h1 & Hh1 & Hf1) (Hc2 & Ha2 & h2 & Hh2 & Hf2).
  split; [congruence|]. split; [auto|].
  exists (h1 ++ h2). split; [by rewrite Hh2, Hh1, app_assoc|].
  intros [k [Hk|Hk]%elem_of_app]; eauto.
Qed.

(** A step that leaves the configuration and the flag and logs no fault. *)
Lemma advances_quiet s s' h :
  Feed.config s' = Feed.config s → Feed.__abort s' = Feed.__abort s →
  Feed.history s' = Feed.history s ++ h →
  (∀ keyword, Feed.Unhandled keyword ∉ h) →
  advances s s'.
Proof.
  intros Hc Ha Hh Hn. split; [done|]. split; [congruence|].
  exists h. split; [done|]. intros [k Hk]. by apply Hn in Hk.
Qed.

Lemma advances_classify c s : advances s (classify c s).2.
Proof.
  destruct (classify_same_control c s) as (Hc & Ha & Hh).
  apply (advances_quiet _ _ []); try done.
  - by rewrite app_nil_r.
  - intros k Hk. by apply elem_of_nil in Hk.
Qed.

Lemma advances_pass kind s s' n l :
  s' = Feed.set_purged n (Feed.set_entries l (Feed.record (Feed.Purged kind) s)) →
  advances s s'.
Proof.
  intros ->. apply (advances_quiet _ _ [Feed.Purged kind]); try done.
  intros k Hk%list_elem_of_singleton. done.
Qed.

Lemma advances_enter silent s s' :
  advances (Feed.abort_enter silent s) s' → advances s s'.
Proof.
  intros (Hc & Ha & h & Hh & Hf). specialize (Ha eq_refl).
  unfold Feed.abort_enter in Hc, Hh.
  destruct (negb (Feed.__abort s) && negb silent); simpl in Hc, Hh.
  - split; [done|]. split; [done|].
    exists (Feed.Aborting :: h). split; [|done].
    by rewrite Hh, <- app_assoc.
  - split; [done|]. split; [done|]. by exists h.
Qed.

Lemma advances_unhandled keyword s s' :
  advances (Feed.abort_enter false (Feed.record (Feed.Unhandled keyword) s)) s' →
  advances s s'.
Proof.
  intros (Hc & Ha & h & Hh & Hf). specialize (Ha eq_refl).
  unfold Feed.abort_enter in Hc, Hh.
  destruct (negb _ && negb false); simpl in Hc, Hh.
  - split; [done|]. split; [done|].
    exists (Feed.Unhandled keyword :: Feed.Aborting :: h). split; [|done].
    by rewrite Hh, <- !app_assoc.
  - split; [done|]. split; [done|].
    exists (Feed.Unhandled keyword :: h). split; [|done].
    by rewrite Hh, <- !app_assoc.
Qed.

Lemma dispatch_advances fuel event modules s r s' :
  (∀ s r s', Feed.__abort s = true →
      Feed.__run_event manager fuel "abort" s = Some (r, s') → advances s s') →
  Feed.dispatch manager (Feed.abort_with (Feed.__run_event manager fuel))
    event modules s = Some (r, s') →
  advances s s'.
Proof.
  intros IH.
  apply (dispatch_R manager advances (λ _, True) (λ _ _ _, True));
    try done.
  - apply advances_refl.
  - apply advances_trans.
  - apply advances_classify.
  - intros entry s0. apply (advances_quiet _ _ []); try done.
    + by rewrite app_nil_r.
    + intros k Hk. by apply elem_of_nil in Hk.
  - intros _ s0. destruct (purge_filtered_frame s0) as (n & l & Hs).
    by eapply advances_pass.
  - intros s0. destruct (purge_rejected_frame s0) as (n & l & Hs).
    by eapply advances_pass.
  - intros s0. destruct (purge_failed_frame s0) as (n & l & Hs).
    by eapply advances_pass.
  - intros ev k s0. apply (advances_quiet _ _ []); try done.
    + by rewrite app_nil_r.
    + intros k' Hk. by apply elem_of_nil in Hk.
  - intros ev m s0 _.
    apply (advances_quiet _ _ [Feed.Called ev (Feed.Manager.name m)]); try done.
    intros k' Hk%list_elem_of_singleton. done.
  - apply advances_unhandled.
  - apply advances_enter.
  - intros m _ method p _. apply prog_allowed_any.
Qed.

Lemma run_event_advances fuel event s r s' :
  Feed.__run_event manager fuel event s = Some (r, s') → advances s s'.
Proof.
  revert event s r s'. induction fuel as [|fuel IH]; intros event s r s' H.
  - done.
  - simpl in H. eapply dispatch_advances; [|exact H].
    intros s0 r0 s0' _ H0. by eapply IH.
Qed.

Lemma abort_advances fuel silent s r s' :
  Feed.abort manager fuel silent s = Some (r, s') →
  advances s s' ∧ Feed.__abort s' = true.
Proof.
  unfold Feed.abort, Feed.abort_with. intros H.
  apply run_event_advances in H. split; [by eapply advances_enter|].
  destruct H as (_ & Ha & _). by apply Ha.
Qed.

Lemma validate_advances fuel s r s' :
  Feed.validate manager fuel s = Some (r, s') →
  advances s s'
  ∧ (Feed.collect_errors manager s ≠ [] → Feed.__abort s' = true)
  ∧ match r with
    | Ok errors => errors = Feed.collect_errors manager s
    | Raise _ => True
    end.
Proof.
  unfold Feed.validate. intros H.
  apply fbind_Some in H as [(a & s1 & H1 & H2)|(ex & H1 & ->)].
  - apply total_Some in H2. inversion H2; subst. clear H2.
    destruct (Feed.collect_errors manager s) as [|e errors].
    + apply total_Some in H1. inversion H1; subst.
      split; [apply advances_refl|]. done.
    + apply abort_advances in H1 as [H1 Hflag]. done.
  - destruct (Feed.collect_errors manager s) as [|e errors].
    + apply total_Some in H1. inversion H1.
    + apply abort_advances in H1 as [H1 Hflag]. done.
Qed.

Lemma verbose_details_entries_state s :
  (Feed.verbose_details_entries manager s).2 = s.
Proof.
  unfold Feed.verbose_details_entries.
  destruct (Feed.Manager.details _); [|done].
  induction (Feed.entries s) as [|entry l IH]; simpl; [done|].
  unfold Feed.bind at 1.
  destruct (Feed.title_message entry s) as [r s0] eqn:Ht.
  pose proof (title_message_state entry s) as Hs. rewrite Ht in Hs.
  simpl in Hs. subst s0. by destruct r.
Qed.

Lemma run_phase_advances fuel event s r s' :
  Feed.run_phase manager fuel event s = Some (r, s') → advances s s'.
Proof.
  unfold Feed.run_phase. intros H.
  apply fbind_Some in H as [(a & s1 & H1 & H)|(ex & H1 & _)];
    [|by eapply run_event_advances].
  apply run_event_advances in H1.
  eapply advances_trans; [exact H1|]. clear H1.
  assert (∀ r s', Feed._purge s1 = (r, s') → advances s1 s') as Hp.
  { intros r0 s0 H0. destruct (purge_filtered_frame s1) as (n & l & Hs).
    rewrite H0 in Hs. by eapply advances_pass. }
  apply fbind_Some in H as [(a' & s2 & H1 & H)|(ex & H1 & _)];
    apply total_Some in H1; [|by eapply Hp].
  eapply advances_trans; [by eapply Hp|].
  apply total_Some in H.
  assert (s' = s2) as ->; [|apply advances_refl].
  case_bool_decide.
  - pose proof (verbose_details_entries_state s2) as Hv.
    by rewrite H in Hv.
  - by inversion H.
Qed.

Lemma run_events_advances fuel events s r s' :
  Feed.run_events manager fuel events s = Some (r, s') → advances s s'.
Proof.
  revert s. induction events as [|event rest IH]; intros s H; simpl in H.
  - apply total_Some in H. inversion H; subst. apply advances_refl.
  - destruct (Feed.skipped manager event); [by apply IH|].
    apply fbind_Some in H as [(a & s1 & H1 & H)|(ex & H1 & _)];
      [|by eapply run_phase_advances].
    apply run_phase_advances in H1.
    eapply advances_trans; [exact H1|].
    destruct (Feed.__abort s1).
    + apply total_Some in H. inversion H; subst. apply advances_refl.
    + by apply IH.
Qed.

Lemma execute_advances fuel s r s' :
  Feed.execute manager fuel s = Some (r, s') → advances s s'.
Proof.
  unfold Feed.execute. intros H.
  apply fbind_Some in H as [(errors & s1 & H1 & H)|(ex & H1 & _)].
  2:{ by apply validate_advances in H1 as [? _]. }
  apply validate_advances in H1 as [H1 _].
  eapply advances_trans; [exact H1|].
  destruct (Feed.__abort s1).
  { apply total_Some in H. inversion H; subst. apply advances_refl. }
  destruct (Feed.Manager.validate _ && _).
  { apply total_Some in H. inversion H; subst. apply advances_refl. }
  by eapply run_events_advances.
Qed.

(** What follows the dispatch in a phase keeps the flag. *)
Lemma run_phase_flag fuel event s r s' r1 s1 :
  Feed.__run_event manager fuel event s = Some (r1, s1) →
  Feed.run_phase manager fuel event s = Some (r, s') →
  Feed.__abort s' = Feed.__abort s1.
Proof.
  unfold Feed.run_phase. intros H1 H.
  unfold Feed.fbind at 1 in H. rewrite H1 in H.
  destruct r1; [|by inversion H].
  assert (∀ r s', Feed._purge s1 = (r, s') → Feed.__abort s' = Feed.__abort s1)
    as Hp.
  { intros r0 s0 H0. destruct (purge_filtered_frame s1) as (n & l & Hs).
    rewrite H0 in Hs. simpl in Hs. by rewrite Hs. }
  apply fbind_Some in H as [(a' & s2 & H2 & H)|(ex & H2 & _)];
    apply total_Some in H2; [|by eapply Hp].
  rewrite <- (Hp _ _ H2). apply total_Some in H.
  case_bool_decide.
  - pose proof (verbose_details_entries_state s2) as Hv.
    rewrite H in Hv. simpl in Hv. by subst.
  - by inversion H.
Qed.

(** Once a phase ends with the flag set, the phases after it do not run. *)
Lemma run_events_stop fuel event rest s r1 s1 :
  Feed.skipped manager event = false →
  Feed.__run_event manager fuel event s = Some (r1, s1) →
  Feed.__abort s1 = true →
  Feed.run_events manager fuel (event :: rest) s
  = Feed.run_events manager fuel [event] s.
Proof.
  intros Hskip H1 Hflag. simpl. rewrite Hskip.
  unfold Feed.fbind.
  destruct (Feed.run_phase manager fuel event s) as [[[a|ex] s2]|] eqn:Hphase;
    try done.
  by rewrite (run_phase_flag _ _ _ _ _ _ _ H1 Hphase), Hflag.
Qed.

Lemma terminate_aborted fuel s :
  Feed.__abort s = true → Feed.terminate manager fuel s = Some (Ok tt, s).
Proof. intros H. unfold Feed.terminate. by rewrite H. Qed.

End Control.

(** ** Validation *)

Section Validation.
Variable manager : Feed.Manager.t.
Implicit Types (s : Feed.t).

Lemma collect_errors_join s :
  Feed.collect_errors manager s
  = mjoin ((λ kc, Feed.keyword_errors manager kc.1 kc.2)
             <$> map_to_list (Feed.config s)).
Proof.
  unfold Feed.collect_errors.
  assert (∀ l acc,
    foldl (λ validate_errors (kc : string * Feed.config_value),
             validate_errors ++ Feed.keyword_errors manager kc.1 kc.2) acc l
    = acc ++ mjoin ((λ kc, Feed.keyword_errors manager kc.1 kc.2) <$> l)) as H.
  { induction l as [|kc l IH]; intros acc; simpl.
    - by rewrite app_nil_r.
    - by rewrite IH, app_assoc. }
  by rewrite H.
Qed.

Lemma keyword_errors_unknown keyword c :
  Feed.Manager.modules manager !! keyword = None →
  Feed.keyword_errors manager keyword c
  = ["Unknown keyword '" +:+ keyword +:+ "'"].
Proof. intros H. unfold Feed.keyword_errors. by rewrite H. Qed.

(** Plugin code that is calm ends without the help of [abort()], normally
    or with a warning; it calls no module and leaves the flag and the
    configuration. *)
Lemma call_calm hook p s :
  calm p →
  ∃ r s', Feed.call hook p s = Some (r, s')
          ∧ (r = Ok tt ∨ ∃ log_once, r = Raise (ModuleWarning log_once))
          ∧ Feed.config s' = Feed.config s
          ∧ Feed.__abort s' = Feed.__abort s
          ∧ ∃ h, Feed.history s' = Feed.history s ++ h ∧ calls h = [].
Proof.
  intros Hp. revert s. induction Hp as [|log_once|a k Ha Hk IH]; intros s.
  - exists (Ok tt), s. split; [done|]. split; [by left|].
    split; [done|]. split; [done|]. exists []. by rewrite app_nil_r.
  - exists (Raise (ModuleWarning log_once)), s. split; [done|].
    split; [right; by eexists|].
    split; [done|]. split; [done|]. exists []. by rewrite app_nil_r.
  - assert (∃ r1 s1, Feed.do_action hook a s = Some (r1, s1)
                     ∧ Feed.config s1 = Feed.config s
                     ∧ Feed.__abort s1 = Feed.__abort s
                     ∧ ∃ h, Feed.history s1 = Feed.history s ++ h
                            ∧ calls h = []) as (r1 & s1 & H1 & Hc & Hf & h1 & Hh1 & Hn1).
    { assert (∀ c, ∃ r1 s1, Feed.total (classify c) s = Some (r1, s1)
                     ∧ Feed.config s1 = Feed.config s
                     ∧ Feed.__abort s1 = Feed.__abort s
                     ∧ ∃ h, Feed.history s1 = Feed.history s ++ h
                            ∧ calls h = []) as Hclass.
      { intros c. destruct (classify c s) as [r1 s1] eqn:Hc.
        exists r1, s1. unfold Feed.total. rewrite Hc. split; [done|].
        destruct (classify_same_control c s) as (H1 & H2 & H3).
        rewrite Hc in H1, H2, H3. simpl in *.
        split; [done|]. split; [done|]. exists []. by rewrite app_nil_r. }
      destruct a as [e|e|e|e|silent| |e]; simpl.
      - apply (Hclass (Accepting e)).
      - apply (Hclass (Filtering e)).
      - apply (Hclass (Rejecting e)).
      - apply (Hclass (Failing e)).
      - by destruct (Ha silent).
      - destruct (Feed._purge s) as [r1 s1] eqn:Hpurge.
        exists r1, s1. unfold Feed.total. rewrite Hpurge. split; [done|].
        destruct (purge_filtered_frame s) as (n & l & Hs).
        rewrite Hpurge in Hs. simpl in Hs. subst s1. simpl.
        split; [done|]. split; [done|]. by eexists.
      - eexists _, _. split; [reflexivity|]. simpl.
        split; [done|]. split; [done|]. exists []. by rewrite app_nil_r. }
    destruct (IH r1 s1 s1) as (r & s' & H2 & Hr & Hc' & Hf' & h2 & Hh2 & Hn2).
    exists r, s'. simpl. rewrite H1. split; [done|]. split; [done|].
    split; [congruence|]. split; [congruence|].
    exists (h1 ++ h2). split; [by rewrite Hh2, Hh1, app_assoc|].
    unfold calls in *. by rewrite omap_app, Hn1, Hn2.
Qed.

(** The turn of one module whose method for the event is calm. *)
Lemma dispatch_calm_turn hook event m rest s method p :
  Feed.applicable m s = true →
  Feed.Manager.event_methods manager !! event = Some method →
  Feed.Manager.methods (Feed.Manager.instance m) !! method = Some p →
  calm p →
  ∃ s1,
    Feed.config s1 = Feed.config s
    ∧ Feed.__abort s1 = Feed.__abort s
    ∧ (∃ h, Feed.history s1
            = Feed.history s ++ Feed.Called event (Feed.Manager.name m) :: h
            ∧ calls h = [])
    ∧ (Feed.dispatch manager hook event (m :: rest) s
       = (if Feed.__abort s1 then Some (Ok tt, s1)
          else Feed.dispatch manager hook event rest s1)
       ∨ ∃ ex, Feed.dispatch manager hook event (m :: rest) s
               = Some (Raise ex, s1)).
Proof.
  intros Happ Hmeth Hp Hcalm.
  remember (Feed.dispatch manager hook event (m :: rest) s) as d eqn:Hd.
  simpl in Hd. rewrite Happ in Hd.
  unfold Feed.fbind at 1 in Hd. unfold Feed.total at 1, Feed.modify at 1 in Hd.
  set (s0 := Feed.set_current event (Feed.Manager.name m) s) in Hd.
  unfold Feed.fbind at 1, Feed.try_except, Feed.invoke in Hd.
  rewrite Hmeth, Hp in Hd.
  unfold Feed.fbind at 1 in Hd. unfold Feed.total at 1, Feed.modify at 1 in Hd.
  set (sc := Feed.record _ s0) in Hd.
  destruct (call_calm hook p sc Hcalm)
    as (r & s2 & Hcall & Hr & Hc2 & Hf2 & h2 & Hh2 & Hn2).
  rewrite Hcall in Hd.
  assert ((match r with
           | Ok a => Some (Ok a, s2)
           | Raise ex => Feed.handler hook (Feed.Manager.name m) ex s2
           end) = Some (Ok tt, s2)) as Hturn.
  { destruct Hr as [->|[b ->]]; done. }
  rewrite Hturn in Hd. clear Hturn.
  destruct (purge_rejected_frame s2) as (n3 & l3 & Hs3).
  destruct (purge_failed_frame (Feed.__purge_rejected s2).2) as (n4 & l4 & Hs4).
  unfold Feed.fbind at 1 in Hd. unfold Feed.total at 1 in Hd.
  destruct (Feed.__purge_rejected s2) as [r3 s3] eqn:H3. simpl in Hs3, Hs4.
  assert (Feed.config s3 = Feed.config s ∧ Feed.__abort s3 = Feed.__abort s
          ∧ Feed.history s3
            = Feed.history s ++ Feed.Called event (Feed.Manager.name m)
                :: (h2 ++ [Feed.Purged Feed.Rejected])) as (Hc3 & Hf3 & Hh3).
  { subst s3. simpl. rewrite Hc2, Hf2, Hh2. subst sc s0. simpl.
    by rewrite <- !app_assoc. }
  destruct r3 as [[]|ex].
  2:{ exists s3. split; [done|]. split; [done|]. split.
      - eexists. split; [exact Hh3|].
        unfold calls in *. by rewrite omap_app, Hn2.
      - right. by eexists. }
  unfold Feed.fbind at 1 in Hd. unfold Feed.total at 1 in Hd.
  destruct (Feed.__purge_failed s3) as [r4 s4] eqn:H4. simpl in Hs4.
  assert (Feed.config s4 = Feed.config s ∧ Feed.__abort s4 = Feed.__abort s
          ∧ Feed.history s4
            = Feed.history s ++ Feed.Called event (Feed.Manager.name m)
                :: (h2 ++ [Feed.Purged Feed.Rejected; Feed.Purged Feed.Failed]))
    as (Hc4 & Hf4 & Hh4).
  { subst s4. simpl. rewrite Hc3, Hf3, Hh3.
    split; [done|]. split; [done|].
    rewrite <- app_assoc. simpl. by rewrite <- app_assoc. }
  exists s4. split; [done|]. split; [done|]. split.
  { eexists. split; [exact Hh4|]. unfold calls in *. by rewrite omap_app, Hn2. }
  destruct r4 as [[]|ex]; [left|right; by eexists].
  rewrite Hd. unfold Feed.total, Feed.ret. by destruct (Feed.__abort s4).
Qed.

(** With quiet modules for the ['abort'] event, the dispatch of that
    event ends whatever the budget of its [abort()]. *)
Lemma dispatch_quiet hook modules s :
  (∀ m, m ∈ modules → ∃ method p,
      Feed.Manager.event_methods manager !! "abort" = Some method
      ∧ Feed.Manager.methods (Feed.Manager.instance m) !! method = Some p
      ∧ calm p) →
  ∃ r s', Feed.dispatch manager hook "abort" modules s = Some (r, s').
Proof.
  revert s. induction modules as [|m rest IH]; intros s Hq.
  - by eexists _, _.
  - destruct (Feed.applicable m s) eqn:Happ.
    + destruct (Hq m) as (method & p & Hmeth & Hp & Hcalm); [by left|].
      destruct (dispatch_calm_turn hook "abort" m rest s method p
                  Happ Hmeth Hp Hcalm) as (s1 & _ & _ & _ & [->|[ex ->]]).
      * destruct (Feed.__abort s1); [by eexists _, _|].
        apply IH. intros m' Hm'. apply Hq. by right.
      * by eexists _, _.
    + simpl. rewrite Happ. apply IH. intros m' Hm'. apply Hq. by right.
Qed.

Lemma sorted_modules_elem event s m :
  m ∈ Feed.sorted_modules manager event s
  ↔ m ∈ Feed.Manager.get_modules_by_event manager event.
Proof. by rewrite (sorted_modules_Permutation manager event s). Qed.

Lemma abort_quiet fuel silent s :
  quiet_abort manager →
  ∃ r s', Feed.abort manager (S fuel) silent s = Some (r, s').
Proof.
  intros Hq. unfold Feed.abort, Feed.abort_with. simpl.
  apply dispatch_quiet. intros m Hm. apply Hq.
  by apply sorted_modules_elem in Hm.
Qed.

(** C7. For a configured keyword that the registry does not know,
    [validate()] records the one message "Unknown keyword '...'"; the
    messages of all keywords, in the order of the dictionary, are what it
    returns, after it has called [abort()] because there are some; the
    abort flag is then set, and [execute()] does nothing more than this
    validation: no event of the run is dispatched. With quiet modules for
    the ['abort'] event the validation ends for every positive budget. *)
Theorem unknown_keyword_aborts fuel s keyword c :
  Feed.config s !! keyword = Some c →
  Feed.Manager.modules manager !! keyword = None →
  let message := "Unknown keyword '" +:+ keyword +:+ "'" in
  let errors := Feed.collect_errors manager s in
  Feed.keyword_errors manager keyword c = [message]
  ∧ errors = mjoin ((λ kc, Feed.keyword_errors manager kc.1 kc.2)
                      <$> map_to_list (Feed.config s))
  ∧ message ∈ errors
  ∧ Feed.validate manager fuel s
    = Feed.fbind (Feed.abort manager fuel false)
                 (λ _, Feed.total (Feed.ret errors)) s
  ∧ (∀ r s', Feed.validate manager fuel s = Some (r, s') →
       Feed.__abort s' = true
       ∧ (r = Ok errors ∨ ∃ ex, r = Raise ex))
  ∧ Feed.execute manager fuel s
    = Feed.fbind (Feed.validate manager fuel)
                 (λ _, Feed.total (Feed.ret tt)) s
  ∧ (quiet_abort manager →
     ∃ r s', Feed.validate manager (S fuel) s = Some (r, s')).
Proof.
  intros Hcfg Hreg message errors.
  assert (Hmsg : message ∈ errors).
  { subst errors. rewrite collect_errors_join. apply list_elem_of_join.
    exists [message]. split; [by left|].
    apply list_elem_of_fmap. exists (keyword, c). simpl.
    split; [by rewrite keyword_errors_unknown|].
    by apply elem_of_map_to_list. }
  assert (Hval : ∀ fuel, Feed.validate manager fuel s
    = Feed.fbind (Feed.abort manager fuel false)
                 (λ _, Feed.total (Feed.ret errors)) s).
  { intros fuel0. unfold Feed.validate. fold errors.
    destruct errors; [|done]. by apply elem_of_nil in Hmsg. }
  assert (Hflag : ∀ r s', Feed.validate manager fuel s = Some (r, s') →
       Feed.__abort s' = true ∧ (r = Ok errors ∨ ∃ ex, r = Raise ex)).
  { intros r s' H. rewrite Hval in H.
    apply fbind_Some in H as [(a & s1 & H1 & H2)|(ex & H1 & ->)].
    - apply abort_advances in H1 as [_ H1].
      apply total_Some in H2. inversion H2; subst. split; [done|by left].
    - apply abort_advances in H1 as [_ H1]. split; [done|right; by eexists]. }
  split; [by apply keyword_errors_unknown|].
  split; [apply collect_errors_join|]. split; [done|].
  split; [apply Hval|]. split; [done|]. split.
  - unfold Feed.execute, Feed.fbind.
    destruct (Feed.validate manager fuel s) as [[[errs|ex] s1]|] eqn:Hv;
      try done.
    destruct (Hflag _ _ eq_refl) as [-> _]. done.
  - intros Hq. rewrite Hval.
    destruct (abort_quiet fuel false s Hq) as (r & s' & H).
    unfold Feed.fbind. rewrite H. destruct r; by eexists _, _.
Qed.

End Validation.

Lemma unknown_keyword_aborts_witness :
  Feed.validate faulty_manager 1 alpha_feed
  = Some (Ok ["Unknown keyword 'alpha'"], Feed.abort_enter false alpha_feed)
  ∧ Feed.execute faulty_manager 1 alpha_feed
    = Some (Ok tt, Feed.abort_enter false alpha_feed).
Proof.
  destruct (unknown_keyword_aborts faulty_manager 1 alpha_feed "alpha"
              (Feed.CScalar VNone)) as (_ & _ & _ & H4 & _ & H6 & _).
  - reflexivity.
  - reflexivity.
  - rewrite H6, H4. vm_compute. split; reflexivity.
Defined.

(** ** The dispatch of the ['abort'] event *)

Section AbortDispatch.
Variable manager : Feed.Manager.t.
Implicit Types (s : Feed.t) (m : Feed.Manager.module).

Lemma list_sort_ext {A} (f g : A → A → comparison) (l : list A) :
  (∀ x y, f x y = g x y) → Feed.list_sort f l = Feed.list_sort g l.
Proof.
  intros Hfg. induction l as [|x l IH]; simpl; [done|]. rewrite IH.
  generalize (Feed.list_sort g l). intros l'.
  induction l' as [|y l' IH']; simpl; [done|].
  rewrite Hfg. by rewrite IH'.
Qed.

Lemma get_priority_config m event s s' :
  Feed.config s = Feed.config s' →
  Feed.__get_priority m event s = Feed.__get_priority m event s'.
Proof. intros H. unfold Feed.__get_priority. by rewrite H. Qed.

Lemma sorted_modules_config event s s' :
  Feed.config s = Feed.config s' →
  Feed.sorted_modules manager event s = Feed.sorted_modules manager event s'.
Proof.
  intros H. unfold Feed.sorted_modules. f_equal. apply list_sort_ext.
  intros x y. unfold Feed.__sort_modules.
  by rewrite (get_priority_config x event s s' H),
             (get_priority_config y event s s' H).
Qed.

Lemma applicable_config m s s' :
  Feed.config s = Feed.config s' → Feed.applicable m s = Feed.applicable m s'.
Proof. intros H. unfold Feed.applicable. by rewrite H. Qed.

Lemma first_applicable_config modules s s' :
  Feed.config s = Feed.config s' →
  first_applicable modules s = first_applicable modules s'.
Proof.
  intros H. unfold first_applicable. f_equal.
  apply list_filter_iff. intros m. by rewrite (applicable_config m s s' H).
Qed.

Lemma abort_target_config s s' :
  Feed.config s = Feed.config s' →
  abort_target manager s = abort_target manager s'.
Proof.
  intros H. unfold abort_target.
  by rewrite (sorted_modules_config "abort" s s' H),
             (first_applicable_config _ s s' H).
Qed.

Lemma fbind_ext_on {A B} (m : Feed.fop A) (k1 k2 : A → Feed.fop B) s :
  (∀ a s1, m s = Some (Ok a, s1) → k1 a s1 = k2 a s1) →
  Feed.fbind m k1 s = Feed.fbind m k2 s.
Proof.
  intros H. unfold Feed.fbind.
  destruct (m s) as [[[a|ex] s1]|]; try done. by apply H.
Qed.

(** In an aborted feed the loop of [__run_event] does not get past the
    first applicable module. *)
Lemma dispatch_aborted fuel event modules s :
  Feed.__abort s = true →
  Feed.dispatch manager (Feed.abort_with (Feed.__run_event manager fuel))
    event modules s
  = Feed.dispatch manager (Feed.abort_with (Feed.__run_event manager fuel))
      event (option_list (first_applicable modules s)) s.
Proof.
  intros Hflag. induction modules as [|m rest IH]; [done|].
  unfold first_applicable.
  destruct (Feed.applicable m s) eqn:Happ.
  2:{ rewrite filter_cons_False by (by rewrite Happ).
      simpl. by rewrite Happ. }
  rewrite filter_cons_True by done. simpl option_list.
  assert (∀ sd, Feed.dispatch manager
                  (Feed.abort_with (Feed.__run_event manager fuel))
                  event [m] s = Some (Ok tt, sd) →
                Feed.__abort sd = true) as Hend.
  { intros sd Hd. apply dispatch_advances in Hd as (_ & Ha & _); [by apply Ha|].
    intros s0 r0 s0' _ H0. by eapply run_event_advances. }
  simpl in Hend. rewrite Happ in Hend. simpl. rewrite Happ.
  apply fbind_ext_on. intros a sa HA.
  apply fbind_ext_on. intros b sb HB.
  apply fbind_ext_on. intros c sc HC.
  apply fbind_ext_on. intros d sd HD.
  rewrite (Hend sd); [done|].
  unfold Feed.fbind. rewrite HA, HB, HC, HD.
  by destruct (Feed.__abort sd).
Qed.

Section OnlyCalls.
Variable config0 : gmap string Feed.config_value.
Variable target : option (string * string).

Let R := only_calls config0 target.

Lemma only_calls_refl s : R s s.
Proof.
  intros Hf Hc. split; [done|]. split; [done|]. exists [].
  rewrite app_nil_r. split; [done|]. intros c Hc'. by apply elem_of_nil in Hc'.
Qed.

Lemma only_calls_trans s1 s2 s3 : R s1 s2 → R s2 s3 → R s1 s3.
Proof.
  intros H12 H23 Hf Hc.
  destruct (H12 Hf Hc) as (Hf2 & Hc2 & h1 & Hh1 & Ht1).
  destruct (H23 Hf2 Hc2) as (Hf3 & Hc3 & h2 & Hh2 & Ht2).
  split; [done|]. split; [done|]. exists (h1 ++ h2).
  split; [by rewrite Hh2, Hh1, app_assoc|].
  intros c. unfold calls. rewrite omap_app.
  intros [?|?]%elem_of_app; [by apply Ht1|by apply Ht2].
Qed.

Lemma only_calls_quiet s s' h :
  Feed.config s' = Feed.config s →
  (Feed.__abort s = true → Feed.__abort s' = true) →
  Feed.history s' = Feed.history s ++ h → calls h = [] →
  R s s'.
Proof.
  intros Hc Ha Hh Hn Hf Hc0. split; [auto|]. split; [congruence|].
  exists h. split; [done|]. rewrite Hn. intros c H. by apply elem_of_nil in H.
Qed.

Lemma only_calls_classify c s : R s (classify c s).2.
Proof.
  destruct (classify_same_control c s) as (Hc & Ha & Hh).
  apply (only_calls_quiet _ _ []); try done.
  - congruence.
  - by rewrite app_nil_r.
Qed.

Lemma only_calls_pass kind s s' n l :
  s' = Feed.set_purged n (Feed.set_entries l (Feed.record (Feed.Purged kind) s)) →
  R s s'.
Proof. intros ->. by apply (only_calls_quiet _ _ [Feed.Purged kind]). Qed.

Lemma only_calls_enter silent s s' : R (Feed.abort_enter silent s) s' → R s s'.
Proof.
  intros H Hf Hc. unfold Feed.abort_enter in H. rewrite Hf in H. simpl in H.
  destruct (H eq_refl Hc) as (Hf' & Hc' & h & Hh & Ht).
  split; [done|]. split; [done|]. by exists h.
Qed.

Lemma only_calls_unhandled keyword s s' :
  R (Feed.abort_enter false (Feed.record (Feed.Unhandled keyword) s)) s' →
  R s s'.
Proof.
  intros H Hf Hc. unfold Feed.abort_enter in H. simpl in H.
  rewrite Hf in H. simpl in H.
  destruct (H eq_refl Hc) as (Hf' & Hc' & h & Hh & Ht).
  split; [done|]. split; [done|]. exists (Feed.Unhandled keyword :: h).
  simpl in Hh. split; [by rewrite Hh, <- app_assoc|]. done.
Qed.

Lemma dispatch_only_calls fuel modules s r s' :
  (∀ s r s', Feed.__run_event manager fuel "abort" s = Some (r, s') → R s s') →
  (∀ m, m ∈ modules → Feed.__abort s = true →
        target = Some ("abort", Feed.Manager.name m)) →
  Feed.dispatch manager (Feed.abort_with (Feed.__run_event manager fuel))
    "abort" modules s = Some (r, s') →
  R s s'.
Proof.
  intros IH Hmods.
  apply (dispatch_R manager R (λ _, True)
           (λ event m (flag : bool),
              flag = true → target = Some (event, Feed.Manager.name m))).
  - apply only_calls_refl.
  - apply only_calls_trans.
  - apply only_calls_classify.
  - intros entry s0. apply (only_calls_quiet _ _ []); try done.
    by rewrite app_nil_r.
  - intros _ s0. destruct (purge_filtered_frame s0) as (n & l & Hs).
    by eapply only_calls_pass.
  - intros s0. destruct (purge_rejected_frame s0) as (n & l & Hs).
    by eapply only_calls_pass.
  - intros s0. destruct (purge_failed_frame s0) as (n & l & Hs).
    by eapply only_calls_pass.
  - intros ev k s0. apply (only_calls_quiet _ _ []); try done.
    by rewrite app_nil_r.
  - intros ev m s0 Hok Hf Hc. split; [done|]. split; [done|].
    exists [Feed.Called ev (Feed.Manager.name m)]. split; [done|].
    intros c ->%list_elem_of_singleton. by apply Hok.
  - apply only_calls_unhandled.
  - apply only_calls_enter.
  - intros s0 r0 s0' _ H0. by eapply IH.
  - done.
  - done.
  - intros m _ method p _. apply prog_allowed_any.
Qed.

End OnlyCalls.

Lemma run_event_only_calls fuel s0 s r s' :
  Feed.__run_event manager fuel "abort" s = Some (r, s') →
  only_calls (Feed.config s0) (abort_target manager s0) s s'.
Proof.
  revert s r s'. induction fuel as [|fuel IH]; intros s r s' H; [done|].
  intros Hflag Hcfg. simpl in H.
  rewrite dispatch_aborted in H by done.
  assert (only_calls (Feed.config s0) (abort_target manager s0) s s') as HR;
    [|by apply HR].
  eapply dispatch_only_calls; [exact IH| |exact H].
  intros m Hm _. rewrite <- (abort_target_config s s0 Hcfg).
  unfold abort_target.
  destruct (first_applicable (Feed.sorted_modules manager "abort" s) s)
    as [m0|]; simpl in *.
  - by apply list_elem_of_singleton in Hm as ->.
  - by apply elem_of_nil in Hm.
Qed.

Lemma first_applicable_Some modules s m :
  first_applicable modules s = Some m →
  m ∈ modules ∧ Feed.applicable m s = true.
Proof.
  unfold first_applicable. intros H.
  assert (m ∈ filter (λ m, Feed.applicable m s = true) modules) as Hin.
  { destruct (filter _ modules) as [|m' l]; [done|].
    simpl in H. inversion H; subst. by left. }
  apply list_elem_of_filter in Hin. tauto.
Qed.

(** C10. [abort()] sets the abort flag and then dispatches the ['abort']
    event from the state in which it is set. Whatever the number of
    applicable modules, every module call made until [abort()] returns
    (the calls of an [abort()] re-entered from plugin code included) is
    the call of one module: the first applicable one in the order of
    dispatch. When the modules of the event neither call [abort()] nor
    raise an exception, [abort()] returns for every positive budget and
    that module is called once: the calls made are the one call of the
    first applicable module, or none when no module is applicable. *)
Theorem abort_invokes_one fuel silent s :
  let s1 := Feed.abort_enter silent s in
  Feed.__abort s1 = true
  ∧ Feed.abort manager fuel silent s = Feed.__run_event manager fuel "abort" s1
  ∧ (∀ r s',
       Feed.abort manager fuel silent s = Some (r, s') →
       ∃ h, Feed.history s' = Feed.history s1 ++ h
            ∧ (∀ c, c ∈ calls h → abort_target manager s1 = Some c)
            ∧ (quiet_abort manager →
               calls h = option_list (abort_target manager s1)
               ∧ (length (calls h) ≤ 1)%nat))
  ∧ (quiet_abort manager →
     ∃ r s', Feed.abort manager (S fuel) silent s = Some (r, s')).
Proof.
  intros s1. split; [done|]. split; [done|].
  split; [|intros Hq; by apply abort_quiet].
  intros r s' H.
  unfold Feed.abort, Feed.abort_with in H. fold s1 in H.
  destruct (run_event_only_calls fuel s1 s1 r s' H eq_refl eq_refl)
    as (_ & _ & h & Hh & Ht).
  exists h. split; [done|]. split; [done|].
  intros Hq.
  assert (calls h = option_list (abort_target manager s1)) as Hcalls.
  2:{ split; [done|]. rewrite Hcalls.
      destruct (abort_target manager s1); simpl; lia. }
  destruct fuel as [|fuel]; [done|]. simpl in H.
  rewrite dispatch_aborted in H by done.
  unfold abort_target.
  destruct (first_applicable (Feed.sorted_modules manager "abort" s1) s1)
    as [m0|] eqn:Hfirst; simpl option_list in *; simpl fmap.
  - apply first_applicable_Some in Hfirst as [Hin Happ].
    apply sorted_modules_elem in Hin.
    destruct (Hq m0 Hin) as (method & p & Hmeth & Hp & Hcalm).
    destruct (dispatch_calm_turn manager
                (Feed.abort_with (Feed.__run_event manager fuel))
                "abort" m0 [] s1 method p Happ Hmeth Hp Hcalm)
      as (s2 & _ & _ & (h2 & Hh2 & Hn2) & Hd).
    assert (s' = s2) as ->.
    { destruct Hd as [Hd|[ex Hd]]; rewrite Hd in H.
      - destruct (Feed.__abort s2); simpl in H; by inversion H.
      - by inversion H. }
    rewrite Hh in Hh2. apply app_inv_head in Hh2 as ->.
    change (calls (Feed.Called "abort" (Feed.Manager.name m0) :: h2))
      with (("abort", Feed.Manager.name m0) :: calls h2).
    by rewrite Hn2.
  - simpl in H. injection H as _ Heq.
    assert (h = []) as ->; [|done].
    apply (app_inv_head (Feed.history s1)). rewrite app_nil_r, <- Hh.
    by rewrite <- Heq.
Qed.

End AbortDispatch.

Lemma cleanup_quiet : quiet_abort cleanup_manager.
Proof.
  intros m Hm. exists "feed_abort".
  apply list_elem_of_In in Hm. simpl in Hm.
  destruct Hm as [<-|[<-|[<-|[]]]]; eexists; (split; [reflexivity|]);
    (split; [reflexivity|]); repeat constructor; done.
Qed.

Lemma abort_invokes_one_witness :
  ∃ s',
    Feed.abort cleanup_manager 1 false (Feed.init "feed" ∅) = Some (Ok tt, s')
    ∧ calls (Feed.history s') = [("abort", "undo")].
Proof.
  assert (∃ s', Feed.abort cleanup_manager 1 false (Feed.init "feed" ∅)
                = Some (Ok tt, s')) as [s' Hs'].
  { eexists. vm_compute. reflexivity. }
  exists s'. split; [exact Hs'|].
  destruct (abort_invokes_one cleanup_manager 1 false (Feed.init "feed" ∅))
    as (_ & _ & Hcall & _).
  destruct (Hcall (Ok tt) s' Hs') as (h & Hh & _ & Hq).
  destruct (Hq cleanup_quiet) as [Hcalls _].
  rewrite Hh. unfold calls in *. rewrite omap_app. rewrite Hcalls.
  vm_compute. reflexivity.
Defined.

(** ** Termination *)

Section Termination.
Variable manager : Feed.Manager.t.
Implicit Types (s : Feed.t).

Lemma call_total hook p s :
  (∀ silent s, ∃ r s', hook silent s = Some (r, s')) →
  ∃ r s', Feed.call hook p s = Some (r, s').
Proof.
  intros Hhook. revert s. induction p as [|ex|a k IH]; intros s.
  - by eexists _, _.
  - by eexists _, _.
  - simpl.
    assert (∃ r1 s1, Feed.do_action hook a s = Some (r1, s1))
      as (r1 & s1 & ->).
    { destruct a; simpl; try apply Hhook; unfold Feed.total;
        match goal with
        | |- ∃ r1 s1, Some ?x = _ => destruct x as [r0 s0]; by eexists _, _
        end. }
    apply IH.
Qed.

Lemma dispatch_total hook event modules s :
  (∀ silent s, ∃ r s', hook silent s = Some (r, s')) →
  ∃ r s', Feed.dispatch manager hook event modules s = Some (r, s').
Proof.
  intros Hhook. revert s. induction modules as [|m rest IH]; intros s.
  { by eexists _, _. }
  simpl. destruct (Feed.applicable m s); [|apply IH].
  unfold Feed.fbind at 1. unfold Feed.total at 1, Feed.modify at 1.
  set (s0 := Feed.set_current event (Feed.Manager.name m) s).
  assert (∃ r1 s1, Feed.try_except (Feed.invoke manager hook m event)
                     (Feed.handler hook (Feed.Manager.name m)) s0
                   = Some (r1, s1)) as (r1 & s1 & H1).
  { unfold Feed.try_except.
    assert (∃ r s', Feed.invoke manager hook m event s0 = Some (r, s'))
      as (r & s' & ->).
    { unfold Feed.invoke.
      destruct (Feed.Manager.event_methods manager !! event) as [method|];
        [|by eexists _, _].
      destruct (Feed.Manager.methods (Feed.Manager.instance m) !! method)
        as [p|]; [|by eexists _, _].
      unfold Feed.fbind, Feed.total at 1, Feed.modify.
      apply call_total, Hhook. }
    destruct r as [a|ex]; [by eexists _, _|].
    destruct ex; simpl; try (by eexists _, _);
      unfold Feed.fbind, Feed.total, Feed.modify; apply Hhook. }
  unfold Feed.fbind at 1. rewrite H1.
  destruct r1 as [a|ex]; [|by eexists _, _].
  unfold Feed.fbind at 1, Feed.total at 1.
  destruct (Feed.__purge_rejected s1) as [[a2|ex] s2]; [|by eexists _, _].
  unfold Feed.fbind at 1, Feed.total at 1.
  destruct (Feed.__purge_failed s2) as [[a3|ex] s3]; [|by eexists _, _].
  destruct (Feed.__abort s3); [by eexists _, _|apply IH].
Qed.

Lemma run_event_total fuel event s :
  quiet_abort manager →
  ∃ r s', Feed.__run_event manager (S (S fuel)) event s = Some (r, s').
Proof.
  intros Hq. simpl. apply dispatch_total.
  intros silent s0. apply (abort_quiet manager fuel silent s0 Hq).
Qed.

Lemma run_phase_total fuel event s :
  quiet_abort manager →
  ∃ r s', Feed.run_phase manager (S (S fuel)) event s = Some (r, s').
Proof.
  intros Hq. unfold Feed.run_phase, Feed.fbind, Feed.total.
  destruct (run_event_total fuel event s Hq) as (r & s1 & ->).
  destruct r as [a|ex]; [|by eexists _, _].
  destruct (Feed._purge s1) as [[a2|ex] s2]; [|by eexists _, _].
  destruct (_ s2) as [[a3|ex] s3]; by eexists _, _.
Qed.

Lemma run_events_total fuel events s :
  quiet_abort manager →
  ∃ r s', Feed.run_events manager (S (S fuel)) events s = Some (r, s').
Proof.
  intros Hq. revert s. induction events as [|event rest IH]; intros s.
  { by eexists _, _. }
  cbn [Feed.run_events]. destruct (Feed.skipped manager event); [apply IH|].
  unfold Feed.fbind.
  destruct (run_phase_total fuel event s Hq) as (r & s1 & ->).
  destruct r as [a|ex]; [|by eexists _, _].
  destruct (Feed.__abort s1); [by eexists _, _|apply IH].
Qed.

(** With quiet modules for the ['abort'] event, [execute] returns for
    every budget of at least two. *)
Lemma execute_total fuel s :
  quiet_abort manager →
  ∃ r s', Feed.execute manager (S (S fuel)) s = Some (r, s').
Proof.
  intros Hq. unfold Feed.execute, Feed.fbind at 1.
  assert (∃ r s', Feed.validate manager (S (S fuel)) s = Some (r, s'))
    as (r & s1 & ->).
  { unfold Feed.validate, Feed.fbind.
    destruct (Feed.collect_errors manager s); [by eexists _, _|].
    destruct (abort_quiet manager (S fuel) false s Hq) as (r & s' & ->).
    destruct r; by eexists _, _. }
  destruct r as [errors|ex]; [|by eexists _, _].
  destruct (Feed.__abort s1); [by eexists _, _|].
  destruct (_ && _); [by eexists _, _|].
  by apply run_events_total.
Qed.

Lemma dispatch_app_unaborted hook event pre l s s_m :
  Feed.dispatch manager hook event pre s = Some (Ok tt, s_m) →
  Feed.__abort s_m = false →
  Feed.dispatch manager hook event (pre ++ l) s
  = Feed.dispatch manager hook event l s_m.
Proof.
  revert s. induction pre as [|m' pre IH]; intros s H Hflag.
  { simpl in H. apply total_Some in H. by inversion H. }
  simpl in H. simpl. destruct (Feed.applicable m' s); [|by apply IH].
  apply fbind_Some in H as [(a & s0 & H0 & H)|(ex & _ & ?)]; [|done].
  apply fbind_Some in H as [(b & s2 & H2 & H)|(ex & _ & ?)]; [|done].
  apply fbind_Some in H as [(c & s3 & H3 & H)|(ex & _ & ?)]; [|done].
  apply fbind_Some in H as [(d & s4 & H4 & H)|(ex & _ & ?)]; [|done].
  unfold Feed.fbind at 1. rewrite H0.
  unfold Feed.fbind at 1. rewrite H2.
  unfold Feed.fbind at 1. rewrite H3.
  unfold Feed.fbind at 1. rewrite H4.
  destruct (Feed.__abort s4) eqn:Hs4.
  - apply total_Some in H. inversion H; subst. congruence.
  - by apply IH.
Qed.

Lemma elem_of_calls event keyword h :
  (event, keyword) ∈ calls h ↔ Feed.Called event keyword ∈ h.
Proof.
  unfold calls. rewrite list_elem_of_omap. split.
  - intros (o & Ho & Heq). destruct o; try done. by inversion Heq; subst.
  - intros H. by exists (Feed.Called event keyword).
Qed.

(** A fault of a module call is recorded, and [abort()] is called. *)
Lemma fault_handled hook m event s0 ex s1 :
  Feed.invoke manager hook m event s0 = Some (Raise ex, s1) →
  (∀ log_once, ex ≠ ModuleWarning log_once) →
  Feed.try_except (Feed.invoke manager hook m event)
    (Feed.handler hook (Feed.Manager.name m)) s0
  = hook false (Feed.record (Feed.Unhandled (Feed.Manager.name m)) s1).
Proof.
  intros Hcall Hex. unfold Feed.try_except. rewrite Hcall.
  destruct ex; try done. by destruct (Hex log_once).
Qed.

Lemma after_fault_abort fuel keyword s1 r s' :
  Feed.abort manager fuel false (Feed.record (Feed.Unhandled keyword) s1)
  = Some (r, s') →
  after_fault keyword s1 s'.
Proof.
  unfold Feed.abort, Feed.abort_with. intros H.
  set (sA := Feed.abort_enter false
               (Feed.record (Feed.Unhandled keyword) s1)) in H.
  destruct (run_event_only_calls manager fuel sA sA r s' H eq_refl eq_refl)
    as (Hflag & _ & h & Hh & Hcalls).
  split; [done|].
  exists ((if negb (Feed.__abort s1) && negb false then [Feed.Aborting] else [])
          ++ h).
  split.
  - rewrite Hh. unfold sA, Feed.abort_enter. simpl.
    destruct (negb (Feed.__abort s1)); simpl; by rewrite <- !app_assoc.
  - intros event k [Hin|Hin]%elem_of_app.
    + destruct (negb _ && negb _).
      * by apply list_elem_of_singleton in Hin.
      * by apply elem_of_nil in Hin.
    + apply elem_of_calls, Hcalls in Hin. unfold abort_target in Hin.
      destruct (first_applicable _ _); simpl in Hin; by inversion Hin.
Qed.

Lemma after_fault_pass keyword kind s1 s2 s' n l :
  after_fault keyword s1 s2 →
  s' = Feed.set_purged n (Feed.set_entries l (Feed.record (Feed.Purged kind) s2)) →
  after_fault keyword s1 s'.
Proof.
  intros (Hflag & h & Hh & Hcalls) ->. split; [done|].
  exists (h ++ [Feed.Purged kind]). simpl. rewrite Hh.
  split; [by rewrite <- app_assoc|].
  intros event k [Hin|Hin]%elem_of_app; [by eapply Hcalls|].
  by apply list_elem_of_singleton in Hin.
Qed.

Lemma fault_turn fuel event m rest s_m ex s1 r' s' :
  Feed.applicable m s_m = true →
  Feed.invoke manager (Feed.abort_with (Feed.__run_event manager fuel)) m event
    (Feed.set_current event (Feed.Manager.name m) s_m)
  = Some (Raise ex, s1) →
  (∀ log_once, ex ≠ ModuleWarning log_once) →
  Feed.dispatch manager (Feed.abort_with (Feed.__run_event manager fuel))
    event (m :: rest) s_m = Some (r', s') →
  after_fault (Feed.Manager.name m) s1 s'.
Proof.
  intros Happ Hcall Hex H. simpl in H. rewrite Happ in H.
  apply fbind_Some in H as [(a & s0 & H0 & H)|(e & H0 & _)];
    apply total_Some in H0; [|done].
  unfold Feed.modify in H0. inversion H0; subst. clear H0.
  assert (∀ r2 s2,
    Feed.try_except
      (Feed.invoke manager (Feed.abort_with (Feed.__run_event manager fuel))
         m event)
      (Feed.handler (Feed.abort_with (Feed.__run_event manager fuel))
         (Feed.Manager.name m))
      (Feed.set_current event (Feed.Manager.name m) s_m) = Some (r2, s2) →
    after_fault (Feed.Manager.name m) s1 s2) as Hturn.
  { intros r2 s2 H2. rewrite (fault_handled _ _ _ _ _ _ Hcall Hex) in H2.
    by eapply after_fault_abort. }
  apply fbind_Some in H as [(b & s2 & H2 & H)|(e & H2 & _)];
    [|by eapply Hturn].
  apply Hturn in H2.
  destruct (purge_rejected_frame s2) as (n3 & l3 & Hs3).
  apply fbind_Some in H as [(c & s3 & H3 & H)|(e & H3 & _)];
    apply total_Some in H3; rewrite H3 in Hs3; simpl in Hs3;
    [|by eapply after_fault_pass].
  assert (after_fault (Feed.Manager.name m) s1 s3) as Hs3'
    by by eapply after_fault_pass.
  destruct (purge_failed_frame s3) as (n4 & l4 & Hs4).
  apply fbind_Some in H as [(d & s4 & H4 & H)|(e & H4 & _)];
    apply total_Some in H4; rewrite H4 in Hs4; simpl in Hs4;
    [|by eapply after_fault_pass].
  assert (after_fault (Feed.Manager.name m) s1 s4) as Hs4'
    by by eapply after_fault_pass.
  destruct Hs4' as [Hflag Hrest]. rewrite Hflag in H.
  apply total_Some in H. inversion H; subst. by split.
Qed.

Lemma run_phase_after fuel event s r1 sx r s2 :
  Feed.__run_event manager fuel event s = Some (r1, sx) →
  Feed.run_phase manager fuel event s = Some (r, s2) →
  s2 = sx
  ∨ ∃ n l, s2 = Feed.set_purged n
                  (Feed.set_entries l
                     (Feed.record (Feed.Purged Feed.Filtered) sx)).
Proof.
  unfold Feed.run_phase. intros H1 H.
  unfold Feed.fbind at 1 in H. rewrite H1 in H.
  destruct r1; [|left; by inversion H]. right.
  destruct (purge_filtered_frame sx) as (n & l & Hs).
  apply fbind_Some in H as [(a' & s3 & H2 & H)|(ex & H2 & _)];
    apply total_Some in H2; rewrite H2 in Hs; simpl in Hs;
    [|by exists n, l].
  exists n, l. rewrite <- Hs. apply total_Some in H.
  case_bool_decide.
  - pose proof (verbose_details_entries_state manager s3) as Hv.
    by rewrite H in Hv.
  - by inversion H.
Qed.

(** C2, as the code has it. The modules of an event before [m] have had
    their turn and the feed is not aborted; the call of [m] then raises
    an exception that is not a [ModuleWarning]. The except clause
    records the fault and calls [abort()]. When the dispatch of the
    event returns, the abort flag is set, and the only module calls made
    after the fault are those of the ['abort'] event: no later module of
    the event and no module of a later event is called. The loop of
    [execute] gives what it gives without the later events, it ends with
    the flag set, and a [terminate()] that follows returns at once: it
    changes nothing and calls no module. With quiet modules for the
    ['abort'] event, the loop does return. *)
Theorem fault_aborts_run fuel event later s pre m rest s_m ex s1 :
  let hook := Feed.abort_with (Feed.__run_event manager (S fuel)) in
  Feed.skipped manager event = false →
  Feed.sorted_modules manager event s = pre ++ m :: rest →
  Feed.dispatch manager hook event pre s = Some (Ok tt, s_m) →
  Feed.__abort s_m = false →
  Feed.applicable m s_m = true →
  Feed.invoke manager hook m event
    (Feed.set_current event (Feed.Manager.name m) s_m)
  = Some (Raise ex, s1) →
  (∀ log_once, ex ≠ ModuleWarning log_once) →
  Feed.try_except (Feed.invoke manager hook m event)
    (Feed.handler hook (Feed.Manager.name m))
    (Feed.set_current event (Feed.Manager.name m) s_m)
  = Feed.abort manager (S fuel) false
      (Feed.record (Feed.Unhandled (Feed.Manager.name m)) s1)
  ∧ (∀ r' s',
       Feed.__run_event manager (S (S fuel)) event s = Some (r', s') →
       after_fault (Feed.Manager.name m) s1 s')
  ∧ Feed.run_events manager (S (S fuel)) (event :: later) s
    = Feed.run_events manager (S (S fuel)) [event] s
  ∧ (∀ r' s',
       Feed.run_events manager (S (S fuel)) (event :: later) s
       = Some (r', s') →
       after_fault (Feed.Manager.name m) s1 s'
       ∧ ∀ fuel', Feed.terminate manager fuel' s' = Some (Ok tt, s'))
  ∧ (quiet_abort manager →
     ∃ r' s',
       Feed.run_events manager (S (S fuel)) (event :: later) s
       = Some (r', s')).
Proof.
  intros hook Hskip Hsorted Hpre Hflag Happ Hcall Hex. subst hook.
  assert (∀ r' s',
            Feed.__run_event manager (S (S fuel)) event s = Some (r', s') →
            after_fault (Feed.Manager.name m) s1 s') as Hrun.
  { intros r' s' H.
    change (Feed.__run_event manager (S (S fuel)) event s)
      with (Feed.dispatch manager
              (Feed.abort_with (Feed.__run_event manager (S fuel)))
              event (Feed.sorted_modules manager event s) s) in H.
    rewrite Hsorted in H.
    rewrite (dispatch_app_unaborted _ event pre (m :: rest) s s_m Hpre Hflag)
      in H.
    by eapply fault_turn. }
  assert (Feed.run_events manager (S (S fuel)) (event :: later) s
          = Feed.run_events manager (S (S fuel)) [event] s) as Hstop.
  { destruct (Feed.__run_event manager (S (S fuel)) event s)
      as [[r1 sx]|] eqn:H1.
    - eapply run_events_stop; [done|exact H1|]. by destruct (Hrun _ _ eq_refl).
    - assert (Feed.run_phase manager (S (S fuel)) event s = None) as Hn.
      { unfold Feed.run_phase, Feed.fbind. by rewrite H1. }
      cbn [Feed.run_events]. rewrite Hskip. unfold Feed.fbind.
      by rewrite Hn. }
  split; [exact (fault_handled _ _ _ _ _ _ Hcall Hex)|].
  split; [done|]. split; [done|].
  split; [|intros Hq; by apply run_events_total].
  intros r' s' H. rewrite Hstop in H. cbn [Feed.run_events] in H.
  rewrite Hskip in H.
  assert (after_fault (Feed.Manager.name m) s1 s') as Hs'.
  { assert (∀ r2 s2,
              Feed.run_phase manager (S (S fuel)) event s = Some (r2, s2) →
              after_fault (Feed.Manager.name m) s1 s2) as Hphase.
    { intros r2 s2 H2.
      destruct (Feed.__run_event manager (S (S fuel)) event s)
        as [[r1 sx]|] eqn:H1.
      - destruct (run_phase_after _ _ _ _ _ _ _ H1 H2) as [->|(n & l & Hs)].
        + by apply (Hrun r1).
        + eapply after_fault_pass; [by apply (Hrun r1)|exact Hs].
      - unfold Feed.run_phase, Feed.fbind in H2. by rewrite H1 in H2. }
    apply fbind_Some in H as [(a & s2 & H2 & H)|(e & H2 & _)];
      [|by eapply Hphase].
    pose proof (Hphase _ _ H2) as Hs2. destruct Hs2 as [Hf2 Hh2].
    rewrite Hf2 in H. apply total_Some in H. inversion H; subst. by split. }
  split; [done|]. intros fuel'. apply terminate_aborted. by destruct Hs'.
Qed.

End Termination.

Lemma fault_aborts_run_witness :
  Feed.__abort after_filter = true
  ∧ Feed.Unhandled "boom" ∈ Feed.history after_filter
  ∧ Feed.run_events faulty_manager 2 ["filter"; "output"] before_filter
    = Feed.run_events faulty_manager 2 ["filter"] before_filter.
Proof.
  destruct (fault_aborts_run faulty_manager 0 "filter" ["output"]
              before_filter []
              (plugin "boom" false [] "feed_filter"
                 (Feed.PRaise OtherException))
              [] before_filter OtherException
              (Feed.record (Feed.Called "filter" "boom")
                 (Feed.set_current "filter" "boom" before_filter)))
    as (_ & H2 & H3 & _).
  - reflexivity.
  - vm_compute. reflexivity.
  - reflexivity.
  - reflexivity.
  - vm_compute. reflexivity.
  - vm_compute. reflexivity.
  - intros log_once H. discriminate H.
  - destruct (H2 (Ok tt) after_filter) as (Hf & h & Hh & _).
    + vm_compute. reflexivity.
    + split; [exact Hf|]. split; [|exact H3].
      rewrite Hh. apply elem_of_app. right. left.
Defined.

(** C2, as the specification states it, fails: after a fault in the
    ['filter'] event, [terminate()] runs the ['terminate'] event zero
    times, not once, although a builtin module is registered for it. *)
Lemma terminate_after_fault_runs_nothing :
  ∃ s1 s2,
    Feed.execute faulty_manager 2 faulty_feed = Some (Ok tt, s1)
    ∧ Feed.Unhandled "boom" ∈ Feed.history s1
    ∧ Feed.terminate faulty_manager 2 s1 = Some (Ok tt, s2)
    ∧ filter (λ c, c.1 = "terminate") (calls (Feed.history s2)) = []
    ∧ (Feed.Manager.name <$> filter (λ m, Feed.applicable m s1 = true)
         (Feed.sorted_modules faulty_manager "terminate" s1)) = ["bye"].
Proof.
  eexists _, _. split; [vm_compute; reflexivity|].
  split; [|split; [vm_compute; reflexivity|]].
  - vm_compute. do 5 right. by left.
  - vm_compute. split; reflexivity.
Qed.

(** ** The filtered-purge *)

Section FilteredPurge.
Variable manager : Feed.Manager.t.
Implicit Types (s : Feed.t) (entry : Entry.t).

Lemma list_remove_other entry x l l' :
  Feed.list_remove entry l = Ok l' → x ∈ l → x ≠ entry → x ∈ l'.
Proof.
  revert l'. induction l as [|y l IH]; intros l' Hrm Hin Hne; [done|].
  simpl in Hrm. case_bool_decide as Hy.
  - inversion Hrm; subst. by apply elem_of_cons in Hin as [->|?].
  - destruct (Feed.list_remove entry l) as [r|]; [|done].
    inversion Hrm; subst.
    apply elem_of_cons in Hin as [->|Hin]; [by left|right; by apply IH].
Qed.



(** A pass that ends normally has removed exactly what was to be
    purged. *)
Lemma purge_loop_ok sel notin count snapshot pre s s' :
  pass_frame sel → pass_frame notin →
  Feed.entries s = pre ++ snapshot →
  (∀ entry, entry ∈ pre → ¬ purgeable sel notin s entry) →
  Feed.purge_loop sel notin count snapshot s = (Ok tt, s') →
  Feed.entries s'
  = pre ++ filter (λ entry, ¬ purgeable sel notin s entry) snapshot.
Proof.
  intros Hsel Hnotin. revert pre s.
  induction snapshot as [|entry rest IH]; intros pre s Hentries Hpre H.
  - simpl in H. inversion H; subst. by rewrite Hentries.
  - simpl in H.
    destruct (decide (purgeable sel notin s entry)) as [Hp|Hp].
    + pose proof Hp as [Hp1 Hp2].
      rewrite (bool_decide_eq_true_2 _ Hp1), (bool_decide_eq_false_2 _ Hp2) in H.
      simpl in H. unfold Feed.bind at 1, Feed.lift at 1 in H.
      destruct (Entry.safe_str entry); [|done].
      unfold Feed.bind at 1, Feed.lift at 1 in H. rewrite Hentries in H.
      rewrite list_remove_first in H
        by (intros Hin'; by apply (Hpre entry)).
      unfold Feed.bind at 1, Feed.modify at 1 in H.
      rewrite filter_cons_False by (intros Hn; by apply Hn).
      destruct count.
      * unfold Feed.bind at 1, Feed.modify at 1 in H.
        apply (IH pre) in H; [| done |].
        -- rewrite H. f_equal. apply list_filter_iff. intros x.
           unfold purgeable. by rewrite (Hsel s), (Hnotin s).
        -- intros x Hx. unfold purgeable. rewrite (Hsel s), (Hnotin s).
           by apply Hpre.
      * unfold Feed.bind at 1, Feed.ret at 1 in H.
        pose proof (Hsel s (pre ++ rest) (Feed.__purged s)) as H1.
        pose proof (Hnotin s (pre ++ rest) (Feed.__purged s)) as H2.
        assert (Feed.set_purged (Feed.__purged s)
                  (Feed.set_entries (pre ++ rest) s)
                = Feed.set_entries (pre ++ rest) s) as Heta by by destruct s.
        rewrite Heta in H1, H2.
        apply (IH pre) in H; [| done |].
        -- rewrite H. f_equal. apply list_filter_iff. intros x.
           unfold purgeable. by rewrite H1, H2.
        -- intros x Hx. unfold purgeable. rewrite H1, H2. by apply Hpre.
    + assert (bool_decide (entry ∈ sel s)
              && negb (bool_decide (entry ∈ notin s)) = false) as Hcond.
      { apply andb_false_iff. unfold purgeable in Hp.
        destruct (decide (entry ∈ sel s)) as [Hi|Hi].
        - right. apply negb_false_iff, bool_decide_eq_true_2.
          destruct (decide (entry ∈ notin s)); [done|]. by destruct Hp.
        - left. by apply bool_decide_eq_false_2. }
      rewrite Hcond in H. rewrite filter_cons_True by done.
      apply (IH (pre ++ [entry])) in H.
      * by rewrite H, <- app_assoc.
      * by rewrite <- app_assoc.
      * intros x [Hx| ->%list_elem_of_singleton]%elem_of_app;
          [by apply Hpre|done].
Qed.

Lemma purge_filtered_ok s s' :
  Feed._purge s = (Ok tt, s') →
  Feed.entries s'
  = filter (λ entry, ¬ (entry ∈ Feed.filtered s ∧ entry ∉ Feed.accepted s))
           (Feed.entries s)
  ∧ Feed.history s' = Feed.history s ++ [Feed.Purged Feed.Filtered]
  ∧ Feed.accepted s' = Feed.accepted s
  ∧ Feed.filtered s' = Feed.filtered s.
Proof.
  intros H. destruct (purge_filtered_frame s) as (n & l & Hs).
  rewrite H in Hs. simpl in Hs. split; [|by subst s'].
  unfold Feed._purge, Feed.bind, Feed.modify, Feed.__purge in H.
  apply (purge_loop_ok _ _ _ _ []) in H;
    [done|apply pass_frame_filtered|apply pass_frame_accepted|done|].
  intros entry Hin. by apply elem_of_nil in Hin.
Qed.





End FilteredPurge.




(** * Further properties *)

(** ** Entry: assignments, construction, validity *)

Section EntryFurther.
Implicit Types (e : Entry.t) (v : value) (ops : list (string * value)).

Lemma setitem_same key v e : Entry.setitem key v e !! key = Some v.
Proof. unfold Entry.setitem. by rewrite lookup_insert_eq. Qed.

Lemma setitem_other key v e k :
  k ≠ key → (k ≠ "original_url" ∨ key ≠ "url") →
  Entry.setitem key v e !! k = e !! k.
Proof.
  intros Hk Hor. unfold Entry.setitem. rewrite lookup_insert_ne by done.
  case_bool_decide as Hurl; [|done].
  destruct (Entry.contains "original_url" e); simpl; [done|].
  destruct Hor as [Hor|Hor]; [|done]. by rewrite lookup_insert_ne.
Qed.

Lemma setitem_keeps key v e k :
  is_Some (e !! k) → is_Some (Entry.setitem key v e !! k).
Proof.
  intros Hsome. destruct (decide (k = key)) as [->|Hne].
  { rewrite setitem_same. by eexists. }
  destruct (decide (k = "original_url")) as [->|Hor].
  - rewrite setitem_original_url by done. destruct Hsome as [o ->]. by eexists.
  - rewrite setitem_other by auto. done.
Qed.

(** X1. After [self[key] = v] the entry holds [v] under [key]; every
    other key keeps its value, except that the first assignment to ['url']
    also fills ['original_url']; no key is ever lost. *)
Theorem setitem_lookup key v e k :
  Entry.setitem key v e !! key = Some v
  ∧ (k ≠ key → (k ≠ "original_url" ∨ key ≠ "url") →
     Entry.setitem key v e !! k = e !! k)
  ∧ (is_Some (e !! k) → is_Some (Entry.setitem key v e !! k)).
Proof.
  split; [apply setitem_same|]. split; [apply setitem_other|].
  apply setitem_keeps.
Qed.

Lemma setitem_lookup_witness :
  Entry.setitem "url" (VStr "u2") sample_entry !! "url" = Some (VStr "u2")
  ∧ Entry.setitem "url" (VStr "u2") sample_entry !! "title"
    = Some (VStr "title")
  ∧ is_Some (Entry.setitem "url" (VStr "u2") sample_entry !! "original_url").
Proof.
  destruct (setitem_lookup "url" (VStr "u2") sample_entry "title")
    as (H1 & H2 & _).
  destruct (setitem_lookup "url" (VStr "u2") sample_entry "original_url")
    as (_ & _ & H3).
  split; [exact H1|]. split.
  - rewrite H2; [vm_compute; reflexivity|discriminate|left; discriminate].
  - apply H3. eexists. reflexivity.
Defined.

(** X2. [Entry(title, url)] holds exactly the three fields ['title'],
    ['url'] and ['original_url'] (the url), is valid and prints as
    "title | url". With any other number of arguments the constructor
    drops them: the entry is empty and not valid. *)
Theorem init_arity args :
  (length args ≠ 2%nat →
   Entry.init args = ∅ ∧ Entry.isvalid (Entry.init args) = false)
  ∧ (∀ title url, args = [title; url] →
       Entry.init args
       = <["url" := url]> (<["original_url" := url]> {["title" := title]})
       ∧ Entry.isvalid (Entry.init args) = true
       ∧ Entry.safe_str (Entry.init args)
         = Ok (str title +:+ " | " +:+ str url)).
Proof.
  split.
  - intros Hlen. destruct args as [|a [|b [|c args]]]; try done.
  - intros title url ->.
    assert (Heq : Entry.init [title; url]
              = <["url" := url]> (<["original_url" := url]> {["title" := title]})).
    { unfold Entry.init, Entry.setitem. simpl.
      rewrite insert_empty.
      assert (Entry.contains "original_url" ({["title" := title]} : Entry.t)
              = false) as ->; [|done].
      apply contains_false. by rewrite lookup_singleton_ne. }
    split; [done|]. rewrite Heq. split.
    + unfold Entry.isvalid.
      assert (Entry.contains "title"
                (<["url" := url]> (<["original_url" := url]>
                   ({["title" := title]} : Entry.t))) = true) as ->; [|done].
      apply contains_true. rewrite !lookup_insert_ne by done.
      rewrite lookup_singleton_eq. by eexists.
    + apply safe_str_ok.
      * rewrite !lookup_insert_ne by done. by rewrite lookup_singleton_eq.
      * by rewrite lookup_insert_eq.
Qed.

Lemma init_arity_witness :
  Entry.init [VStr "only a title"] = ∅
  ∧ Entry.safe_str (Entry.init [VStr "a"; VInt 7]) = Ok "a | 7".
Proof.
  destruct (init_arity [VStr "only a title"]) as (H1 & _).
  destruct (init_arity [VStr "a"; VInt 7]) as (_ & H2).
  split.
  - apply H1. simpl. lia.
  - destruct (H2 (VStr "a") (VInt 7) eq_refl) as (_ & _ & H3). exact H3.
Defined.

Lemma isvalid_title e : Entry.isvalid e = true ↔ is_Some (e !! "title").
Proof.
  unfold Entry.isvalid. rewrite <- contains_true.
  destruct (Entry.contains "title" e); simpl; [|done].
  by destruct (Entry.contains "url" e).
Qed.

(** X3. An entry is valid exactly when it has a ['title']; whether it has
    a ['url'] plays no part, and item assignments never make a valid entry
    invalid. *)
Theorem isvalid_only_title e ops v :
  (Entry.isvalid e = true ↔ is_Some (e !! "title"))
  ∧ Entry.isvalid (Entry.setitem "url" v e) = Entry.isvalid e
  ∧ Entry.isvalid (delete "url" e) = Entry.isvalid e
  ∧ (Entry.isvalid e = true → Entry.isvalid (Entry.assign ops e) = true).
Proof.
  assert (Hbool : ∀ e1 e2, (is_Some (e1 !! "title") ↔ is_Some (e2 !! "title")) →
                           Entry.isvalid e1 = Entry.isvalid e2).
  { intros e1 e2 H. destruct (Entry.isvalid e1) eqn:H1.
    - symmetry. apply isvalid_title, H, isvalid_title, H1.
    - destruct (Entry.isvalid e2) eqn:H2; [|done].
      apply isvalid_title, H, isvalid_title in H2. congruence. }
  split; [apply isvalid_title|]. split; [|split].
  - apply Hbool. rewrite setitem_other; [done|done|by left].
  - apply Hbool. by rewrite lookup_delete_ne.
  - revert e. induction ops as [|[k w] ops IH]; intros e He; [done|].
    unfold Entry.assign in *. simpl. apply IH.
    apply isvalid_title. apply isvalid_title in He.
    by apply setitem_keeps.
Qed.

Lemma isvalid_only_title_witness :
  Entry.isvalid (Entry.assign [("url", VStr "u"); ("title", VNone)]
                   {["title" := VStr "a"]}) = true.
Proof.
  destruct (isvalid_only_title {["title" := VStr "a"]}
              [("url", VStr "u"); ("title", VNone)] VNone) as (_ & _ & _ & H).
  apply H. reflexivity.
Defined.

(** X4. [safe_str] returns a text exactly for the entries that have both
    a ['title'] and a ['url']; otherwise it raises a [KeyError], which
    names ['title'] whenever the title is missing, also when the url is
    missing too. *)
Theorem safe_str_ok_iff e :
  (is_ok (Entry.safe_str e) = true ↔ Entry.well_formed e)
  ∧ (e !! "title" = None → Entry.safe_str e = Raise (KeyError "title"))
  ∧ (∀ ex, Entry.safe_str e = Raise ex →
           ex = KeyError "title" ∨ ex = KeyError "url").
Proof.
  unfold Entry.safe_str, Entry.getitem, Entry.well_formed.
  destruct (e !! "title") as [t|], (e !! "url") as [u|]; simpl.
  - split; [|split]; [|done|done]. split; [intros _; split; by eexists|done].
  - split; [|split]; [|done|].
    + split; [done|]. by intros [_ [? ?]].
    + intros ex [= <-]. by right.
  - split; [|split]; [|done|].
    + split; [done|]. by intros [[? ?] _].
    + intros ex [= <-]. by left.
  - split; [|split]; [|done|].
    + split; [done|]. by intros [[? ?] _].
    + intros ex [= <-]. by left.
Qed.

Lemma safe_str_ok_iff_witness :
  Entry.safe_str ∅ = Raise (KeyError "title")
  ∧ Entry.safe_str untitled_entry = Raise (KeyError "title").
Proof.
  destruct (safe_str_ok_iff ∅) as (_ & H1 & _).
  destruct (safe_str_ok_iff untitled_entry) as (_ & H2 & _).
  split; [apply H1|apply H2]; reflexivity.
Defined.

End EntryFurther.

(** ** Classification: what the four lists keep *)

Section ClassificationFurther.
Implicit Types (s : Feed.t) (entry : Entry.t) (c : classification).

Lemma accept_accepted entry s : entry ∈ Feed.accepted (Feed.accept entry s).2.
Proof.
  rewrite accept_state. case_bool_decide as Ha; [done|]. simpl.
  case_bool_decide.
  - destruct (Feed.list_remove entry (Feed.filtered s)); simpl;
      apply elem_of_app; right; by left.
  - simpl. apply elem_of_app; right; by left.
Qed.

Lemma NoDup_snoc (l : list Entry.t) entry :
  NoDup l → entry ∉ l → NoDup (l ++ [entry]).
Proof.
  intros Hnd Hnot. apply NoDup_app. split; [done|].
  split; [|apply NoDup_singleton].
  intros x Hx ->%list_elem_of_singleton. done.
Qed.

Lemma classify_tidy c s : tidy s → tidy (classify c s).2.
Proof.
  intros (Ha & Hf & Hr & Hx & Hm).
  destruct c as [entry|entry|entry|entry]; simpl.
  - rewrite accept_state. case_bool_decide as Hacc; [done|]. simpl.
    case_bool_decide as Hfil.
    + destruct (list_remove_elem entry _ Hfil) as (l & Hl & _). rewrite Hl.
      destruct (list_remove_NoDup _ _ _ Hf Hl) as (_ & Hnd & _).
      repeat split; simpl; try done. by apply NoDup_snoc.
    + repeat split; simpl; try done. by apply NoDup_snoc.
  - rewrite filter_state. case_bool_decide as Hfil; simpl; [done|].
    case_bool_decide as Hacc; [done|].
    repeat split; simpl; try done. by apply NoDup_snoc.
  - rewrite reject_state. case_bool_decide as Hrej; [done|].
    repeat split; simpl; try done. by apply NoDup_snoc.
  - rewrite fail_state. case_bool_decide as Hfail; [done|].
    destruct (is_ok _); [|done].
    repeat split; simpl; try done; [by apply NoDup_snoc|by rewrite Hm].
Qed.

Lemma classify_entries c s :
  Feed.entries (classify c s).2 = Feed.entries s
  ∧ Feed.__purged (classify c s).2 = Feed.__purged s.
Proof.
  destruct c as [entry|entry|entry|entry]; simpl.
  - rewrite accept_state. case_bool_decide; [done|]. simpl.
    case_bool_decide; [|done].
    by destruct (Feed.list_remove entry (Feed.filtered s)).
  - rewrite filter_state. by destruct (bool_decide _ || bool_decide _).
  - rewrite reject_state. by case_bool_decide.
  - rewrite fail_state. case_bool_decide; [done|]. by destruct (is_ok _).
Qed.

(** X5. In every state that a feed reaches from its construction by
    classification calls, none of the four lists holds an entry twice,
    [manager.add_failed] has been called once for each failed entry, in
    order, and the working set and the purge counter are as at the
    construction: classification alone removes nothing. *)
Theorem classification_keeps_lists_tidy name config cs :
  let s := classify_all cs (Feed.init name config) in
  NoDup (Feed.accepted s) ∧ NoDup (Feed.filtered s)
  ∧ NoDup (Feed.rejected s) ∧ NoDup (Feed.failed s)
  ∧ Feed.manager_failed s = Feed.failed s
  ∧ Feed.entries s = [] ∧ Feed.__purged s = 0.
Proof.
  intros s.
  assert (∀ cs s0, tidy s0 →
            tidy (classify_all cs s0)
            ∧ Feed.entries (classify_all cs s0) = Feed.entries s0
            ∧ Feed.__purged (classify_all cs s0) = Feed.__purged s0) as H.
  { clear. induction cs as [|c cs IH]; intros s0 Ht; [done|].
    simpl. destruct (IH (classify c s0).2 (classify_tidy c s0 Ht))
      as (H1 & H2 & H3).
    destruct (classify_entries c s0) as [H4 H5].
    split; [done|]. split; congruence. }
  destruct (H cs (Feed.init name config)) as ((Ha & Hf & Hr & Hx & Hm) & He & Hp).
  { repeat split; simpl; try constructor. }
  done.
Qed.

(** X6. A classification call never takes an entry out of [accepted],
    [rejected] or [failed]; the only entry that can leave [filtered] is
    the one that the call accepts. *)
Theorem classification_only_grows c s x :
  (x ∈ Feed.accepted s → x ∈ Feed.accepted (classify c s).2)
  ∧ (x ∈ Feed.rejected s → x ∈ Feed.rejected (classify c s).2)
  ∧ (x ∈ Feed.failed s → x ∈ Feed.failed (classify c s).2)
  ∧ (x ∈ Feed.filtered s →
     x ∈ Feed.filtered (classify c s).2
     ∨ (c = Accepting x ∧ x ∈ Feed.accepted (classify c s).2)).
Proof.
  destruct c as [entry|entry|entry|entry]; simpl.
  - pose proof (accept_accepted entry s) as Hin. rewrite accept_state in *.
    case_bool_decide as Hacc; [by auto|]. simpl in *.
    case_bool_decide as Hfil.
    + destruct (list_remove_elem entry _ Hfil) as (l & Hl & _).
      rewrite Hl in *. simpl.
      split; [intros; apply elem_of_app; by left|]. split; [done|].
      split; [done|]. intros Hx.
      destruct (decide (x = entry)) as [->|Hne]; [by right|left].
      by eapply list_remove_other.
    + simpl. split; [intros; apply elem_of_app; by left|]. by auto.
  - rewrite filter_state. destruct (bool_decide _ || bool_decide _); [by auto|].
    simpl. repeat split; try done. intros; left; apply elem_of_app; by left.
  - rewrite reject_state. case_bool_decide; [by auto|]. simpl.
    repeat split; try done; [|by auto]. intros; apply elem_of_app; by left.
  - rewrite fail_state. case_bool_decide; [by auto|].
    destruct (is_ok _); [|by auto]. simpl.
    repeat split; try done; [|by auto]. intros; apply elem_of_app; by left.
Qed.

Lemma classification_only_grows_witness :
  sample_entry ∈ Feed.accepted (Feed.reject sample_entry doomed_feed).2
  ∧ sample_entry
    ∈ Feed.accepted
        (Feed.accept sample_entry
           (Feed.set_filtered [sample_entry] (Feed.init "feed" ∅))).2.
Proof.
  destruct (classification_only_grows (Rejecting sample_entry) doomed_feed
              sample_entry) as (H1 & _).
  destruct (classification_only_grows (Accepting sample_entry)
              (Feed.set_filtered [sample_entry] (Feed.init "feed" ∅))
              sample_entry) as (_ & _ & _ & H2).
  split.
  - apply H1. simpl. left.
  - destruct H2 as [H2|[_ H2]]; [simpl; left| |exact H2].
    exfalso. revert H2. vm_compute. intros H2. inversion H2.
Defined.

(** X7. Each classification call is idempotent on the state: a second
    identical call changes nothing. For [accept], [filter] and [reject]
    the second call also ends normally, even when the first one raised
    for want of a title. *)
Theorem classification_idempotent c s :
  (classify c (classify c s).2).2 = (classify c s).2
  ∧ ((∀ entry, c ≠ Failing entry) →
     (classify c (classify c s).2).1 = Ok tt).
Proof.
  destruct c as [entry|entry|entry|entry]; simpl.
  - pose proof (accept_accepted entry s) as Hin.
    split.
    + rewrite (accept_state entry (Feed.accept entry s).2).
      by rewrite bool_decide_eq_true_2.
    + intros _. unfold Feed.accept at 1. by rewrite bool_decide_eq_true_2.
  - assert (entry ∈ Feed.accepted (Feed.filter entry s).2
            ∨ entry ∈ Feed.filtered (Feed.filter entry s).2) as Hin.
    { rewrite filter_state.
      destruct (decide (entry ∈ Feed.filtered s)) as [Hf|Hf].
      { rewrite (bool_decide_eq_true_2 _ Hf). by right. }
      rewrite (bool_decide_eq_false_2 _ Hf). simpl.
      case_bool_decide; [by left|]. right. simpl.
      apply elem_of_app; right; by left. }
    by rewrite (filter_noop entry _ Hin).
  - assert (entry ∈ Feed.rejected (Feed.reject entry s).2) as Hin.
    { rewrite reject_state. case_bool_decide; [done|]. simpl.
      apply elem_of_app; right; by left. }
    split.
    + rewrite (reject_state entry (Feed.reject entry s).2).
      by rewrite bool_decide_eq_true_2.
    + intros _. unfold Feed.reject at 1. by rewrite bool_decide_eq_true_2.
  - split; [|intros H; by destruct (H entry)].
    rewrite (fail_state entry (Feed.fail entry s).2), (fail_state entry s).
    destruct (decide (entry ∈ Feed.failed s)) as [Hf|Hf].
    { by rewrite !(bool_decide_eq_true_2 _ Hf). }
    rewrite (bool_decide_eq_false_2 _ Hf).
    destruct (is_ok (Entry.getitem entry "title")) eqn:Hok.
    + rewrite bool_decide_eq_true_2; [done|]. simpl.
      apply elem_of_app; right; by left.
    + by rewrite (bool_decide_eq_false_2 _ Hf).
Qed.

Lemma classification_idempotent_witness :
  (Feed.reject untitled_entry (Feed.init "feed" ∅)).1 = Raise (KeyError "title")
  ∧ (Feed.reject untitled_entry
       (Feed.reject untitled_entry (Feed.init "feed" ∅)).2).1 = Ok tt.
Proof.
  destruct (classification_idempotent (Rejecting untitled_entry)
              (Feed.init "feed" ∅)) as (_ & H).
  split; [vm_compute; reflexivity|]. apply H. discriminate.
Defined.

(** X8. For an entry without a ['title'] the four calls raise
    [KeyError('title')], but not at the same point: [fail] raises before
    it changes anything, while [accept], [filter] and [reject] raise
    after the entry has been put into their list. *)
Theorem classification_without_title entry s :
  entry !! "title" = None →
  Feed.fail entry s = (Raise (KeyError "title"), s)
  ∧ (entry ∉ Feed.rejected s →
     Feed.reject entry s
     = (Raise (KeyError "title"),
        Feed.set_rejected (Feed.rejected s ++ [entry]) s))
  ∧ (entry ∉ Feed.filtered s → entry ∉ Feed.accepted s →
     Feed.filter entry s
     = (Raise (KeyError "title"),
        Feed.set_filtered (Feed.filtered s ++ [entry]) s))
  ∧ (entry ∉ Feed.accepted s →
     (Feed.accept entry s).1 = Raise (KeyError "title")
     ∧ entry ∈ Feed.accepted (Feed.accept entry s).2).
Proof.
  intros Ht.
  assert (Hmsg : ∀ s0, Feed.title_message entry s0 = (Raise (KeyError "title"), s0)).
  { intros s0. unfold Feed.title_message, Feed.bind, Feed.lift, Entry.getitem.
    by rewrite Ht. }
  split; [|split; [|split]].
  - unfold Feed.fail, Feed.bind. by rewrite Hmsg.
  - intros Hr. unfold Feed.reject. rewrite (bool_decide_eq_false_2 _ Hr). simpl.
    unfold Feed.bind, Feed.modify. by rewrite Hmsg.
  - intros Hf Ha. unfold Feed.filter.
    rewrite (bool_decide_eq_false_2 _ Hf), (bool_decide_eq_false_2 _ Ha). simpl.
    unfold Feed.bind, Feed.modify. by rewrite Hmsg.
  - intros Ha. split; [|apply accept_accepted].
    unfold Feed.accept. rewrite (bool_decide_eq_false_2 _ Ha). simpl.
    unfold Feed.bind at 1, Feed.modify at 1. simpl.
    case_bool_decide as Hf.
    + destruct (list_remove_elem entry _ Hf) as (l & Hl & _).
      unfold Feed.bind, Feed.lift, Feed.modify. simpl. rewrite Hl.
      by rewrite Hmsg.
    + by rewrite Hmsg.
Qed.

Lemma classification_without_title_witness :
  Feed.fail untitled_entry doomed_feed = (Raise (KeyError "title"), doomed_feed)
  ∧ untitled_entry ∈ Feed.accepted (Feed.accept untitled_entry doomed_feed).2.
Proof.
  destruct (classification_without_title untitled_entry doomed_feed)
    as (H1 & _ & _ & H2); [reflexivity|].
  split; [exact H1|]. apply H2.
  simpl. intros H. apply list_elem_of_singleton in H. revert H.
  vm_compute. discriminate.
Defined.

End ClassificationFurther.

(** ** Purging: counter, repetition, failure *)

Section PurgeFurther.
Implicit Types (s : Feed.t) (entry : Entry.t) (l : list Entry.t).

Lemma filter_complement_length (P : Entry.t → Prop) `{∀ x, Decision (P x)} l :
  (length (filter P l) + length (filter (λ x, ¬ P x) l) = length l)%nat.
Proof.
  induction l as [|x l IH]; [done|].
  rewrite !filter_cons. destruct (decide (P x)).
  - rewrite decide_False by tauto. simpl. lia.
  - rewrite decide_True by done. simpl. lia.
Qed.

(** A pass: the record of its start, then [__purge]. *)
Lemma pass_spec kind sel notin count s :
  pass_frame sel → pass_frame notin →
  (∀ o s0, sel (Feed.record o s0) = sel s0) →
  (∀ o s0, notin (Feed.record o s0) = notin s0) →
  (∀ entry, entry ∈ Feed.entries s → purgeable sel notin s entry →
            Entry.well_formed entry) →
  Feed.bind (Feed.modify (Feed.record (Feed.Purged kind)))
    (λ _, Feed.__purge sel notin count) s
  = (Ok tt,
     Feed.set_purged
       (Feed.__purged s +
        if count
        then Z.of_nat (length (filter (purgeable sel notin s) (Feed.entries s)))
        else 0)
       (Feed.set_entries
          (filter (λ entry, ¬ purgeable sel notin s entry) (Feed.entries s))
          (Feed.record (Feed.Purged kind) s))).
Proof.
  intros Hsel Hnotin Hrs Hrn Hwf. unfold Feed.bind, Feed.modify.
  assert (Hp : ∀ x, purgeable sel notin (Feed.record (Feed.Purged kind) s) x
                    ↔ purgeable sel notin s x).
  { intros x. unfold purgeable. by rewrite Hrs, Hrn. }
  rewrite purge_spec; [|done|done|].
  - simpl.
    rewrite (list_filter_iff _ _ (Feed.entries s)
               (λ x, iff_trans (Hp x) (iff_refl _))).
    assert (Hn : ∀ x, ¬ purgeable sel notin (Feed.record (Feed.Purged kind) s) x
                      ↔ ¬ purgeable sel notin s x).
    { intros x. by rewrite Hp. }
    by rewrite (list_filter_iff _ _ (Feed.entries s) Hn).
  - intros entry Hin Hpe. apply Hwf; [done|]. by apply Hp.
Qed.

(** X9. On a working set of well-formed entries the three passes end
    normally. The rejected-purge and the filtered-purge add to the purge
    counter the number of entries they remove; the failed-purge removes
    its entries without counting them. *)
Theorem purge_counts_removed s :
  Forall Entry.well_formed (Feed.entries s) →
  ∃ s1 s2 s3,
    Feed.__purge_rejected s = (Ok tt, s1)
    ∧ Feed.__purged s1 - Feed.__purged s
      = Z.of_nat (length (Feed.entries s)) - Z.of_nat (length (Feed.entries s1))
    ∧ Feed.__purge_failed s = (Ok tt, s2)
    ∧ Feed.__purged s2 = Feed.__purged s
    ∧ Feed.entries s2 = filter (λ x, x ∉ Feed.failed s) (Feed.entries s)
    ∧ Feed._purge s = (Ok tt, s3)
    ∧ Feed.__purged s3 - Feed.__purged s
      = Z.of_nat (length (Feed.entries s)) - Z.of_nat (length (Feed.entries s3)).
Proof.
  intros Hwf. rewrite Forall_forall in Hwf.
  eexists _, _, _.
  split; [apply pass_spec; auto using pass_frame_rejected, pass_frame_nil|].
  split.
  { simpl.
    pose proof (filter_complement_length
                  (purgeable Feed.rejected (λ _, []) s) (Feed.entries s)).
    lia. }
  split; [apply pass_spec; auto using pass_frame_failed, pass_frame_nil|].
  split; [simpl; lia|]. split.
  { simpl. apply list_filter_iff. intros x. unfold purgeable.
    rewrite elem_of_nil. tauto. }
  split; [apply pass_spec; auto using pass_frame_filtered, pass_frame_accepted|].
  simpl.
  pose proof (filter_complement_length
                (purgeable Feed.filtered Feed.accepted s) (Feed.entries s)).
  lia.
Qed.

Lemma purge_counts_removed_witness :
  ∃ s1, Feed.__purge_rejected doomed_feed = (Ok tt, s1)
        ∧ Feed.__purged s1 - Feed.__purged doomed_feed
          = Z.of_nat (length (Feed.entries doomed_feed))
            - Z.of_nat (length (Feed.entries s1)).
Proof.
  destruct (purge_counts_removed doomed_feed) as (s1 & _ & _ & H1 & H2 & _).
  - repeat constructor; eexists; reflexivity.
  - exists s1. split; [exact H1|exact H2].
Defined.

Lemma filter_idem (P : Entry.t → Prop) `{∀ x, Decision (P x)} l :
  filter P (filter P l) = filter P l
  ∧ filter (λ x, ¬ P x) (filter P l) = [].
Proof.
  induction l as [|x l [IH1 IH2]]; [done|].
  rewrite (filter_cons P). destruct (decide (P x)); [|done].
  rewrite !filter_cons, decide_True, decide_False by tauto.
  by rewrite IH1, IH2.
Qed.

(** X10. A pass that directly follows the same pass removes nothing and
    counts nothing: on well-formed entries the rejected-purge and the
    filtered-purge are idempotent on the working set and the counter. *)
Theorem purge_twice_removes_nothing s :
  Forall Entry.well_formed (Feed.entries s) →
  ∃ s1 s2 s3 s4,
    Feed.__purge_rejected s = (Ok tt, s1)
    ∧ Feed.__purge_rejected s1 = (Ok tt, s2)
    ∧ Feed.entries s2 = Feed.entries s1 ∧ Feed.__purged s2 = Feed.__purged s1
    ∧ Feed._purge s = (Ok tt, s3)
    ∧ Feed._purge s3 = (Ok tt, s4)
    ∧ Feed.entries s4 = Feed.entries s3 ∧ Feed.__purged s4 = Feed.__purged s3.
Proof.
  intros Hwf. rewrite Forall_forall in Hwf.
  assert (Hgen : ∀ kind sel notin,
    pass_frame sel → pass_frame notin →
    (∀ o s0, sel (Feed.record o s0) = sel s0) →
    (∀ o s0, notin (Feed.record o s0) = notin s0) →
    ∃ s1 s2,
      Feed.bind (Feed.modify (Feed.record (Feed.Purged kind)))
        (λ _, Feed.__purge sel notin true) s = (Ok tt, s1)
      ∧ Feed.bind (Feed.modify (Feed.record (Feed.Purged kind)))
          (λ _, Feed.__purge sel notin true) s1 = (Ok tt, s2)
      ∧ Feed.entries s2 = Feed.entries s1
      ∧ Feed.__purged s2 = Feed.__purged s1).
  { intros kind sel notin Hsel Hnotin Hrs Hrn.
    eexists _, _. split; [apply pass_spec; auto|].
    set (s1 := Feed.set_purged _ _).
    assert (Hp : ∀ x, purgeable sel notin s1 x ↔ purgeable sel notin s x).
    { intros x. unfold purgeable, s1. by rewrite (Hsel _), (Hnotin _), Hrs, Hrn. }
    split.
    { apply pass_spec; auto. intros x Hx _. apply Hwf.
      unfold s1 in Hx. simpl in Hx. by apply list_elem_of_filter in Hx as [_ ?]. }
    assert (Hn : ∀ x, ¬ purgeable sel notin s1 x ↔ ¬ purgeable sel notin s x).
    { intros x. by rewrite Hp. }
    destruct (filter_idem (λ x, ¬ purgeable sel notin s x) (Feed.entries s))
      as [H1 H2].
    simpl. split.
    - by rewrite (list_filter_iff _ _ _ Hn), H1.
    - rewrite (list_filter_iff _ _ _ Hp).
      assert (filter (purgeable sel notin s)
                (filter (λ x, ¬ purgeable sel notin s x) (Feed.entries s)) = [])
        as ->; [|simpl; lia].
      clear. induction (Feed.entries s) as [|x l IH]; [done|].
      rewrite (filter_cons (λ x, ¬ _)).
      destruct (decide (¬ purgeable sel notin s x)); [|done].
      by rewrite filter_cons, decide_False. }
  destruct (Hgen Feed.Rejected Feed.rejected (λ _, []))
    as (s1 & s2 & H1 & H2 & H3 & H4);
    auto using pass_frame_rejected, pass_frame_nil.
  destruct (Hgen Feed.Filtered Feed.filtered Feed.accepted)
    as (s3 & s4 & H5 & H6 & H7 & H8);
    auto using pass_frame_filtered, pass_frame_accepted.
  by exists s1, s2, s3, s4.
Qed.

Lemma purge_twice_removes_nothing_witness :
  ∃ s1 s2, Feed.__purge_rejected doomed_feed = (Ok tt, s1)
           ∧ Feed.__purge_rejected s1 = (Ok tt, s2)
           ∧ Feed.__purged s2 = Feed.__purged s1.
Proof.
  destruct (purge_twice_removes_nothing doomed_feed)
    as (s1 & s2 & _ & _ & H1 & H2 & _ & H3 & _).
  - repeat constructor; eexists; reflexivity.
  - exists s1, s2. split; [exact H1|]. split; [exact H2|exact H3].
Defined.

Lemma list_remove_sublist entry l l' :
  Feed.list_remove entry l = Ok l' → l' `sublist_of` l.
Proof.
  revert l'. induction l as [|y l IH]; intros l' H; [done|].
  simpl in H. case_bool_decide.
  - inversion H; subst. by apply sublist_cons.
  - destruct (Feed.list_remove entry l) as [r|]; [|done].
    inversion H; subst. apply sublist_skip. by apply IH.
Qed.

Lemma purge_loop_shrinks sel notin count snapshot s :
  ∃ n l, (Feed.purge_loop sel notin count snapshot s).2
         = Feed.set_purged n (Feed.set_entries l s)
         ∧ l `sublist_of` Feed.entries s
         ∧ Feed.__purged s ≤ n.
Proof.
  revert s. induction snapshot as [|entry rest IH]; intros s; simpl.
  { exists (Feed.__purged s), (Feed.entries s). by destruct s. }
  destruct (bool_decide (entry ∈ sel s) && negb (bool_decide (entry ∈ notin s)));
    [|apply IH].
  unfold Feed.bind at 1, Feed.lift at 1.
  destruct (Entry.safe_str entry).
  2:{ exists (Feed.__purged s), (Feed.entries s). by destruct s. }
  unfold Feed.bind at 1, Feed.lift at 1.
  destruct (Feed.list_remove entry (Feed.entries s)) as [l|] eqn:Hl.
  2:{ exists (Feed.__purged s), (Feed.entries s). by destruct s. }
  apply list_remove_sublist in Hl.
  unfold Feed.bind at 1, Feed.modify at 1.
  destruct count.
  - unfold Feed.bind at 1, Feed.modify at 1.
    destruct (IH (Feed.set_purged (Feed.__purged (Feed.set_entries l s) + 1)
                    (Feed.set_entries l s))) as (n & l' & -> & Hsub & Hn).
    exists n, l'. simpl in *. split; [done|]. split; [by etrans|lia].
  - unfold Feed.bind at 1, Feed.ret at 1.
    destruct (IH (Feed.set_entries l s)) as (n & l' & -> & Hsub & Hn).
    exists n, l'. simpl in *. split; [done|]. split; [by etrans|lia].
Qed.

(** X11. Whether it ends normally or raises, a pass only takes entries
    out of the working set: what is left is a sublist of what was there,
    in the same order; the counter does not go down; and the four
    classification lists, the configuration and the abort flag are
    untouched. *)
Theorem purge_only_shrinks s :
  (∃ n l, (Feed.__purge_rejected s).2
          = Feed.set_purged n
              (Feed.set_entries l (Feed.record (Feed.Purged Feed.Rejected) s))
          ∧ l `sublist_of` Feed.entries s ∧ Feed.__purged s ≤ n)
  ∧ (∃ n l, (Feed.__purge_failed s).2
            = Feed.set_purged n
                (Feed.set_entries l (Feed.record (Feed.Purged Feed.Failed) s))
            ∧ l `sublist_of` Feed.entries s ∧ Feed.__purged s ≤ n)
  ∧ (∃ n l, (Feed._purge s).2
            = Feed.set_purged n
                (Feed.set_entries l (Feed.record (Feed.Purged Feed.Filtered) s))
            ∧ l `sublist_of` Feed.entries s ∧ Feed.__purged s ≤ n).
Proof.
  split; [|split].
  - destruct (purge_loop_shrinks Feed.rejected (λ _, []) true (Feed.entries s)
                (Feed.record (Feed.Purged Feed.Rejected) s))
      as (n & l & H1 & H2 & H3).
    by exists n, l.
  - destruct (purge_loop_shrinks Feed.failed (λ _, []) false (Feed.entries s)
                (Feed.record (Feed.Purged Feed.Failed) s))
      as (n & l & H1 & H2 & H3).
    by exists n, l.
  - destruct (purge_loop_shrinks Feed.filtered Feed.accepted true
                (Feed.entries s)
                (Feed.record (Feed.Purged Feed.Filtered) s))
      as (n & l & H1 & H2 & H3).
    by exists n, l.
Qed.

Lemma safe_str_missing entry :
  ¬ Entry.well_formed entry →
  Entry.safe_str entry = Raise (KeyError (missing_key entry)).
Proof.
  unfold Entry.well_formed, Entry.safe_str, Entry.getitem, missing_key,
    Entry.contains.
  intros H. destruct (entry !! "title") as [t|] eqn:Ht.
  - rewrite bool_decide_eq_true_2 by by eexists.
    destruct (entry !! "url") as [u|]; [|done].
    destruct H. split; by eexists.
  - rewrite bool_decide_eq_false_2; [done|]. by intros [? ?].
Qed.

(** A pass stops at the first entry to be purged that is not well
    formed: what was to be purged before it is gone, it and what follows
    it stay. *)
Lemma purge_loop_stops sel notin count kept front x post s :
  pass_frame sel → pass_frame notin →
  Feed.entries s = kept ++ front ++ x :: post →
  (∀ entry, entry ∈ kept → ¬ purgeable sel notin s entry) →
  (∀ entry, entry ∈ front → purgeable sel notin s entry →
            Entry.well_formed entry) →
  purgeable sel notin s x → ¬ Entry.well_formed x →
  Feed.purge_loop sel notin count (front ++ x :: post) s =
    (Raise (KeyError (missing_key x)),
     Feed.set_purged
       (Feed.__purged s +
        if count
        then Z.of_nat (length (filter (purgeable sel notin s) front))
        else 0)
       (Feed.set_entries
          (kept ++ filter (λ entry, ¬ purgeable sel notin s entry) front
                ++ x :: post) s)).
Proof.
  intros Hsel Hnotin. revert kept s.
  induction front as [|entry rest IH]; intros kept s Hentries Hkept Hwf Hpx Hx.
  - simpl. destruct Hpx as [Hin Hout].
    rewrite (bool_decide_eq_true_2 _ Hin), (bool_decide_eq_false_2 _ Hout).
    simpl. unfold Feed.bind at 1, Feed.lift at 1.
    rewrite (safe_str_missing x Hx). simpl in Hentries. rewrite <- Hentries.
    destruct count; rewrite ?Z.add_0_r; by destruct s.
  - simpl.
    destruct (decide (purgeable sel notin s entry)) as [Hp|Hp].
    + pose proof Hp as [Hin Hout].
      rewrite (bool_decide_eq_true_2 _ Hin), (bool_decide_eq_false_2 _ Hout).
      simpl.
      destruct (safe_str_well_formed entry) as [text Htext].
      { apply Hwf; [by left|done]. }
      unfold Feed.bind at 1, Feed.lift at 1. rewrite Htext.
      unfold Feed.bind at 1, Feed.lift at 1. rewrite Hentries. simpl.
      rewrite list_remove_first by (intros Hin'; by apply (Hkept entry)).
      unfold Feed.bind at 1, Feed.modify at 1.
      rewrite filter_cons_True by done.
      rewrite filter_cons_False by (intros Hn; by apply Hn).
      destruct count.
      * unfold Feed.bind at 1, Feed.modify at 1.
        set (s1 := Feed.set_purged _ _).
        assert (Hs1 : ∀ y, purgeable sel notin s1 y ↔ purgeable sel notin s y).
        { intros y. unfold purgeable, s1.
          by rewrite (Hsel s), (Hnotin s). }
        rewrite (IH kept s1); [| done | | | by apply Hs1 | done].
        -- f_equal. unfold s1. simpl.
           rewrite (list_filter_iff (purgeable sel notin s1)
                      (purgeable sel notin s)) by (intros; apply Hs1).
           rewrite (list_filter_iff (λ y, ¬ purgeable sel notin s1 y)
                      (λ y, ¬ purgeable sel notin s y))
             by (intros; by rewrite Hs1).
           unfold Feed.set_purged, Feed.set_entries; simpl.
           f_equal. lia.
        -- intros y Hy. rewrite Hs1. by apply Hkept.
        -- intros y Hy. rewrite Hs1. apply Hwf. by right.
      * unfold Feed.bind at 1, Feed.ret at 1.
        set (s1 := Feed.set_entries _ _).
        assert (Hs1 : ∀ y, purgeable sel notin s1 y ↔ purgeable sel notin s y).
        { intros y. unfold purgeable, s1.
          pose proof (Hsel s (kept ++ rest ++ x :: post) (Feed.__purged s))
            as H1.
          pose proof (Hnotin s (kept ++ rest ++ x :: post) (Feed.__purged s))
            as H2.
          assert (Heta : Feed.set_purged (Feed.__purged s)
                           (Feed.set_entries (kept ++ rest ++ x :: post) s)
                         = Feed.set_entries (kept ++ rest ++ x :: post) s)
            by by destruct s.
          rewrite Heta in H1, H2. by rewrite H1, H2. }
        rewrite (IH kept s1); [| done | | | by apply Hs1 | done].
        -- f_equal. unfold s1. simpl.
           rewrite (list_filter_iff (λ y, ¬ purgeable sel notin s1 y)
                      (λ y, ¬ purgeable sel notin s y))
             by (intros; by rewrite Hs1).
           done.
        -- intros y Hy. rewrite Hs1. by apply Hkept.
        -- intros y Hy. rewrite Hs1. apply Hwf. by right.
    + assert (Hcond : bool_decide (entry ∈ sel s)
                        && negb (bool_decide (entry ∈ notin s)) = false).
      { apply andb_false_iff. unfold purgeable in Hp.
        destruct (decide (entry ∈ sel s)) as [Hin|Hin].
        - right. apply negb_false_iff, bool_decide_eq_true_2.
          destruct (decide (entry ∈ notin s)); [done|]. by destruct Hp.
        - left. by apply bool_decide_eq_false_2. }
      rewrite Hcond.
      rewrite filter_cons_False by done.
      rewrite filter_cons_True by done.
      rewrite (IH (kept ++ [entry]) s); try done.
      * by rewrite <- !app_assoc.
      * by rewrite <- !app_assoc.
      * intros y [Hy| ->%list_elem_of_singleton]%elem_of_app;
          [by apply Hkept|done].
      * intros y Hy. apply Hwf. by right.
Qed.

(** X12. The rejected-purge stops at the first rejected entry of the
    working set that lacks its title or its url: it raises the
    [KeyError] of [safe_str] for that entry (for ['title'] when the
    title is missing, else for ['url']), the rejected entries before it
    have been removed and counted, and the entry and all that follows it
    are still in the working set. The same holds for the first such
    failed entry and the failed-purge, which does not count. *)
Theorem purge_raises_on_malformed s front x post :
  Feed.entries s = front ++ x :: post →
  ¬ Entry.well_formed x →
  (x ∈ Feed.rejected s →
   (∀ y, y ∈ front → y ∈ Feed.rejected s → Entry.well_formed y) →
   Feed.__purge_rejected s
   = (Raise (KeyError (missing_key x)),
      Feed.set_purged
        (Feed.__purged s
         + Z.of_nat (length (filter (λ y, y ∈ Feed.rejected s) front)))
        (Feed.set_entries
           (filter (λ y, y ∉ Feed.rejected s) front ++ x :: post)
           (Feed.record (Feed.Purged Feed.Rejected) s))))
  ∧ (x ∈ Feed.failed s →
     (∀ y, y ∈ front → y ∈ Feed.failed s → Entry.well_formed y) →
     Feed.__purge_failed s
     = (Raise (KeyError (missing_key x)),
        Feed.set_entries
          (filter (λ y, y ∉ Feed.failed s) front ++ x :: post)
          (Feed.record (Feed.Purged Feed.Failed) s))).
Proof.
  intros Hentries Hx. split; intros Hin Hwf.
  - unfold Feed.__purge_rejected, Feed.bind, Feed.modify, Feed.__purge.
    simpl. rewrite Hentries.
    rewrite (purge_loop_stops _ _ _ [] front x post);
      [|apply pass_frame_rejected|apply pass_frame_nil|done| | | |done].
    + simpl. f_equal. f_equal.
      * f_equal. f_equal. f_equal. apply list_filter_iff. intros y.
        unfold purgeable. simpl. rewrite elem_of_nil. tauto.
      * f_equal. f_equal. apply list_filter_iff. intros y.
        unfold purgeable. simpl. rewrite elem_of_nil. tauto.
    + intros y Hy. by apply elem_of_nil in Hy.
    + intros y Hy [Hr _]. by apply Hwf.
    + split; [done|]. apply not_elem_of_nil.
  - unfold Feed.__purge_failed, Feed.bind, Feed.modify, Feed.__purge.
    simpl. rewrite Hentries.
    rewrite (purge_loop_stops _ _ _ [] front x post);
      [|apply pass_frame_failed|apply pass_frame_nil|done| | | |done].
    + simpl. rewrite Z.add_0_r. f_equal.
      assert (filter (λ y, ¬ purgeable Feed.failed (λ _, [])
                              (Feed.record (Feed.Purged Feed.Failed) s) y)
                     front
              = filter (λ y, y ∉ Feed.failed s) front) as ->.
      { apply list_filter_iff. intros y.
        unfold purgeable. simpl. rewrite elem_of_nil. tauto. }
      by destruct s.
    + intros y Hy. by apply elem_of_nil in Hy.
    + intros y Hy [Hr _]. by apply Hwf.
    + split; [done|]. apply not_elem_of_nil.
Qed.

Lemma purge_raises_on_malformed_witness :
  ∃ s',
    Feed.__purge_rejected
      (Feed.set_rejected [sample_entry; no_url_entry; bare_entry]
         (Feed.set_entries [sample_entry; no_url_entry; bare_entry]
            (Feed.init "feed" ∅)))
    = (Raise (KeyError "url"), s')
    ∧ Feed.entries s' = [no_url_entry; bare_entry]
    ∧ Feed.__purged s' = 1.
Proof.
  destruct (purge_raises_on_malformed
              (Feed.set_rejected [sample_entry; no_url_entry; bare_entry]
                 (Feed.set_entries [sample_entry; no_url_entry; bare_entry]
                    (Feed.init "feed" ∅)))
              [sample_entry] no_url_entry [bare_entry]) as (H & _).
  - reflexivity.
  - intros [_ [u Hu]]. revert Hu. vm_compute. discriminate.
  - eexists. split; [|split].
    + rewrite H.
      * vm_compute. reflexivity.
      * simpl. right. left.
      * intros y Hy _. apply list_elem_of_singleton in Hy as ->.
        apply sample_entry_well_formed.
    + vm_compute. reflexivity.
    + vm_compute. reflexivity.
Defined.

End PurgeFurther.

(** ** Lookups: [find_entry] and [get_input_url] *)

Section LookupFurther.
Implicit Types (s : Feed.t) (entry : Entry.t) (values : gmap string value).

Lemma value_eq_refl v : Feed.value_eq v v = true.
Proof. destruct v; simpl; by rewrite ?bool_decide_eq_true_2. Qed.

Lemma match_count_filter values entry :
  Feed.match_count values entry
  = length (filter (λ kv, kwarg_ok entry kv = true) (map_to_list values)).
Proof.
  unfold Feed.match_count.
  assert (∀ l n,
    foldl (λ matched (kv : string * value),
             match entry !! kv.1 with
             | Some v => if Feed.value_eq v kv.2 then S matched else matched
             | None => matched
             end) n l
    = (n + length (filter (λ kv, kwarg_ok entry kv = true) l))%nat) as H.
  { induction l as [|kv l IH]; intros n; simpl; [lia|].
    rewrite IH, filter_cons.
    destruct (decide (kwarg_ok entry kv = true)) as [Hk|Hk];
      unfold kwarg_ok in Hk; destruct (entry !! kv.1) as [v|];
      try destruct (Feed.value_eq v kv.2); try done; simpl; lia. }
  by rewrite H.
Qed.

Lemma filter_length_all {A} (P : A → Prop) `{∀ x, Decision (P x)} (l : list A) :
  length (filter P l) = length l ↔ Forall P l.
Proof.
  induction l as [|x l IH]; [by split; [constructor|]|].
  rewrite filter_cons. destruct (decide (P x)) as [Hx|Hx]; simpl.
  - split.
    + intros Hlen. constructor; [done|]. apply IH. lia.
    + intros [_ Hl]%Forall_cons_1. f_equal. by apply IH.
  - pose proof (length_filter P l). split; [lia|].
    by intros [? _]%Forall_cons_1.
Qed.

Lemma match_count_full values entry :
  Feed.match_count values entry = size values ↔ kwargs_match values entry.
Proof.
  rewrite match_count_filter, <- length_map_to_list, filter_length_all.
  rewrite Forall_forall. unfold kwargs_match, kwarg_ok. split.
  - intros H k v Hkv. apply elem_of_map_to_list in Hkv.
    specialize (H _ Hkv). simpl in H.
    destruct (entry !! k) as [v'|]; [by exists v'|done].
  - intros H [k v] Hkv. apply elem_of_map_to_list in Hkv.
    destruct (H k v Hkv) as (v' & Hv' & Heq). simpl. by rewrite Hv'.
Qed.

Lemma find_in_spec cat values :
  match Feed.find_in cat values with
  | Some entry =>
      ∃ pre post, cat = pre ++ entry :: post
                  ∧ kwargs_match values entry
                  ∧ ∀ x, x ∈ pre → ¬ kwargs_match values x
  | None => ∀ x, x ∈ cat → ¬ kwargs_match values x
  end.
Proof.
  induction cat as [|entry cat IH]; simpl.
  { intros x Hx. by apply elem_of_nil in Hx. }
  case_bool_decide as Hm.
  - exists [], cat. split; [done|]. split; [by apply match_count_full|].
    intros x Hx. by apply elem_of_nil in Hx.
  - rewrite match_count_full in Hm.
    destruct (Feed.find_in cat values) as [found|].
    + destruct IH as (pre & post & -> & Hf & Hpre).
      exists (entry :: pre), post. split; [done|]. split; [done|].
      intros x [->|Hx]%elem_of_cons; [done|by apply Hpre].
    + intros x [->|Hx]%elem_of_cons; [done|by apply IH].
Qed.

Lemma reserved_empty : ¬ Feed.reserved ∅.
Proof. unfold Feed.reserved. rewrite !lookup_empty. by intros [[? ?]|[? ?]]. Qed.

(** X13. [find_entry] raises when an attribute is named ['category'] or
    ['self'], which are parameters of the method, and when the category
    is not one of the five lists of the feed. Otherwise it returns the
    first entry of that list which has every given attribute with an
    equal value, and [None] exactly when no entry of the list has them
    all; called without attributes it returns the first entry of the
    list. *)
Theorem find_entry_first_match category values s :
  (Feed.reserved values → Feed.find_entry category values s = None)
  ∧ match Feed.category_list s category with
    | None => Feed.find_entry category values s = None
    | Some cat =>
        Feed.find_entry category ∅ s = Some (head cat)
        ∧ (¬ Feed.reserved values →
           ∃ found, Feed.find_entry category values s = Some found
             ∧ match found with
               | Some entry =>
                   ∃ pre post, cat = pre ++ entry :: post
                               ∧ kwargs_match values entry
                               ∧ ∀ x, x ∈ pre → ¬ kwargs_match values x
               | None => ∀ x, x ∈ cat → ¬ kwargs_match values x
               end)
    end.
Proof.
  unfold Feed.find_entry. split.
  { intros Hres. by rewrite bool_decide_eq_true_2. }
  destruct (Feed.category_list s category) as [cat|]; [|by case_bool_decide].
  split.
  - rewrite (bool_decide_eq_false_2 _ reserved_empty).
    f_equal. destruct cat as [|entry cat]; [done|]. simpl.
    rewrite bool_decide_eq_true_2; [done|].
    apply match_count_full. intros k v Hkv. by rewrite lookup_empty in Hkv.
  - intros Hres. rewrite (bool_decide_eq_false_2 _ Hres).
    eexists. split; [done|]. apply find_in_spec.
Qed.

(** X14. An entry that is in one of the lists and has no field named
    ['category'] or ['self'] is found by its own fields:
    [find_entry(category, **entry)] returns an entry of that list which
    has all the fields of the given one, never [None]. With such a field
    the call raises. *)
Theorem find_entry_finds_member category entry s cat :
  Feed.category_list s category = Some cat → entry ∈ cat →
  (¬ Feed.reserved entry →
   ∃ found, Feed.find_entry category entry s = Some (Some found)
            ∧ found ∈ cat ∧ kwargs_match entry found)
  ∧ (Feed.reserved entry → Feed.find_entry category entry s = None).
Proof.
  intros Hcat Hin. unfold Feed.find_entry. split; intros Hres.
  2:{ by rewrite bool_decide_eq_true_2. }
  rewrite (bool_decide_eq_false_2 _ Hres), Hcat.
  pose proof (find_in_spec cat entry) as H.
  destruct (Feed.find_in cat entry) as [found|].
  - destruct H as (pre & post & -> & Hm & _).
    exists found. split; [done|]. split; [|done].
    apply elem_of_app. right. by left.
  - destruct (H entry Hin). intros k v Hkv. exists v.
    split; [done|apply value_eq_refl].
Qed.

Lemma find_entry_finds_member_witness :
  ∃ found, Feed.find_entry "entries" sample_entry lookup_feed
           = Some (Some found)
           ∧ found ∈ [untitled_entry; sample_entry].
Proof.
  destruct (find_entry_finds_member "entries" sample_entry lookup_feed
              [untitled_entry; sample_entry]) as [H _].
  - reflexivity.
  - right. left.
  - destruct H as (found & H1 & H2 & _).
    + vm_compute. intros [[v Hv]|[v Hv]]; discriminate Hv.
    + exists found. split; [exact H1|exact H2].
Defined.

(** X15. [get_input_url] gives the same address for the two documented
    forms of configuration, the bare address and the mapping with a
    ['url']; it succeeds for no other configuration: a keyword that is
    not configured raises [KeyError], a mapping without ['url'] raises
    the ['url is missing'] exception, whatever else the mapping holds. *)
Theorem get_input_url_forms keyword s :
  (∀ address priority fields c,
     (c = Feed.CScalar address
      ∨ c = Feed.CDict priority (<["url" := address]> fields)) →
     Feed.config s !! keyword = Some c →
     Feed.get_input_url keyword s = Ok address)
  ∧ (∀ address, Feed.get_input_url keyword s = Ok address →
       Feed.config s !! keyword = Some (Feed.CScalar address)
       ∨ ∃ priority fields,
           Feed.config s !! keyword = Some (Feed.CDict priority fields)
           ∧ fields !! "url" = Some address)
  ∧ (∀ ex, Feed.get_input_url keyword s = Raise ex →
       (ex = KeyError keyword ∧ Feed.config s !! keyword = None)
       ∨ (ex = OtherException
          ∧ ∃ priority fields,
              Feed.config s !! keyword = Some (Feed.CDict priority fields)
              ∧ fields !! "url" = None)).
Proof.
  unfold Feed.get_input_url. split; [|split].
  - intros address priority fields c [->| ->] ->; [done|].
    by rewrite lookup_insert_eq.
  - intros address H.
    destruct (Feed.config s !! keyword) as [[v|priority fields]|]; [| |done].
    + left. by inversion H.
    + right. exists priority, fields. split; [done|].
      destruct (fields !! "url"); by inversion H.
  - intros ex H.
    destruct (Feed.config s !! keyword) as [[v|priority fields]|]; [done| |].
    + right. destruct (fields !! "url") eqn:Hu; [done|].
      inversion H. split; [done|]. by exists priority, fields.
    + left. by inversion H.
Qed.

Lemma get_input_url_forms_witness :
  Feed.get_input_url "rss" lookup_feed = Ok (VStr "http://feed")
  ∧ Feed.get_input_url "html" lookup_feed = Ok (VStr "http://page").
Proof.
  destruct (get_input_url_forms "rss" lookup_feed) as (H1 & _).
  destruct (get_input_url_forms "html" lookup_feed) as (H2 & _).
  split.
  - apply (H1 (VStr "http://feed") (Some 3) ∅
             (Feed.CDict (Some 3) (<["url" := VStr "http://feed"]> ∅))).
    + by right.
    + vm_compute. reflexivity.
  - apply (H2 (VStr "http://page") None ∅ (Feed.CScalar (VStr "http://page"))).
    + by left.
    + vm_compute. reflexivity.
Defined.

End LookupFurther.

(** ** The run: [validate], [execute], [terminate] *)

Section RunFurther.
Variable manager : Feed.Manager.t.
Implicit Types (s : Feed.t) (event : string).

Lemma mjoin_nil {A} (ls : list (list A)) :
  mjoin ls = [] ↔ ∀ l, l ∈ ls → l = [].
Proof.
  induction ls as [|l ls IH]; simpl.
  - split; [|done]. intros _ l Hl. by apply elem_of_nil in Hl.
  - split.
    + intros [-> Hls]%app_eq_nil l' [->|Hl']%elem_of_cons; [done|].
      by apply IH.
    + intros H. rewrite (H l) by by left. simpl. apply IH.
      intros l' Hl'. apply H. by right.
Qed.

Lemma collect_errors_nil s :
  Feed.collect_errors manager s = []
  ↔ ∀ keyword c, Feed.config s !! keyword = Some c →
                 Feed.keyword_errors manager keyword c = [].
Proof.
  rewrite collect_errors_join, mjoin_nil. split.
  - intros H keyword c Hc. apply H. apply list_elem_of_fmap.
    exists (keyword, c). split; [done|]. by apply elem_of_map_to_list.
  - intros H l [[keyword c] [-> Hin]]%list_elem_of_fmap. simpl.
    apply H. by apply elem_of_map_to_list.
Qed.

(** X16. The configuration passes [validate()] exactly when no
    configured keyword yields a message; [validate()] then returns the
    empty list and leaves the feed as it was, whatever the budget, since
    [abort()] is not called. Every message that it returns belongs to a
    configured keyword: it says that the keyword is unknown to the
    registry, or it is a message of the keyword's validator, which
    reported errors, behind the keyword. *)
Theorem validate_passes_iff fuel s :
  ((∀ keyword c, Feed.config s !! keyword = Some c →
                 Feed.keyword_errors manager keyword c = [])
   ↔ Feed.validate manager fuel s = Some (Ok [], s))
  ∧ (∀ msg, msg ∈ Feed.collect_errors manager s →
       ∃ keyword c,
         Feed.config s !! keyword = Some c
         ∧ ((Feed.Manager.modules manager !! keyword = None
             ∧ msg = "Unknown keyword '" +:+ keyword +:+ "'")
            ∨ ∃ module check messages m,
                Feed.Manager.modules manager !! keyword = Some module
                ∧ Feed.Manager.validator (Feed.Manager.instance module)
                  = Some (Feed.Manager.Validator check)
                ∧ check c = (true, messages)
                ∧ m ∈ messages
                ∧ msg = keyword +:+ " " +:+ m)).
Proof.
  split.
  - rewrite <- collect_errors_nil. split.
    + intros H. unfold Feed.validate. by rewrite H.
    + intros H. apply validate_advances in H as (_ & _ & H). done.
  - intros msg. rewrite collect_errors_join.
    intros (l & Hmsg & [[keyword c] [-> Hin]]%list_elem_of_fmap)%list_elem_of_join.
    apply elem_of_map_to_list in Hin. exists keyword, c. split; [done|].
    simpl in Hmsg. unfold Feed.keyword_errors in Hmsg.
    destruct (Feed.Manager.modules manager !! keyword) as [module|] eqn:Hm.
    + right.
      destruct (Feed.Manager.validator (Feed.Manager.instance module))
        as [[|check]|] eqn:Hv; try by apply elem_of_nil in Hmsg.
      destruct (check c) as [[] messages] eqn:Hc;
        [|by apply elem_of_nil in Hmsg].
      apply list_elem_of_fmap in Hmsg as (m & -> & Hmin).
      by exists module, check, messages, m.
    + left. by apply list_elem_of_singleton in Hmsg.
Qed.

(** X17. Run with the [validate] option, [execute()] dispatches no event
    of the run, whether the configuration is valid or not: it does what
    [validate()] does and returns. A valid configuration leaves the feed
    as it was. *)
Theorem validate_option_runs_no_event fuel s :
  Feed.Manager.validate (Feed.Manager.options manager) = true →
  Feed.execute manager fuel s
  = Feed.fbind (Feed.validate manager fuel) (λ _, Feed.total (Feed.ret tt)) s
  ∧ (Feed.collect_errors manager s = [] →
     Feed.execute manager fuel s = Some (Ok tt, s)).
Proof.
  intros Hopt.
  assert (Feed.execute manager fuel s
          = Feed.fbind (Feed.validate manager fuel)
              (λ _, Feed.total (Feed.ret tt)) s) as Hexec.
  { unfold Feed.execute, Feed.fbind.
    destruct (Feed.validate manager fuel s) as [[[errors|ex] s1]|] eqn:Hv;
      try done.
    apply validate_advances in Hv as (_ & Hflag & ->).
    destruct (Feed.__abort s1) eqn:Ha; [done|].
    rewrite Hopt. simpl. case_bool_decide as He; [done|].
    by specialize (Hflag He). }
  split; [done|]. intros Hnil. rewrite Hexec.
  unfold Feed.fbind, Feed.validate. by rewrite Hnil.
Qed.

(** X18. An aborted feed runs no event of the run: the abort flag is
    still set after [validate()], [execute()] only validates, and
    [terminate()] does nothing. *)
Theorem aborted_feed_runs_nothing fuel s :
  Feed.__abort s = true →
  (∀ r s', Feed.validate manager fuel s = Some (r, s') →
           Feed.__abort s' = true ∧ Feed.config s' = Feed.config s)
  ∧ Feed.execute manager fuel s
    = Feed.fbind (Feed.validate manager fuel) (λ _, Feed.total (Feed.ret tt)) s
  ∧ Feed.terminate manager fuel s = Some (Ok tt, s).
Proof.
  intros Hflag.
  assert (∀ r s', Feed.validate manager fuel s = Some (r, s') →
                  Feed.__abort s' = true ∧ Feed.config s' = Feed.config s) as Hv.
  { intros r s' H. apply validate_advances in H as ((Hc & Ha & _) & _).
    split; [by apply Ha|done]. }
  split; [done|]. split; [|by apply terminate_aborted].
  unfold Feed.execute, Feed.fbind.
  destruct (Feed.validate manager fuel s) as [[[errors|ex] s1]|] eqn:H;
    try done.
  destruct (Hv _ _ eq_refl) as [-> _]. done.
Qed.

End RunFurther.

Lemma validate_option_runs_no_event_witness :
  Feed.execute dry_manager 0 faulty_feed = Some (Ok tt, faulty_feed).
Proof.
  destruct (validate_option_runs_no_event dry_manager 0 faulty_feed) as [_ H].
  - reflexivity.
  - apply H. vm_compute. reflexivity.
Defined.

Lemma aborted_feed_runs_nothing_witness :
  Feed.execute faulty_manager 0 (Feed.set_abort true faulty_feed)
  = Some (Ok tt, Feed.set_abort true faulty_feed).
Proof.
  destruct (aborted_feed_runs_nothing faulty_manager 0 (Feed.set_abort true faulty_feed))
    as (_ & H & _).
  - reflexivity.
  - rewrite H. vm_compute. reflexivity.
Defined.


(** ** The dispatch of an event *)

Section DispatchFurther.
Variable manager : Feed.Manager.t.
Implicit Types (s : Feed.t) (event : string) (m : Feed.Manager.module).





Lemma calls_cons_called event keyword h :
  calls (Feed.Called event keyword :: h) = (event, keyword) :: calls h.
Proof. done. Qed.

Lemma calls_app h1 h2 : calls (h1 ++ h2) = calls h1 ++ calls h2.
Proof. unfold calls. apply omap_app. Qed.

Lemma dispatch_calm hook event modules s :
  (∀ m, m ∈ modules → ∃ method p,
      Feed.Manager.event_methods manager !! event = Some method
      ∧ Feed.Manager.methods (Feed.Manager.instance m) !! method = Some p
      ∧ calm p) →
  Feed.__abort s = false →
  ∃ r s' h,
    Feed.dispatch manager hook event modules s = Some (r, s')
    ∧ Feed.config s' = Feed.config s
    ∧ Feed.__abort s' = false
    ∧ Feed.history s' = Feed.history s ++ h
    ∧ calls h `prefix_of`
        ((λ m, (event, Feed.Manager.name m))
           <$> filter (λ m, Feed.applicable m s = true) modules)
    ∧ (r = Ok tt →
       calls h = (λ m, (event, Feed.Manager.name m))
                   <$> filter (λ m, Feed.applicable m s = true) modules).
Proof.
  revert s. induction modules as [|m rest IH]; intros s Hq Hflag.
  { exists (Ok tt), s, []. rewrite app_nil_r. by repeat split. }
  assert (∀ m', m' ∈ rest → ∃ method p,
      Feed.Manager.event_methods manager !! event = Some method
      ∧ Feed.Manager.methods (Feed.Manager.instance m') !! method = Some p
      ∧ calm p) as Hrest.
  { intros m' Hm'. apply Hq. by right. }
  destruct (Feed.applicable m s) eqn:Happ.
  2:{ rewrite filter_cons_False by (by rewrite Happ).
      simpl. rewrite Happ. by apply IH. }
  rewrite filter_cons_True by done.
  destruct (Hq m) as (method & p & Hmeth & Hp & Hcalm); [by left|].
  destruct (dispatch_calm_turn manager hook event m rest s method p
              Happ Hmeth Hp Hcalm)
    as (s1 & Hc1 & Hf1 & (h1 & Hh1 & Hn1) & Hd).
  rewrite Hflag in Hf1.
  destruct Hd as [Hd|[ex Hd]].
  - rewrite Hf1 in Hd.
    destruct (IH s1 Hrest Hf1) as (r & s' & h2 & H2 & Hc2 & Hf2 & Hh2 & Hpre & Hall).
    assert (filter (λ m0, Feed.applicable m0 s1 = true) rest
            = filter (λ m0, Feed.applicable m0 s = true) rest) as Hfilter.
    { apply list_filter_iff. intros m0.
      by rewrite (applicable_config m0 s1 s Hc1). }
    rewrite Hfilter in Hpre, Hall.
    exists r, s', (Feed.Called event (Feed.Manager.name m) :: h1 ++ h2).
    split; [by rewrite Hd|]. split; [congruence|]. split; [done|].
    split; [by rewrite Hh2, Hh1, <- app_assoc|].
    rewrite calls_cons_called, calls_app, Hn1. simpl.
    split; [by apply prefix_cons|]. intros Hr. f_equal. by apply Hall.
  - exists (Raise ex), s1, (Feed.Called event (Feed.Manager.name m) :: h1).
    split; [done|]. split; [done|]. split; [done|]. split; [done|].
    rewrite calls_cons_called, Hn1. simpl.
    split; [apply prefix_cons, prefix_nil|done].
Qed.

(** X20. When the modules of an event neither call [abort()] nor raise
    anything but a [ModuleWarning], the dispatch of the event in a feed
    that is not aborted ends for every positive budget and leaves the
    feed not aborted. If it ends normally, every applicable module has
    been called exactly once, in the order of the sorted list; a warning
    of one module does not keep the next ones from running. If it ends
    with an exception (of a purge), the calls made are a first part of
    that list. *)
Theorem calm_event_calls_every_module fuel event s :
  calm_event manager event → Feed.__abort s = false →
  ∃ r s' h,
    Feed.__run_event manager (S fuel) event s = Some (r, s')
    ∧ Feed.config s' = Feed.config s
    ∧ Feed.__abort s' = false
    ∧ Feed.history s' = Feed.history s ++ h
    ∧ calls h `prefix_of` expected_calls manager event s
    ∧ (r = Ok tt → calls h = expected_calls manager event s).
Proof.
  intros Hcalm Hflag. simpl. unfold expected_calls.
  apply dispatch_calm; [|done].
  intros m Hm. apply Hcalm. by apply (sorted_modules_elem manager) in Hm.
Qed.

Lemma abort_enter_config silent s :
  Feed.config (Feed.abort_enter silent s) = Feed.config s.
Proof.
  unfold Feed.abort_enter. by destruct (negb (Feed.__abort s) && negb silent).
Qed.

Lemma dispatch_fault_diverges run modules s m :
  (∀ s', Feed.config s' = Feed.config s → run "abort" s' = None) →
  first_applicable modules s = Some m →
  faulty_method manager "abort" m →
  Feed.dispatch manager (Feed.abort_with run) "abort" modules s = None.
Proof.
  intros Hrun Hfirst Hfault.
  induction modules as [|m' rest IH]; [done|].
  unfold first_applicable in Hfirst.
  destruct (Feed.applicable m' s) eqn:Happ.
  2:{ rewrite filter_cons_False in Hfirst by (by rewrite Happ).
      simpl. rewrite Happ. by apply IH. }
  rewrite filter_cons_True in Hfirst by done. simpl in Hfirst.
  injection Hfirst as ->. clear IH.
  assert (∀ keyword s0, Feed.config s0 = Feed.config s →
            Feed.fbind
              (Feed.total (Feed.modify (Feed.record (Feed.Unhandled keyword))))
              (λ _, Feed.abort_with run false) s0 = None) as Hhandler.
  { intros keyword s0 Hc. unfold Feed.fbind, Feed.total, Feed.modify.
    unfold Feed.abort_with. apply Hrun. by rewrite abort_enter_config. }
  simpl. rewrite Happ.
  unfold Feed.fbind at 1. unfold Feed.total at 1, Feed.modify at 1.
  unfold Feed.fbind at 1.
  assert (Feed.try_except (Feed.invoke manager (Feed.abort_with run) m "abort")
            (Feed.handler (Feed.abort_with run) (Feed.Manager.name m))
            (Feed.set_current "abort" (Feed.Manager.name m) s) = None) as ->;
    [|done].
  unfold Feed.try_except, Feed.invoke. unfold faulty_method in Hfault.
  destruct (Feed.Manager.event_methods manager !! "abort") as [method|].
  2:{ unfold Feed.total, Feed.raise. simpl. by apply Hhandler. }
  destruct (Feed.Manager.methods (Feed.Manager.instance m) !! method)
    as [[|ex|a k]|]; try done.
  - unfold Feed.fbind at 1. unfold Feed.total at 1, Feed.modify at 1.
    simpl. unfold Feed.total, Feed.raise.
    destruct ex; simpl; try by apply Hhandler.
    by destruct (Hfault log_once).
  - unfold Feed.total, Feed.raise. simpl. by apply Hhandler.
Qed.

(** X21. When the call of the first applicable module of the ['abort']
    event ends with an exception that is not a [ModuleWarning], [abort()]
    never returns: the fault makes [__run_event] call [abort()], which
    dispatches the ['abort'] event to the same module again. No budget is
    enough. *)
Theorem abort_fault_never_returns fuel silent s m :
  first_applicable (Feed.sorted_modules manager "abort" s) s = Some m →
  faulty_method manager "abort" m →
  Feed.abort manager fuel silent s = None.
Proof.
  intros Hfirst Hfault. unfold Feed.abort, Feed.abort_with.
  assert (∀ s', Feed.config s' = Feed.config s →
                Feed.__run_event manager fuel "abort" s' = None) as H.
  { induction fuel as [|fuel IH]; intros s' Hc; [done|]. simpl.
    apply (dispatch_fault_diverges _ _ _ m); [| |done].
    - intros s2 Hc2. apply IH. congruence.
    - rewrite (sorted_modules_config manager "abort" s' s Hc).
      by rewrite (first_applicable_config _ s' s Hc). }
  apply H, abort_enter_config.
Qed.

End DispatchFurther.


Lemma rescue_calm : calm_event rescue_manager "input".
Proof.
  intros m Hm. exists "feed_input".
  apply list_elem_of_In in Hm. simpl in Hm.
  destruct Hm as [<-|[<-|[]]]; eexists; (split; [reflexivity|]);
    (split; [reflexivity|]); repeat constructor; done.
Qed.

Lemma calm_event_calls_every_module_witness :
  ∃ s', Feed.__run_event rescue_manager 1 "input" (Feed.init "feed" ∅)
        = Some (Ok tt, s')
        ∧ calls (Feed.history s') = [("input", "make"); ("input", "keep")].
Proof.
  destruct (calm_event_calls_every_module rescue_manager 0 "input"
              (Feed.init "feed" ∅) rescue_calm eq_refl)
    as (r & s' & h & Hrun & _ & _ & Hh & _ & Hall).
  assert (r = Ok tt) as ->.
  { vm_compute in Hrun. by injection Hrun as <- _. }
  exists s'. split; [exact Hrun|].
  rewrite Hh. simpl. rewrite (Hall eq_refl). vm_compute. reflexivity.
Defined.

Lemma abort_fault_never_returns_witness :
  Feed.abort stuck_manager 5 false (Feed.init "feed" ∅) = None.
Proof.
  apply (abort_fault_never_returns stuck_manager 5 false (Feed.init "feed" ∅)
           (plugin "oops" true [] "feed_abort" (Feed.PRaise OtherException))).
  - vm_compute. reflexivity.
  - vm_compute. intros log_once H. discriminate H.
Defined.

(** ** Invariants of a whole run *)

(** A relation that the dispatch of the events keeps is kept by
    [validate], [execute] and [terminate]. *)
Section RunRely.
Variable manager : Feed.Manager.t.
Variable R : Feed.t → Feed.t → Prop.
Variable okevent : string → Prop.

Hypothesis R_refl : ∀ s, R s s.
Hypothesis R_trans : ∀ s1 s2 s3, R s1 s2 → R s2 s3 → R s1 s3.
Hypothesis R_purge : ∀ s, R s (Feed._purge s).2.
Hypothesis R_enter : ∀ silent s s', R (Feed.abort_enter silent s) s' → R s s'.
Hypothesis okevent_abort : okevent "abort".
Hypothesis run_R :
  ∀ fuel event s r s',
    okevent event →
    Feed.__run_event manager fuel event s = Some (r, s') → R s s'.

Lemma abort_R fuel silent s r s' :
  Feed.abort manager fuel silent s = Some (r, s') → R s s'.
Proof.
  unfold Feed.abort, Feed.abort_with. intros H.
  eapply R_enter, run_R; [|exact H]. done.
Qed.

Lemma validate_R fuel s r s' :
  Feed.validate manager fuel s = Some (r, s') → R s s'.
Proof.
  unfold Feed.validate. intros H.
  destruct (Feed.collect_errors manager s) as [|e errors].
  - apply fbind_Some in H as [(a & s1 & H1 & H2)|(ex & H1 & _)];
      apply total_Some in H1; inversion H1; subst.
    apply total_Some in H2. inversion H2; subst. done.
  - apply fbind_Some in H as [(a & s1 & H1 & H2)|(ex & H1 & _)].
    + apply total_Some in H2. inversion H2; subst. by eapply abort_R.
    + by eapply abort_R.
Qed.

Lemma run_phase_R fuel event s r s' :
  okevent event →
  Feed.run_phase manager fuel event s = Some (r, s') → R s s'.
Proof.
  intros Hok. unfold Feed.run_phase. intros H.
  apply fbind_Some in H as [(a & s1 & H1 & H)|(ex & H1 & _)];
    [|by eapply run_R].
  apply (R_trans _ s1); [by eapply run_R|]. clear H1.
  assert (∀ r s', Feed._purge s1 = (r, s') → R s1 s') as Hp.
  { intros r0 s0 H0. pose proof (R_purge s1) as HR. by rewrite H0 in HR. }
  apply fbind_Some in H as [(a' & s2 & H1 & H)|(ex & H1 & _)];
    apply total_Some in H1; [|by eapply Hp].
  assert (s' = s2) as ->; [|by eapply Hp].
  apply total_Some in H. case_bool_decide.
  - pose proof (verbose_details_entries_state manager s2) as Hv.
    by rewrite H in Hv.
  - by inversion H.
Qed.

Lemma run_events_R fuel events s r s' :
  (∀ event, event ∈ events → Feed.skipped manager event = false →
            okevent event) →
  Feed.run_events manager fuel events s = Some (r, s') → R s s'.
Proof.
  revert s. induction events as [|event rest IH]; intros s Hok H; simpl in H.
  - apply total_Some in H. inversion H; subst. done.
  - assert (∀ e, e ∈ rest → Feed.skipped manager e = false → okevent e)
      as Hrest.
    { intros e He. apply Hok. by right. }
    destruct (Feed.skipped manager event) eqn:Hskip; [by apply IH|].
    assert (okevent event) as Hev. { apply Hok; [by left|done]. }
    apply fbind_Some in H as [(a & s1 & H1 & H)|(ex & H1 & _)];
      [|by eapply run_phase_R].
    apply (R_trans _ s1); [by eapply run_phase_R|].
    destruct (Feed.__abort s1).
    + apply total_Some in H. inversion H; subst. done.
    + by apply IH.
Qed.

Lemma execute_R fuel s r s' :
  (∀ event, event ∈ Feed.Manager.events manager →
            Feed.skipped manager event = false → okevent event) →
  Feed.execute manager fuel s = Some (r, s') → R s s'.
Proof.
  intros Hok. unfold Feed.execute. intros H.
  apply fbind_Some in H as [(errors & s1 & H1 & H)|(ex & H1 & _)];
    [|by eapply validate_R].
  apply (R_trans _ s1); [by eapply validate_R|].
  destruct (Feed.__abort s1).
  { apply total_Some in H. inversion H; subst. done. }
  destruct (Feed.Manager.validate _ && _).
  { apply total_Some in H. inversion H; subst. done. }
  by eapply run_events_R.
Qed.

Lemma terminate_R fuel s r s' :
  okevent "terminate" →
  Feed.terminate manager fuel s = Some (r, s') → R s s'.
Proof.
  intros Hok. unfold Feed.terminate.
  destruct (Feed.__abort s).
  - intros H. apply total_Some in H. inversion H; subst. done.
  - by apply run_R.
Qed.

End RunRely.

Section CallsFurther.
Variable manager : Feed.Manager.t.
Variable config0 : gmap string Feed.config_value.
Variable evs : list string.
Implicit Types (s : Feed.t) (event : string) (m : Feed.Manager.module).

Let R := only_registered manager config0 evs.

Lemma only_registered_refl s : R s s.
Proof.
  intros Hc. split; [done|]. exists []. rewrite app_nil_r. split; [done|].
  intros event keyword H. by apply elem_of_nil in H.
Qed.

Lemma only_registered_trans s1 s2 s3 : R s1 s2 → R s2 s3 → R s1 s3.
Proof.
  intros H12 H23 Hc.
  destruct (H12 Hc) as (Hc2 & h1 & Hh1 & Ht1).
  destruct (H23 Hc2) as (Hc3 & h2 & Hh2 & Ht2).
  split; [done|]. exists (h1 ++ h2).
  split; [by rewrite Hh2, Hh1, app_assoc|].
  intros event keyword [?|?]%elem_of_app; [by apply Ht1|by apply Ht2].
Qed.

Lemma only_registered_quiet s s' h :
  Feed.config s' = Feed.config s →
  Feed.history s' = Feed.history s ++ h →
  (∀ event keyword, Feed.Called event keyword ∉ h) →
  R s s'.
Proof.
  intros Hc Hh Hn Hc0. split; [congruence|]. exists h. split; [done|].
  intros event keyword H. by apply Hn in H.
Qed.

Lemma only_registered_classify c s : R s (classify c s).2.
Proof.
  destruct (classify_same_control c s) as (Hc & Ha & Hh).
  apply (only_registered_quiet _ _ []); try done.
  - by rewrite app_nil_r.
  - intros event keyword H. by apply elem_of_nil in H.
Qed.

Lemma only_registered_pass kind s s' n l :
  s' = Feed.set_purged n (Feed.set_entries l (Feed.record (Feed.Purged kind) s)) →
  R s s'.
Proof.
  intros ->. apply (only_registered_quiet _ _ [Feed.Purged kind]); try done.
  intros event keyword H%list_elem_of_singleton. done.
Qed.

Lemma only_registered_extend s s' pre :
  (∀ event keyword, Feed.Called event keyword ∉ pre) →
  (∃ s0, Feed.config s0 = Feed.config s
         ∧ Feed.history s0 = Feed.history s ++ pre ∧ R s0 s') →
  R s s'.
Proof.
  intros Hpre (s0 & Hc0 & Hh0 & H) Hc.
  destruct H as (Hc' & h & Hh & Ht); [congruence|].
  split; [done|]. exists (pre ++ h).
  split; [by rewrite Hh, Hh0, app_assoc|].
  intros event keyword [Hin|Hin]%elem_of_app; [by apply Hpre in Hin|].
  by apply Ht.
Qed.

Lemma only_registered_enter silent s s' :
  R (Feed.abort_enter silent s) s' → R s s'.
Proof.
  intros H.
  apply (only_registered_extend s s'
           (if negb (Feed.__abort s) && negb silent then [Feed.Aborting]
            else [])).
  - intros event keyword. destruct (negb _ && negb _).
    + by intros ?%list_elem_of_singleton.
    + apply not_elem_of_nil.
  - exists (Feed.abort_enter silent s). split; [apply abort_enter_config|].
    split; [|done]. unfold Feed.abort_enter.
    destruct (negb _ && negb _); simpl; [done|by rewrite app_nil_r].
Qed.

Lemma only_registered_unhandled keyword s s' :
  R (Feed.abort_enter false (Feed.record (Feed.Unhandled keyword) s)) s' →
  R s s'.
Proof.
  intros H. apply only_registered_enter in H.
  apply (only_registered_extend s s' [Feed.Unhandled keyword]).
  - by intros event k ?%list_elem_of_singleton.
  - by exists (Feed.record (Feed.Unhandled keyword) s).
Qed.

Lemma dispatch_applicable fuel event modules s :
  Feed.dispatch manager (Feed.abort_with (Feed.__run_event manager fuel))
    event modules s
  = Feed.dispatch manager (Feed.abort_with (Feed.__run_event manager fuel))
      event (filter (λ m, Feed.applicable m s = true) modules) s.
Proof.
  revert s. induction modules as [|m rest IH]; intros s; [done|].
  destruct (Feed.applicable m s) eqn:Happ.
  2:{ rewrite filter_cons_False by (by rewrite Happ).
      simpl. rewrite Happ. apply IH. }
  rewrite filter_cons_True by done.
  assert (∀ sd, Feed.dispatch manager
                  (Feed.abort_with (Feed.__run_event manager fuel))
                  event [m] s = Some (Ok tt, sd) →
                Feed.config sd = Feed.config s) as Hend.
  { intros sd Hd. apply dispatch_advances in Hd as (Hc & _); [done|].
    intros s0 r0 s0' _ H0. by eapply run_event_advances. }
  simpl in Hend. rewrite Happ in Hend. simpl. rewrite Happ.
  apply fbind_ext_on. intros a sa HA.
  apply fbind_ext_on. intros b sb HB.
  apply fbind_ext_on. intros c sc HC.
  apply fbind_ext_on. intros d sd HD.
  assert (Feed.config sd = Feed.config s) as Hcfg.
  { apply Hend. unfold Feed.fbind. rewrite HA, HB, HC, HD.
    by destruct (Feed.__abort sd). }
  destruct (Feed.__abort sd); [done|].
  rewrite IH. f_equal. apply list_filter_iff. intros m0.
  by rewrite (applicable_config m0 sd s Hcfg).
Qed.

Lemma run_event_registered fuel event s r s' :
  event ∈ evs ∨ event = "abort" →
  Feed.__run_event manager fuel event s = Some (r, s') → R s s'.
Proof.
  revert event s r s'.
  induction fuel as [|fuel IH]; intros event s r s' Hev H; [done|].
  intros Hcfg. simpl in H. rewrite dispatch_applicable in H.
  assert (R s s') as HR; [|by apply HR].
  revert H.
  apply (dispatch_R manager R (λ _, True)
           (λ ev m (_ : bool),
              (ev ∈ evs ∨ ev = "abort")
              ∧ m ∈ Feed.Manager.get_modules_by_event manager ev
              ∧ (is_Some (config0 !! Feed.Manager.name m)
                 ∨ Feed.Manager.builtin m = true))).
  - apply only_registered_refl.
  - apply only_registered_trans.
  - apply only_registered_classify.
  - intros entry s0. apply (only_registered_quiet _ _ []); try done.
    + by rewrite app_nil_r.
    + intros ev k Hk. by apply elem_of_nil in Hk.
  - intros _ s0. destruct (purge_filtered_frame s0) as (n & l & Hs).
    by eapply only_registered_pass.
  - intros s0. destruct (purge_rejected_frame s0) as (n & l & Hs).
    by eapply only_registered_pass.
  - intros s0. destruct (purge_failed_frame s0) as (n & l & Hs).
    by eapply only_registered_pass.
  - intros ev k s0. apply (only_registered_quiet _ _ []); try done.
    + by rewrite app_nil_r.
    + intros ev' k' Hk. by apply elem_of_nil in Hk.
  - intros ev m s0 (Hev' & Hreg & Happ) Hc. split; [done|].
    exists [Feed.Called ev (Feed.Manager.name m)]. split; [done|].
    intros ev' k' Hin%list_elem_of_singleton. inversion Hin; subst.
    split; [done|]. by exists m.
  - apply only_registered_unhandled.
  - apply only_registered_enter.
  - intros s0 r0 s0' _ H0. eapply IH; [|exact H0]. by right.
  - assert (∀ m, m ∈ filter (λ m, Feed.applicable m s = true)
                       (Feed.sorted_modules manager event s) →
                 (event ∈ evs ∨ event = "abort")
                 ∧ m ∈ Feed.Manager.get_modules_by_event manager event
                 ∧ (is_Some (config0 !! Feed.Manager.name m)
                    ∨ Feed.Manager.builtin m = true)) as Hmods.
    { intros m [Happ Hin]%list_elem_of_filter.
      split; [done|]. split; [by apply (sorted_modules_elem manager) in Hin|].
      unfold Feed.applicable in Happ. rewrite Hcfg in Happ.
      apply orb_true_iff in Happ as [Happ|Happ]; [left|by right].
      by apply bool_decide_eq_true in Happ. }
    done.
  - intros m [Happ Hin]%list_elem_of_filter.
    split; [done|]. split; [by apply (sorted_modules_elem manager) in Hin|].
    unfold Feed.applicable in Happ. rewrite Hcfg in Happ.
    apply orb_true_iff in Happ as [Happ|Happ]; [left|by right].
    by apply bool_decide_eq_true in Happ.
  - intros m _ method p _. apply prog_allowed_any.
Qed.

End CallsFurther.

Section CallsOfRun.
Variable manager : Feed.Manager.t.
Implicit Types (s : Feed.t).

(** X22. Every module call that [execute()] makes is the call of a
    module that is registered for the event of the call and is, by its
    name, configured in the feed or builtin. The event is one of the
    events of the run that is not skipped (['download'] and ['output']
    are skipped when learning), or it is ['abort']. *)
Theorem execute_calls_only_configured fuel s r s' :
  Feed.execute manager fuel s = Some (r, s') →
  ∃ h, Feed.history s' = Feed.history s ++ h
       ∧ ∀ event keyword, Feed.Called event keyword ∈ h →
           (event = "abort"
            ∨ (event ∈ Feed.Manager.events manager
               ∧ Feed.skipped manager event = false))
           ∧ ∃ m, m ∈ Feed.Manager.get_modules_by_event manager event
                  ∧ Feed.Manager.name m = keyword
                  ∧ (is_Some (Feed.config s !! keyword)
                     ∨ Feed.Manager.builtin m = true).
Proof.
  intros H.
  assert (only_registered manager (Feed.config s) (run_list manager) s s')
    as HR.
  { revert H.
    apply (execute_R manager _
             (λ event, event ∈ run_list manager ∨ event = "abort")).
    - apply only_registered_refl.
    - apply only_registered_trans.
    - intros s0. destruct (purge_filtered_frame s0) as (n & l & Hs).
      by eapply only_registered_pass.
    - apply only_registered_enter.
    - by right.
    - intros fuel0 event s0 r0 s0'. apply run_event_registered.
    - intros event Hin Hskip. left. unfold run_list.
      by apply list_elem_of_filter. }
  destruct (HR eq_refl) as (_ & h & Hh & Hok).
  exists h. split; [done|]. intros event keyword Hin.
  destruct (Hok event keyword Hin) as [Hev Hm]. split; [|done].
  destruct Hev as [Hev|Hev]; [right|by left].
  unfold run_list in Hev. by apply list_elem_of_filter in Hev as [? ?].
Qed.

End CallsOfRun.

Lemma execute_calls_only_configured_witness :
  ∃ r s',
    Feed.execute learn_manager 2 faulty_feed = Some (r, s')
    ∧ ∀ keyword, Feed.Called "output" keyword ∉ Feed.history s'.
Proof.
  assert (∃ r s', Feed.execute learn_manager 2 faulty_feed = Some (r, s'))
    as (r & s' & H).
  { eexists _, _. vm_compute. reflexivity. }
  exists r, s'. split; [exact H|].
  destruct (execute_calls_only_configured learn_manager 2 faulty_feed r s' H)
    as (h & Hh & Hok).
  intros keyword Hin. rewrite Hh in Hin. simpl in Hin.
  destruct (Hok "output" keyword Hin) as [[Heq|[_ Hskip]] _].
  - discriminate Heq.
  - vm_compute in Hskip. discriminate Hskip.
Defined.

Section AbortLog.
Variable manager : Feed.Manager.t.
Implicit Types (s : Feed.t) (h : list Feed.obs).

Lemma abort_logs_app h1 h2 :
  abort_logs (h1 ++ h2) = (abort_logs h1 + abort_logs h2)%nat.
Proof. unfold abort_logs. by rewrite filter_app, length_app. Qed.

Lemma logs_abort_once_refl s : logs_abort_once s s.
Proof.
  exists []. rewrite app_nil_r. split; [done|]. split; [done|].
  split; [unfold abort_logs; simpl; lia|]. done.
Qed.

Lemma logs_abort_once_trans s1 s2 s3 :
  logs_abort_once s1 s2 → logs_abort_once s2 s3 → logs_abort_once s1 s3.
Proof.
  intros (h1 & Hh1 & Ha1 & Hle1 & Hone1) (h2 & Hh2 & Ha2 & Hle2 & Hone2).
  exists (h1 ++ h2). rewrite abort_logs_app.
  split; [by rewrite Hh2, Hh1, app_assoc|].
  assert (abort_logs h1 = 1%nat → Feed.__abort s3 = true ∧ abort_logs h2 = O)
    as Hfirst.
  { intros H1. by apply Ha2, Hone1. }
  split; [|split].
  - intros Hf. destruct (Ha1 Hf) as [Hf2 Hn1].
    destruct (Ha2 Hf2) as [Hf3 Hn2]. split; [done|lia].
  - destruct (decide (abort_logs h1 = 1%nat)) as [H1|H1].
    + destruct (Hfirst H1). lia.
    + lia.
  - intros Hsum. destruct (decide (abort_logs h1 = 1%nat)) as [H1|H1].
    + by destruct (Hfirst H1).
    + apply Hone2. lia.
Qed.

Lemma logs_abort_once_quiet s s' h :
  Feed.__abort s' = Feed.__abort s →
  Feed.history s' = Feed.history s ++ h → abort_logs h = O →
  logs_abort_once s s'.
Proof.
  intros Ha Hh Hn. exists h. split; [done|]. rewrite Hn.
  split; [intros Hf; split; [congruence|done]|]. split; [lia|done].
Qed.

Lemma logs_abort_once_classify c s : logs_abort_once s (classify c s).2.
Proof.
  destruct (classify_same_control c s) as (Hc & Ha & Hh).
  apply (logs_abort_once_quiet _ _ []); try done. by rewrite app_nil_r.
Qed.

Lemma logs_abort_once_pass kind s s' n l :
  s' = Feed.set_purged n (Feed.set_entries l (Feed.record (Feed.Purged kind) s)) →
  logs_abort_once s s'.
Proof. intros ->. by apply (logs_abort_once_quiet _ _ [Feed.Purged kind]). Qed.

(** What [abort()] records when it is entered. *)
Lemma abort_enter_history silent s :
  Feed.history (Feed.abort_enter silent s)
  = Feed.history s
    ++ (if negb (Feed.__abort s) && negb silent then [Feed.Aborting] else []).
Proof.
  unfold Feed.abort_enter.
  destruct (negb (Feed.__abort s) && negb silent); simpl; [done|].
  by rewrite app_nil_r.
Qed.

Lemma logs_abort_once_entered silent s s' :
  logs_abort_once (Feed.abort_enter silent s) s' →
  Feed.__abort s' = true
  ∧ ∃ h, Feed.history s' = Feed.history s ++ h
         ∧ abort_logs h
           = if negb (Feed.__abort s) && negb silent then 1%nat else O.
Proof.
  intros (h & Hh & Ha & _). destruct (Ha eq_refl) as [Hf Hn].
  split; [done|]. rewrite abort_enter_history, <- app_assoc in Hh.
  eexists. split; [exact Hh|]. rewrite abort_logs_app, Hn.
  by destruct (negb (Feed.__abort s) && negb silent).
Qed.

Lemma logs_abort_once_enter silent s s' :
  logs_abort_once (Feed.abort_enter silent s) s' → logs_abort_once s s'.
Proof.
  intros H. apply logs_abort_once_entered in H as (Hf & h & Hh & Hn).
  exists h. split; [done|]. rewrite Hn.
  split; [|split].
  - intros Hs. rewrite Hs. done.
  - destruct (negb _ && negb _); lia.
  - done.
Qed.

Lemma logs_abort_once_unhandled keyword s s' :
  logs_abort_once
    (Feed.abort_enter false (Feed.record (Feed.Unhandled keyword) s)) s' →
  logs_abort_once s s'.
Proof.
  intros H. apply logs_abort_once_enter in H.
  apply (logs_abort_once_trans _ (Feed.record (Feed.Unhandled keyword) s));
    [|done].
  by apply (logs_abort_once_quiet _ _ [Feed.Unhandled keyword]).
Qed.

Lemma run_event_logs_abort_once fuel event s r s' :
  Feed.__run_event manager fuel event s = Some (r, s') →
  logs_abort_once s s'.
Proof.
  revert event s r s'.
  induction fuel as [|fuel IH]; intros event s r s' H; [done|].
  simpl in H. revert H.
  apply (dispatch_R manager logs_abort_once (λ _, True) (λ _ _ _, True));
    try done.
  - apply logs_abort_once_refl.
  - apply logs_abort_once_trans.
  - apply logs_abort_once_classify.
  - intros entry s0. apply (logs_abort_once_quiet _ _ []); try done.
    by rewrite app_nil_r.
  - intros _ s0. destruct (purge_filtered_frame s0) as (n & l & Hs).
    by eapply logs_abort_once_pass.
  - intros s0. destruct (purge_rejected_frame s0) as (n & l & Hs).
    by eapply logs_abort_once_pass.
  - intros s0. destruct (purge_failed_frame s0) as (n & l & Hs).
    by eapply logs_abort_once_pass.
  - intros ev k s0. apply (logs_abort_once_quiet _ _ []); try done.
    by rewrite app_nil_r.
  - intros ev m s0 _.
    by apply (logs_abort_once_quiet _ _
                [Feed.Called ev (Feed.Manager.name m)]).
  - apply logs_abort_once_unhandled.
  - apply logs_abort_once_enter.
  - intros s0 r0 s0' _ H0. by eapply IH.
  - intros m _ method p _. apply prog_allowed_any.
Qed.

(** X23. The record ['Aborting feed ...'] is written at most once in a
    run of [execute()], however often [abort()] is called and re-entered,
    and only by the call that sets the abort flag. A call of [abort()]
    that returns has written it exactly when the feed was not yet
    aborted and the call was not silent; the flag is then set. *)
Theorem aborting_logged_at_most_once fuel s :
  (∀ r s', Feed.execute manager fuel s = Some (r, s') →
     ∃ h, Feed.history s' = Feed.history s ++ h
          ∧ (abort_logs h ≤ 1)%nat
          ∧ (abort_logs h = 1%nat →
             Feed.__abort s = false ∧ Feed.__abort s' = true))
  ∧ (∀ silent r s', Feed.abort manager fuel silent s = Some (r, s') →
       Feed.__abort s' = true
       ∧ ∃ h, Feed.history s' = Feed.history s ++ h
              ∧ abort_logs h
                = if negb (Feed.__abort s) && negb silent then 1%nat else O).
Proof.
  split.
  - intros r s' H.
    assert (logs_abort_once s s') as (h & Hh & Ha & Hle & Hone).
    { revert H. apply (execute_R manager _ (λ _, True)); try done.
      - apply logs_abort_once_refl.
      - apply logs_abort_once_trans.
      - intros s0. destruct (purge_filtered_frame s0) as (n & l & Hs).
        by eapply logs_abort_once_pass.
      - apply logs_abort_once_enter.
      - intros fuel0 event s0 r0 s0' _. apply run_event_logs_abort_once. }
    exists h. split; [done|]. split; [done|]. intros H1.
    split; [|by apply Hone].
    destruct (Feed.__abort s); [|done].
    destruct (Ha eq_refl) as [_ H0]. lia.
  - intros silent r s' H. unfold Feed.abort, Feed.abort_with in H.
    apply run_event_logs_abort_once in H.
    by apply logs_abort_once_entered.
Qed.

End AbortLog.

Lemma aborting_logged_at_most_once_witness :
  ∃ r s',
    Feed.execute faulty_manager 2 faulty_feed = Some (r, s')
    ∧ (abort_logs (Feed.history s') ≤ 1)%nat.
Proof.
  assert (∃ r s', Feed.execute faulty_manager 2 faulty_feed = Some (r, s'))
    as (r & s' & H).
  { eexists _, _. vm_compute. reflexivity. }
  exists r, s'. split; [exact H|].
  destruct (aborting_logged_at_most_once faulty_manager 2 faulty_feed)
    as [Hexec _].
  destruct (Hexec r s' H) as (h & Hh & Hle & _).
  rewrite Hh. exact Hle.
Defined.
